(** * Vortex: the resilient filesystem layer ([src/util/fs.ts]) and the
    mod-management event handlers (mod removal, reconciliation).

    The TypeScript code is asynchronous and talks to the operating system, to
    a dialog and to a privileged helper process.  The embedding keeps the
    control flow of the source ([.then] / [.catch] chains, the recursive
    retry wrappers) and makes the outside world explicit: every external
    answer is read from an environment record, every external effect is
    appended to a trace. *)

From Stdlib Require Import Ascii String.
From stdpp Require Import gmap strings list pretty.

(** ** JavaScript values *)

(** [err.code] is a string for Node errno exceptions (['EBUSY']) and a number
    for the errors of the elevation helper ([5]). *)
Inductive Code :=
| CodeStr (s : string)
| CodeNum (n : Z).

#[global] Instance Code_eq_dec : EqDecision Code.
Proof. solve_decision. Defined.

(** The error classes of [util/CustomErrors] plus the built-in [Error]. *)
Inductive ErrClass :=
| UserCanceled
| ProcessCanceled
| TemporaryError
| PlainError.

#[global] Instance ErrClass_eq_dec : EqDecision ErrClass.
Proof. solve_decision. Defined.

(** An error object.  [e_stack = None] is the native stack the object got when
    it was constructed; [Some s] is the getter installed by [restackErr],
    which yields [message + '\n' + s]. *)
Record JsError := mkError {
  e_cls : ErrClass;
  e_message : string;
  e_code : option Code;
  e_path : option string;
  e_dest : option string;
  e_stack : option string
}.

#[global] Instance JsError_eq_dec : EqDecision JsError.
Proof. solve_decision. Defined.

(** The state a promise ends in.  [Pending] is a promise that never settles. *)
Inductive Promise (A : Type) :=
| Resolved (a : A)
| Rejected (e : JsError)
| Pending.

Arguments Resolved {A} a.
Arguments Rejected {A} e.
Arguments Pending {A}.

(** [`${x}`] for a value that may be [undefined]. *)
Definition jsStr (o : option string) : string := default "undefined" o.

Definition jsCode (o : option Code) : string :=
  match o with
  | Some (CodeStr s) => s
  | Some (CodeNum n) => pretty n
  | None => "undefined"
  end.

(** [a || b] on strings that may be undefined: the empty string is falsy. *)
Definition jsOr (a b : option string) : option string :=
  match a with
  | Some s => if bool_decide (s = "") then b else a
  | None => b
  end.

(** [err.code === 'XYZ'] *)
Definition codeIs (e : JsError) (s : string) : bool :=
  bool_decide (e_code e = Some (CodeStr s)).

Definition dquote : string := String "034"%char EmptyString.
Definition newline : string := String "010"%char EmptyString.

Module Fs.

(** ** The outside world of [fs.ts] *)

Record Proc := mkProc { appName : string; pid : Z }.

Record MessageBoxOptions := mkBox {
  title : string;
  message : string;
  detail : option string;
  buttons : list string;
  type : string;
  noLink : bool
}.

Record Stats := mkStats { ino : Z; isDirectory : bool }.

(** What can happen to the IPC server that [elevated] starts. *)
Inductive IpcEvent :=
| RunElevatedFailed (err : JsError)
| SocketDisconnected
| ServerError (ipcErr : string)
| Disconnect.

(** Everything the module does to the outside, oldest first. *)
Inductive Event :=
| EvCall
| EvStat (p : string)
| EvPrompt (o : MessageBoxOptions) (choice : nat)
| EvElevated (filePath : option string) (userId : string)
| EvServerStop
| EvLog (level text : string) (filePath : option string) (error : string)
| EvDelay (ms : Z).

Definition Trace := list Event.

Definition isCall (ev : Event) : bool :=
  match ev with EvCall => true | _ => false end.
Definition isPrompt (ev : Event) : bool :=
  match ev with EvPrompt _ _ => true | _ => false end.
Definition isElevated (ev : Event) : bool :=
  match ev with EvElevated _ _ => true | _ => false end.
Definition isStat (ev : Event) : bool :=
  match ev with EvStat _ => true | _ => false end.
Definition isDelay (ev : Event) : bool :=
  match ev with EvDelay _ => true | _ => false end.

Definition count (f : Event -> bool) (t : Trace) : nat :=
  length (List.filter f t).

(** The environment answers by call number: [underlying k] is what the [k]-th
    invocation of the wrapped primitive ([fs.unlinkAsync], [rimraf],
    [fs.copyAsync], ...) settles to, [showMessageBox k o] the index of the
    button the user presses in the [k]-th dialog. *)
Record Env (V : Type) := mkEnv {
  dialogDefined : bool;
  showMessageBox : nat -> MessageBoxOptions -> nat;
  wholocks : option string -> list Proc;
  getUserId : string;
  userCanceledMessage : string;
  underlying : nat -> Promise V;
  statAsync : string -> Promise Stats;
  ipcEvents : nat -> list IpcEvent
}.

Arguments dialogDefined {V} _.
Arguments showMessageBox {V} _ _ _.
Arguments wholocks {V} _ _.
Arguments getUserId {V} _.
Arguments userCanceledMessage {V} _.
Arguments underlying {V} _ _.
Arguments statAsync {V} _ _.
Arguments ipcEvents {V} _ _.

(** ** Asynchronous computations

    A computation runs on the trace so far and yields the state its promise
    ends in together with the extended trace; [None] means the recursion
    budget of the model ran out before the promise chain ended. *)
Definition M (A : Type) := Trace -> option (Promise A * Trace).

Definition resolve {A} (a : A) : M A := fun t => Some (Resolved a, t).
Definition reject {A} (e : JsError) : M A := fun t => Some (Rejected e, t).
Definition emit (ev : Event) : M unit := fun t => Some (Resolved tt, t ++ [ev]).

(** [p.then(f)] *)
Definition then_ {A B} (p : M A) (f : A -> M B) : M B :=
  fun t =>
    match p t with
    | Some (Resolved a, t1) => f a t1
    | Some (Rejected e, t1) => Some (Rejected e, t1)
    | Some (Pending, t1) => Some (Pending, t1)
    | None => None
    end.

(** [p.catch(h)] *)
Definition catch_ {A} (p : M A) (h : JsError -> M A) : M A :=
  fun t =>
    match p t with
    | Some (Rejected e, t1) => h e t1
    | other => other
    end.

Definition NUM_RETRIES : nat := 3.
Definition RETRY_DELAY_MS : Z := 100.
Definition RETRY_ERRORS : list string := ["EPERM"; "EBUSY"; "EUNKNOWN"].

(** [RETRY_ERRORS.has(err.code)] *)
Definition isRetryError (e : JsError) : bool :=
  match e_code e with
  | Some (CodeStr s) => bool_decide (s ∈ RETRY_ERRORS)
  | _ => false
  end.

Definition restackErr (error : JsError) (stackErr : string) : JsError :=
  mkError (e_cls error) (e_message error) (e_code error)
          (e_path error) (e_dest error) (Some stackErr).

(** The text the installed getter produces. *)
Definition stackText (e : JsError) : option string :=
  (fun s => e_message e +:+ newline +:+ s) <$> e_stack e.

Section Wrappers.

Context {V : Type} (env : Env V).

Definition newUserCanceled : JsError :=
  mkError UserCanceled (userCanceledMessage env) None None None None.

Definition newError (msg : string) : JsError :=
  mkError PlainError msg None None None None.

(** [dialog.showMessageBox(window, options)] *)
Definition showBox (options : MessageBoxOptions) : M nat :=
  fun t =>
    let choice := showMessageBox env (count isPrompt t) options in
    Some (Resolved choice, t ++ [EvPrompt options choice]).

Definition procLine (proc : Proc) : string :=
  appName proc +:+ " (" +:+ pretty (pid proc) +:+ ")".

Definition procLines (processes : list Proc) : string :=
  String.concat newline (procLine <$> processes).

Definition nospcOptions : MessageBoxOptions :=
  mkBox "Disk full"
        ("Operation can't continue because the disk is full. "
         +:+ "Please free up some space and retry.")
        None ["Cancel"; "Retry"] "warning" true.

Definition nospcQuery : M bool :=
  if negb (dialogDefined env) then resolve false
  else
    let options := nospcOptions in
    then_ (showBox options) (fun choice =>
      if bool_decide (choice = 0) then reject newUserCanceled
      else resolve true).

(** The [options] object of [unlockConfirm], with its [baseMessage] and
    [buttons]. *)
Definition unlockOptions (filePath : option string) (processes : list Proc)
  : MessageBoxOptions :=
  let baseMessage :=
    if bool_decide (length processes = 0)
    then "Vortex needs to access " +:+ dquote +:+ jsStr filePath +:+ dquote
         +:+ " but doesn't have permission to."
    else "Vortex needs to access " +:+ dquote +:+ jsStr filePath +:+ dquote
         +:+ " but it either has too restrictive permissions or is locked by another process." in
  let buttons := ["Cancel"; "Retry"] in
  let buttons :=
    if bool_decide (length processes = 0)
    then buttons ++ ["Give permission"] else buttons in
  mkBox "Access denied"
        (baseMessage
         +:+ " If your account has admin rights Vortex can try to unlock the file for you.")
        (if bool_decide (length processes = 0) then None
         else Some ("Please close the following applications and retry:"
                    +:+ newline +:+ procLines processes))
        buttons "warning" true.

Definition unlockConfirm (filePath : option string) : M bool :=
  if negb (dialogDefined env) then resolve false
  else
    let processes := wholocks env filePath in
    let options := unlockOptions filePath processes in
    then_ (showBox options) (fun choice =>
      if bool_decide (choice = 0) then reject newUserCanceled
      else resolve (bool_decide (choice = 2))).

Definition busyOptions (filePath : option string) (processes : list Proc)
  : MessageBoxOptions :=
  mkBox "File busy"
        ("Vortex needs to access " +:+ dquote +:+ jsStr filePath +:+ dquote
         +:+ " but it's open in another application. "
         +:+ "Please close the file in all other applications and then retry.")
        (Some ("Please close the following applications and retry:"
               +:+ newline +:+ procLines processes))
        ["Cancel"; "Retry"] "warning" true.

Definition busyRetry (filePath : option string) : M bool :=
  if negb (dialogDefined env) then resolve false
  else
    let processes := wholocks env filePath in
    let options := busyOptions filePath processes in
    then_ (showBox options) (fun choice =>
      if bool_decide (choice = 0) then reject newUserCanceled
      else resolve true).

(** *** [elevated]: the promise around the IPC server

    [resolved] is the local flag of the source; [settled] is the state of the
    promise itself, which only its first [resolve]/[reject] call changes.
    Everything the server reports is folded in before the promise chain goes
    on.  In the program what is reported after the settling event arrives
    later, so the place of those later server stops in the trace carries no
    meaning: what is stated of [elevated] counts events, or is about the
    outcome, or is about runs whose settling event is the last one. *)
Record Elevation := mkElevation {
  resolved : bool;
  settled : option (Promise unit);
  stops : list Event
}.

Definition settle (p : Promise unit) (s : option (Promise unit))
  : option (Promise unit) :=
  match s with
  | None => Some p
  | Some _ => s
  end.

Definition ipcStep (st : Elevation) (ev : IpcEvent) : Elevation :=
  match ev with
  | RunElevatedFailed err =>
      (* the first [.catch] of the source: it calls [reject] directly and
         leaves the flag alone *)
      if bool_decide (e_code err = Some (CodeNum 5))
      then mkElevation (resolved st)
                       (settle (Rejected newUserCanceled) (settled st)) (stops st)
      else mkElevation (resolved st)
             (settle (Rejected (newError ("OS error " +:+ e_message err +:+ " ("
                                          +:+ jsCode (e_code err) +:+ ")")))
                     (settled st))
             (stops st)
  | SocketDisconnected | Disconnect =>
      if resolved st
      then mkElevation true (settled st) (stops st ++ [EvServerStop])
      else mkElevation true (settle (Resolved tt) (settled st))
                       (stops st ++ [EvServerStop])
  | ServerError ipcErr =>
      if resolved st then st
      else mkElevation true (settle (Rejected (newError ipcErr)) (settled st))
                       (stops st)
  end.

Definition elevated (filePath : option string) (userId : string) : M unit :=
  fun t =>
    let events := ipcEvents env (count isElevated t) in
    let final := foldl ipcStep (mkElevation false None []) events in
    Some (default Pending (settled final),
          t ++ [EvElevated filePath userId] ++ stops final).

Definition errorRepeat (error : JsError) (filePath : option string) : M bool :=
  if codeIs error "EBUSY" then busyRetry filePath
  else if codeIs error "ENOSPC" then nospcQuery
  else if codeIs error "EPERM" then
    then_ (unlockConfirm filePath) (fun doUnlock =>
      if doUnlock then
        let userId := getUserId env in
        catch_
          (then_ (elevated filePath userId) (fun _ => resolve true))
          (fun elevatedErr =>
             (* "if elevation failed, return the original error" *)
             then_ (emit (EvLog "error" "failed to acquire permission"
                                filePath (e_message elevatedErr)))
                   (fun _ => reject error))
      else resolve true)
  else resolve false.

Definition errorHandler (error : JsError) (stackErr : string) : M unit :=
  catch_
    (then_ (errorRepeat error (jsOr (e_dest error) (e_path error)))
           (fun repeat : bool =>
              if repeat then resolve tt
              else reject (restackErr error stackErr)))
    (fun err => reject (restackErr err stackErr)).

(** The wrapped primitive itself: [func(...args)]. *)
Definition call : M V :=
  fun t => Some (underlying env (count isCall t), t ++ [EvCall]).

(** [genWrapperAsync(func)]: the inner [wrapper(stackErr, ...args)]. *)
Fixpoint wrapper (fuel : nat) (stackErr : string) : M V :=
  match fuel with
  | 0 => fun _ => None
  | S fuel' =>
      catch_ call (fun err =>
        then_ (errorHandler err stackErr) (fun _ => wrapper fuel' stackErr))
  end.

(** [res(...args)]: the backtrace of the call site is taken first. *)
Definition genWrapperAsync (fuel : nat) (stackErr : string) : M V :=
  wrapper fuel stackErr.

End Wrappers.

(** ** The operations with a body of their own ([void] results) *)

(** [fs.CopyOptions & { noSelfCopy?: boolean }]; the other fields are handed
    to [fs.copyAsync] untouched. *)
Record CopyOptions := mkCopyOptions { noSelfCopy : option bool }.

Section Operations.

Context (env : Env unit).

(** [fs.statAsync(p)], the unwrapped primitive. *)
Definition stat (p : string) : M Stats :=
  fun t => Some (statAsync env p, t ++ [EvStat p]).

Definition sameFileMessage (src dest : string) (id : Z) : string :=
  "Source " +:+ dquote +:+ src +:+ dquote +:+ " and destination "
  +:+ dquote +:+ dest +:+ dquote +:+ " are the same file (id "
  +:+ dquote +:+ pretty id +:+ dquote +:+ ").".

(** [PromiseBB.join] of the two [stat] promises: both are started, a
    rejection of either rejects the join (when both reject, the one of the
    source is taken), and [{}] stands in for a missing destination, so that
    its [ino] is [undefined]. *)
Definition selfCopyCheck (src dest : string) : M unit :=
  fun t =>
    let t' := t ++ [EvStat src; EvStat dest] in
    let destStats : Promise (option Z) :=
      match statAsync env dest with
      | Resolved s => Resolved (Some (ino s))
      | Rejected err =>
          if codeIs err "ENOENT" then Resolved None else Rejected err
      | Pending => Pending
      end in
    match statAsync env src, destStats with
    | Rejected err, _ => Some (Rejected err, t')
    | _, Rejected err => Some (Rejected err, t')
    | Pending, _ => Some (Pending, t')
    | _, Pending => Some (Pending, t')
    | Resolved s0, Resolved i1 =>
        if bool_decide (Some (ino s0) = i1)
        then Some (Rejected (newError (sameFileMessage src dest (ino s0))), t')
        else Some (Resolved tt, t')
    end.

Fixpoint copyInt (fuel : nat) (src dest : string)
         (options : option CopyOptions) (stackErr : string) : M unit :=
  match fuel with
  | 0 => fun _ => None
  | S fuel' =>
      catch_ (call env) (fun err =>
        then_ (errorHandler env err stackErr)
              (fun _ => copyInt fuel' src dest options stackErr))
  end.

(** [(options !== undefined) && options.noSelfCopy] *)
Definition skipSelfCopyCheck (options : option CopyOptions) : bool :=
  match options with
  | Some o => default false (noSelfCopy o)
  | None => false
  end.

Definition copyAsync (fuel : nat) (stackErr : string) (src dest : string)
           (options : option CopyOptions) : M unit :=
  let check :=
    if skipSelfCopyCheck options then resolve tt
    else selfCopyCheck src dest in
  catch_
    (then_ check (fun _ => copyInt fuel src dest options stackErr))
    (fun err => reject (restackErr err stackErr)).

Fixpoint removeInt (fuel : nat) (dirPath : string) (stackErr : string)
  : M unit :=
  match fuel with
  | 0 => fun _ => None
  | S fuel' =>
      catch_ (call env) (fun err =>
        if codeIs err "ENOENT"
        then resolve tt
        else then_ (errorHandler env err stackErr)
                   (fun _ => removeInt fuel' dirPath stackErr))
  end.

Definition removeAsync (fuel : nat) (stackErr : string) (dirPath : string)
  : M unit :=
  removeInt fuel dirPath stackErr.

Fixpoint unlinkInt (fuel : nat) (dirPath : string) (stackErr : string)
  : M unit :=
  match fuel with
  | 0 => fun _ => None
  | S fuel' =>
      catch_ (call env) (fun err =>
        if codeIs err "ENOENT"
        then resolve tt
        else then_ (errorHandler env err stackErr)
                   (fun _ => unlinkInt fuel' dirPath stackErr))
  end.

Definition unlinkAsync (fuel : nat) (stackErr : string) (dirPath : string)
  : M unit :=
  unlinkInt fuel dirPath stackErr.

Fixpoint renameInt (fuel : nat) (sourcePath destinationPath : string)
         (stackErr : string) : M unit :=
  match fuel with
  | 0 => fun _ => None
  | S fuel' =>
      catch_ (call env) (fun err =>
        if codeIs err "EPERM"
        then
          catch_
            (then_ (stat destinationPath) (fun st =>
               if isDirectory st
               then reject (restackErr err stackErr)
               else then_ (errorHandler env err stackErr)
                          (fun _ => renameInt fuel' sourcePath destinationPath
                                              stackErr)))
            (fun newErr => reject (restackErr newErr stackErr))
        else then_ (errorHandler env err stackErr)
                   (fun _ => renameInt fuel' sourcePath destinationPath
                                       stackErr))
  end.

Definition renameAsync (fuel : nat) (stackErr : string)
           (sourcePath destinationPath : string) : M unit :=
  renameInt fuel sourcePath destinationPath stackErr.

(** [tries] counts down from [NUM_RETRIES]; the match is the source's
    [RETRY_ERRORS.has(err.code) && (tries > 0)] with [tries - 1] named. *)
Fixpoint rmdirInt (dirPath : string) (stackErr : string) (tries : nat)
  : M unit :=
  catch_ (call env) (fun err =>
    if codeIs err "ENOENT"
    then resolve tt
    else
      match tries with
      | S tries' =>
          if isRetryError err
          then then_ (emit (EvDelay RETRY_DELAY_MS))
                     (fun _ => rmdirInt dirPath stackErr tries')
          else reject (restackErr err stackErr)
      | 0 => reject (restackErr err stackErr)
      end).

Definition rmdirAsync (stackErr : string) (dirPath : string) : M unit :=
  rmdirInt dirPath stackErr NUM_RETRIES.

End Operations.

(** ** Directories *)

Section Directories.

Context (env : Env unit).

(** [ensureFileAsync]: the primitive of fs-extra, handed through. *)
Definition ensureFileAsync (filePath : string) : M unit := call env.

Definition ensureDirAsync (stackErr : string) (dirPath : string) : M unit :=
  catch_ (call env) (fun err =>
    (* "ensureDir isn't supposed to cause EEXIST errors [...] but on windows,
       when targeting a OneDrive path (and similar?) it apparently still
       does" *)
    if codeIs err "EEXIST" then resolve tt
    else reject (restackErr err stackErr)).

(** [ensureDirWritableAsync(dirPath, confirm)].  The three calls are the raw
    [fs.ensureDirAsync], [fs.ensureFileAsync] and [fs.removeAsync] of
    fs-extra, in this order; [confirm] is the caller's callback. *)
Definition ensureDirWritableAsync (dirPath : string) (confirm : M unit)
  : M unit :=
  catch_
    (then_ (call env) (fun _ =>
       (* the canary file: created, then removed *)
       then_ (call env) (fun _ => call env)))
    (fun err =>
       if codeIs err "EPERM"
       then then_ confirm (fun _ =>
              let userId := getUserId env in
              elevated env (Some dirPath) userId)
       else reject err).

End Directories.

(** ** Vocabulary of the properties *)

(** The alternation [call, delay, call, ..., call] of [k] retries. *)
Fixpoint retries (k : nat) : Trace :=
  match k with
  | 0 => [EvCall]
  | S k' => EvCall :: EvDelay RETRY_DELAY_MS :: retries k'
  end.

(** Events of the handler other than the dialog itself: the elevation, the
    stops of its IPC server and the log line. *)
Definition quiet (ev : Event) : bool :=
  match ev with
  | EvElevated _ _ | EvServerStop | EvLog _ _ _ _ => true
  | _ => false
  end.

(** Events the handler never produces: calls of the primitive, [stat]s and
    delays. *)
Definition foreign (f : Event -> bool) : Prop :=
  (forall o c, f (EvPrompt o c) = false) /\ (forall ev, quiet ev = true -> f ev = false).

(** The codes [errorRepeat] has a dialog for. *)
Definition recoverable (e : JsError) : bool :=
  codeIs e "EBUSY" || codeIs e "ENOSPC" || codeIs e "EPERM".

(** No rejection of a run carries the code ENOENT. *)
Definition surfaces (out : option (Promise unit * Trace)) : Prop :=
  forall e t, out = Some (Rejected e, t) -> codeIs e "ENOENT" = false.

Section Vocabulary.

Context {V : Type} (env : Env V).

(** The ways a call of [errorHandler] ends.  Without a dialog
    [unlockConfirm] resolves to [false], which [errorRepeat] turns into
    "repeat": a permission error is then retried unasked. *)
Inductive handled (err : JsError) (stackErr : string) (t : Trace)
  : Promise unit -> Trace -> Prop :=
| handled_unasked :
    handled err stackErr t (Rejected (restackErr err stackErr)) t
| handled_blind :
    dialogDefined env = false -> codeIs err "EPERM" = true ->
    handled err stackErr t (Resolved tt) t
| handled_cancel o :
    showMessageBox env (count isPrompt t) o = 0 ->
    handled err stackErr t
            (Rejected (restackErr (newUserCanceled env) stackErr))
            (t ++ [EvPrompt o 0])
| handled_repeat o c rest :
    showMessageBox env (count isPrompt t) o = c -> c <> 0 ->
    Forall (fun ev => quiet ev = true) rest ->
    handled err stackErr t (Resolved tt) (t ++ EvPrompt o c :: rest)
| handled_elevation_failed o rest :
    showMessageBox env (count isPrompt t) o = 2 ->
    Forall (fun ev => quiet ev = true) rest ->
    handled err stackErr t (Rejected (restackErr err stackErr))
            (t ++ EvPrompt o 2 :: rest)
| handled_elevation_pending o rest :
    showMessageBox env (count isPrompt t) o = 2 ->
    Forall (fun ev => quiet ev = true) rest ->
    handled err stackErr t Pending (t ++ EvPrompt o 2 :: rest).

Definition firstAnswerCancel : Prop := forall o, showMessageBox env 0 o = 0.

(** How a call ends when the first dialog is cancelled: either no dialog was
    shown at all, or the cancelled dialog is the last thing that happened and
    the promise is rejected with the [UserCanceled] object. *)
Definition cancelled {A} (stackErr : string) (out : option (Promise A * Trace))
  : Prop :=
  exists r t, out = Some (r, t) /\
    (count isPrompt t = 0 \/
     exists pre o, t = pre ++ [EvPrompt o 0] /\ count isPrompt pre = 0 /\
                   r = Rejected (restackErr (newUserCanceled env) stackErr)).

(** The premises of retry convergence, read off the current trace [t]: the
    next [n] calls of the primitive fail with a recoverable code, the call
    after them resolves to [v], and the next [n] dialogs are answered with
    button 1, "Retry". *)
Definition failsThenSucceeds (ok : JsError -> bool) (n : nat) (v : V) (t : Trace)
  : Prop :=
  (forall i, i < n -> exists e,
      underlying env (count isCall t + i) = Rejected e /\ ok e = true)
  /\ underlying env (count isCall t + n) = Resolved v
  /\ (forall i o, i < n -> showMessageBox env (count isPrompt t + i) o = 1).

(** The conclusion: the promise resolves to [v] after [n] dialogs and [n + 1]
    calls of the primitive. *)
Definition converges (n : nat) (v : V) (t : Trace)
           (out : option (Promise V * Trace)) : Prop :=
  exists t', out = Some (Resolved v, t')
             /\ count isPrompt t' = count isPrompt t + n
             /\ count isCall t' = count isCall t + S n.

(** [renameInt] asks only when a permission error does not come from a
    destination that is a directory (or cannot be inspected). *)
Definition renameRecoverable (destinationPath : string) (e : JsError) : bool :=
  if codeIs e "EPERM"
  then match statAsync env destinationPath with
       | Resolved st => negb (isDirectory st)
       | _ => false
       end
  else codeIs e "EBUSY" || codeIs e "ENOSPC".

End Vocabulary.

(** ** Sample runs *)

Definition errno (c : string) (p : string) : JsError :=
  mkError PlainError (c +:+ ": operation failed") (Some (CodeStr c))
          (Some p) None None.

(** An environment with a dialog, nobody holding the file, and a fixed
    script of primitive results and dialog answers. *)
Definition scripted {V} (results : list (Promise V)) (answers : list nat)
           (elevations : list (list IpcEvent)) (procs : list Proc) : Env V :=
  mkEnv V true
        (fun k _ => default 0 (answers !! k))
        (fun _ => procs)
        "user-1"
        "canceled by user"
        (fun k => default Pending (results !! k))
        (fun _ => Pending)
        (fun k => default [] (elevations !! k)).

(** The error of [runElevated] when the user declines the privilege prompt,
    and a world in which that happens after "Give permission". *)
Definition uacDeclined : JsError :=
  mkError PlainError "The operation was canceled by the user" (Some (CodeNum 5))
          None None None.

Definition declinedWorld : Env unit :=
  scripted [Rejected (errno "EPERM" "/mods/a.esp")] [2]
           [[RunElevatedFailed uacDeclined]] [].

Definition busyThenCancel {V} : Env V :=
  scripted [Rejected (errno "EBUSY" "/mods/a.esp")] [0] [] [].

Definition busyOnce : Env unit :=
  scripted [Rejected (errno "EBUSY" "/mods/old"); Resolved tt] [1; 1] [] [].

Definition twoFailures : Env nat :=
  scripted [Rejected (errno "EBUSY" "/mods/a.esp");
            Rejected (errno "EPERM" "/mods/a.esp"); Resolved 7]
           [1; 1] [] [].

Definition linkedWorld : Env unit :=
  mkEnv unit true (fun _ _ => 0) (fun _ => []) "user-1" "canceled by user"
        (fun _ => Resolved tt)
        (fun _ => Resolved (mkStats 42 false))
        (fun _ => []).

Definition lockedWorld : Env unit :=
  scripted [Rejected (errno "EPERM" "/mods/a.esp")] [0] []
           [mkProc "explorer.exe" 4711].

Definition alwaysBusy : Env unit :=
  scripted (replicate 4 (Rejected (errno "EBUSY" "/mods/old"))) [] [] [].

(** ** Vocabulary of further properties *)

Section MoreVocabulary.

Context {V : Type} (env : Env V).

(** What a single IPC event does to a fresh promise of [elevated]. *)
Definition firstOutcome (ev : IpcEvent) : Promise unit :=
  match ev with
  | RunElevatedFailed err =>
      if bool_decide (e_code err = Some (CodeNum 5))
      then Rejected (newUserCanceled env)
      else Rejected (newError ("OS error " +:+ e_message err +:+ " ("
                               +:+ jsCode (e_code err) +:+ ")"))
  | SocketDisconnected | Disconnect => Resolved tt
  | ServerError ipcErr => Rejected (newError ipcErr)
  end.

(** The helper process went away: the two events that resolve [elevated]. *)
Definition isDisconnect (ev : IpcEvent) : bool :=
  match ev with
  | SocketDisconnected | Disconnect => true
  | _ => false
  end.

End MoreVocabulary.

(** A world in which the helper grants the permission: the file is locked
    down once, the user presses "Give permission", the helper disconnects
    when done, and the second attempt succeeds. *)
Definition grantedWorld : Env nat :=
  scripted [Rejected (errno "EPERM" "/mods/a.esp"); Resolved 7] [2]
           [[SocketDisconnected; Disconnect]] [].

(** Errors the handler hands back without asking anybody: a code it has no
    dialog for, or, when there is no dialog at all, any code but EPERM. *)
Definition unasked {V} (env : Env V) (e : JsError) : bool :=
  negb (recoverable e) || (negb (dialogDefined env) && negb (codeIs e "EPERM")).

(** A process without a dialog (neither [remote] nor [dialog] of electron)
    on a file that stays locked down. *)
Definition headlessWorld : Env nat :=
  mkEnv nat false (fun _ _ => 0) (fun _ => []) "user-1" "canceled by user"
        (fun _ => Rejected (errno "EPERM" "/mods/a.esp"))
        (fun _ => Pending)
        (fun _ => []).

(** The same process when the lock goes away after two attempts. *)
Definition headlessTwice : Env nat :=
  mkEnv nat false (fun _ _ => 0) (fun _ => []) "user-1" "canceled by user"
        (fun k => if bool_decide (k < 2)
                  then Rejected (errno "EPERM" "/mods/a.esp") else Resolved 7)
        (fun _ => Pending)
        (fun _ => []).

(** A full disk nobody can be asked about, and a missing parent directory. *)
Definition notFoundWorld : Env unit :=
  scripted [Rejected (errno "ENOTDIR" "/mods/a.esp")] [1; 1] [] [].

(** What [errorHandler] makes of a dialog with the buttons "Cancel" and
    "Retry". *)
Definition ask {V} (env : Env V) (stackErr : string) (o : MessageBoxOptions)
           (t : Trace) : option (Promise unit * Trace) :=
  let c := showMessageBox env (count isPrompt t) o in
  Some (if bool_decide (c = 0)
        then Rejected (restackErr (newUserCanceled env) stackErr)
        else Resolved tt, t ++ [EvPrompt o c]).

(** "Give permission" pressed in a permission dialog. *)
Definition isGrant (ev : Event) : bool :=
  match ev with
  | EvPrompt o c => bool_decide (title o = "Access denied") && bool_decide (c = 2)
  | _ => false
  end.

(** The file is busy twice; the user retries once and then gives up. *)
Definition retryThenCancel : Env nat :=
  scripted [Rejected (errno "EBUSY" "/mods/a.esp");
            Rejected (errno "EBUSY" "/mods/a.esp"); Resolved 7]
           [1; 0] [] [].

(** Renaming onto an existing directory: the primitive answers EPERM and
    the user would retry for ever. *)
Definition ontoDirectory : Env unit :=
  mkEnv unit true (fun _ _ => 1) (fun _ => []) "user-1" "canceled by user"
        (fun _ => Rejected (errno "EPERM" "/mods/a"))
        (fun _ => Resolved (mkStats 7 true))
        (fun _ => []).

(** Nothing can be inspected: every [stat] answers ENOENT. *)
Definition nothingThere : Env unit :=
  mkEnv unit true (fun _ _ => 1) (fun _ => []) "user-1" "canceled by user"
        (fun _ => Rejected (errno "EPERM" "/mods/a"))
        (fun p => Rejected (errno "ENOENT" p))
        (fun _ => []).

(** A source that exists and a destination that does not. *)
Definition freshDestination : Env unit :=
  mkEnv unit true (fun _ _ => 1) (fun _ => []) "user-1" "canceled by user"
        (fun _ => Resolved tt)
        (fun p => if bool_decide (p = "/mods/a.esp")
                  then Resolved (mkStats 42 false)
                  else Rejected (errno "ENOENT" p))
        (fun _ => []).

(** How a run of [rmdir] that made [k] retries ended, read off the answer of
    the primitive to the last call, the one numbered [last]. *)
Definition rmdirEnded (env : Env unit) (stackErr : string) (tries k last : nat)
           (r : Promise unit) : Prop :=
  match r with
  | Resolved _ =>
      underlying env last = Resolved tt
      \/ exists e0, underlying env last = Rejected e0 /\ codeIs e0 "ENOENT" = true
  | Rejected e =>
      exists e0, underlying env last = Rejected e0
                 /\ e = restackErr e0 stackErr
                 /\ codeIs e0 "ENOENT" = false
                 /\ (isRetryError e0 = false \/ k = tries)
  | Pending => underlying env last = Pending
  end.

(** The three steps of the writability probe: the directory, the canary
    file, its removal. *)
Definition probeSteps : nat := 3.

(** A staging folder that exists but takes no files; the helper, once
    confirmed, disconnects when it is done. *)
Definition readOnlyStaging : Env unit :=
  scripted [Resolved tt; Rejected (errno "EPERM" "/staging/__vortex_canary")]
           [] [[Disconnect]] [].

(** A staging path that is a file. *)
Definition stagingIsFile : Env unit :=
  scripted [Rejected (errno "EEXIST" "/staging")] [] [] [].

(** Every rejection of a run carries the backtrace [stackErr]. *)
Definition stacked {A} (stackErr : string) (out : option (Promise A * Trace))
  : Prop :=
  forall e t, out = Some (Rejected e, t) -> e_stack e = Some stackErr.

(** The same, with a helper that is heard of once. *)
Definition grantedOnce : Env nat :=
  scripted [Rejected (errno "EPERM" "/mods/a.esp"); Resolved 7] [2]
           [[Disconnect]] [].

End Fs.

(** * Mod management event handlers *)

Module Mods.

(** ** State of the application store, as far as the handlers read it *)

Record IMod := mkMod {
  mod_id : string;
  mod_type : option string;
  mod_installationPath : string;
  mod_state : string
}.

(** [lastActiveProfile[gameMode]] is either the profile id itself or an object
    with a [profileId] field. *)
Inductive LastActive :=
| LastActiveString (profileId : string)
| LastActiveObject (profileId : string).

(** A profile: [modState[modId].enabled]. *)
Record IProfile := mkProfile { modState : gmap string bool }.

Record IDiscoveryResult := mkDiscovery { disc_path : option string }.

Record IState := mkState {
  mods : gmap string (gmap string IMod);          (* persistent.mods *)
  profiles : gmap string IProfile;                (* persistent.profiles *)
  lastActiveProfile : gmap string LastActive;     (* settings.profiles *)
  discovered : gmap string IDiscoveryResult;      (* settings.gameMode *)
  activator : gmap string string;                 (* settings.mods.activator *)
  instanceId : string                             (* app.instanceId *)
}.

Definition Manifest := gmap string string.
Definition Normalize := string -> string.

(** A deployment method; what its calls settle to is up to the extension
    that provides it. *)
Record IDeploymentMethod := mkMethod {
  dm_id : string;
  prepare : option string -> bool -> Manifest -> Normalize -> Promise unit;
  deactivate : string -> option string -> IMod -> Promise unit;
  finalize : string -> option string -> string -> Promise Manifest;
  purge : string -> option string -> Promise unit
}.

Record IGame := mkGame { getModPaths : string -> gmap string string }.

Inductive Action :=
| SetModEnabled (profileId : option string) (modId : string) (enable : bool)
| RemoveMod (gameId modId : string)
| AddMod (gameId : string) (mod_ : IMod)
| SetActivator (gameId activatorId : string).

(** Second argument of [showErrorNotification]: a message or the error. *)
Inductive Details :=
| DetailMessage (text : string)
| DetailError (err : JsError)
| DetailObject (reason method : string).

Inductive Event :=
| Dispatch (a : Action)
| Callback (err : option JsError)
| ShowErrorNotification (title : string) (details : Details)
                        (allowReport : option bool)
| ShowError (title : string) (err : JsError) (allowReport : option bool)
| EmitEvent (name : string)
| GetNormalizeFunc (dataPath : option string)
| LoadActivation (modType dataPath activatorId : option string)
| Prepare (method : string) (dataPath : option string)
| Deactivate (method installationPath : string) (dataPath : option string)
             (modId : string)
| Finalize (method gameMode : string) (dataPath : option string)
           (installationPath : string)
| SaveActivation (modType : option string) (instance : string)
                 (dataPath : option string) (method : string)
| RemoveAsync (dir : string)
| StatAsync (dir : string)
| ShowDialog (title : string)
| AppExit (status : Z)
| SendNotification (notification : string)
| DismissNotification (notification : string)
| FallbackPurge
| EnsureDirWritableAsync (dir : string)
| Purge (method installPath : string) (modPath : option string)
| ReadStaging (installPath : string).

Definition Trace := list Event.

(** Selectors, utilities and collaborators that live in other files. *)
Record Env := mkEnv {
  getGame : string -> option IGame;
  installPathForGame : IState -> string -> string;
  installPath : IState -> string;
  activeGameId : IState -> string;
  currentActivator : IState -> option string;
  getSupportedActivators : IState -> list IDeploymentMethod;
  allTypesSupported :
    IDeploymentMethod -> IState -> string -> list string -> option string;
  getNormalizeFunc : option string -> Promise Normalize;
  loadActivation :
    option string -> option string -> option string -> Promise Manifest;
  saveActivation :
    option string -> string -> option string -> Manifest -> string
    -> Promise unit;
  removeAsync : string -> Promise unit;
  statAsync : string -> Promise unit;
  pathJoin : string -> string -> string;
  showDialog : string -> Promise string;
  fallbackPurge : Promise unit;
  ensureDirWritableAsync : string -> Promise unit;
  shortid : string;
  stagingContents : string -> Promise (list IMod);
  userCanceledMessage : string
}.

(** ** Promise chains over the handler trace *)

Definition M (A : Type) := Trace -> Promise A * Trace.

Definition resolve {A} (a : A) : M A := fun t => (Resolved a, t).
Definition reject {A} (e : JsError) : M A := fun t => (Rejected e, t).

(** An external call: it is recorded and settles as the world decides. *)
Definition external {A} (ev : Event) (p : Promise A) : M A :=
  fun t => (p, t ++ [ev]).

(** A synchronous effect inside a handler. *)
Definition effect (ev : Event) : M unit := fun t => (Resolved tt, t ++ [ev]).

Definition then_ {A B} (p : M A) (f : A -> M B) : M B :=
  fun t =>
    match p t with
    | (Resolved a, t1) => f a t1
    | (Rejected e, t1) => (Rejected e, t1)
    | (Pending, t1) => (Pending, t1)
    end.

Definition catch_ {A} (p : M A) (h : JsError -> M A) : M A :=
  fun t =>
    match p t with
    | (Rejected e, t1) => h e t1
    | other => other
    end.

(** Bluebird's filtered [.catch(ErrorClass, handler)]. *)
Definition catchClass {A} (p : M A) (c : ErrClass) (h : JsError -> M A) : M A :=
  fun t =>
    match p t with
    | (Rejected e, t1) =>
        if bool_decide (e_cls e = c) then h e t1 else (Rejected e, t1)
    | other => other
    end.

(** [p.finally(f)] for a handler that only has an effect: it runs once the
    promise has settled, either way, and not while it is pending. *)
Definition finally_ {A} (p : M A) (ev : Event) : M A :=
  fun t =>
    match p t with
    | (Pending, t1) => (Pending, t1)
    | (r, t1) => (r, t1 ++ [ev])
    end.

(** [Promise.mapSeries(xs, f)], results dropped. *)
Fixpoint mapSeries {A} (xs : list A) (f : A -> M unit) : M unit :=
  match xs with
  | [] => resolve tt
  | x :: xs' => then_ (f x) (fun _ => mapSeries xs' f)
  end.

Definition newProcessCanceled (msg : string) : JsError :=
  mkError ProcessCanceled msg None None None None.

(** The [TypeError] of reading a property of [undefined]. *)
Definition typeError (property : string) : JsError :=
  mkError PlainError
          ("Cannot read property '" +:+ property +:+ "' of undefined")
          None None None None.

(** [['downloaded', 'installed'].indexOf(s) !== -1] *)
Definition isRemovableState (s : option string) : bool :=
  match s with
  | Some s => bool_decide (s ∈ ["downloaded"; "installed"])
  | None => false
  end.

(** [truthy(x)] of [util/util] on a value that is an object or undefined. *)
Definition truthy {A} (x : option A) : bool :=
  match x with Some _ => true | None => false end.

(** A function either returns or throws synchronously. *)
Inductive Completion :=
| Returned
| Threw (e : JsError).

Section Handlers.

Context (env : Env) (st : IState).

Definition newUserCanceled : JsError :=
  mkError UserCanceled (userCanceledMessage env) None None None None.

(** [undeploy(api, activators, gameMode, mod_)].  The result is the promise it
    returns, or the exception of [game.getModPaths] when [getGame] has no
    descriptor for the game. *)
Definition undeploy (activators : list IDeploymentMethod) (gameMode : string)
           (mod_ : IMod) : JsError + M unit :=
  match (discovered st !! gameMode) ≫= disc_path with
  | None =>
      (* the game hasn't been discovered: nothing to undeploy *)
      inr (resolve tt)
  | Some discoveryPath =>
      match getGame env gameMode with
      | None => inl (typeError "getModPaths")
      | Some game =>
          let modPaths := getModPaths game discoveryPath in
          let modTypes := (map_to_list modPaths).*1 in
          let activatorId := activator st !! gameMode in
          let activator :=
            match activatorId with
            | Some aid =>
                List.find (fun act => bool_decide (dm_id act = aid)) activators
            | None =>
                List.find
                  (fun act =>
                     bool_decide
                       (allTypesSupported env act st gameMode modTypes = None))
                  activators
            end in
          match activator with
          | None =>
              inr (reject (newProcessCanceled "No deployment method active"))
          | Some activator =>
              let installationPath := installPathForGame env st gameMode in
              let dataPath := modPaths !! default "" (jsOr (mod_type mod_) (Some "")) in
              inr
                (then_ (external (GetNormalizeFunc dataPath)
                                 (getNormalizeFunc env dataPath))
                   (fun normalize =>
                 then_ (external (LoadActivation (mod_type mod_) dataPath activatorId)
                                 (loadActivation env (mod_type mod_) dataPath
                                                 activatorId))
                   (fun lastActivation =>
                 then_ (external (Prepare (dm_id activator) dataPath)
                                 (prepare activator dataPath false
                                          lastActivation normalize))
                   (fun _ =>
                 then_ (external (Deactivate (dm_id activator) installationPath
                                             dataPath (mod_id mod_))
                                 (deactivate activator installationPath
                                             dataPath mod_))
                   (fun _ =>
                 then_ (external (Finalize (dm_id activator) gameMode dataPath
                                           installationPath)
                                 (finalize activator gameMode dataPath
                                           installationPath))
                   (fun newActivation =>
                  external (SaveActivation (mod_type mod_) (instanceId st) dataPath
                                           (dm_id activator))
                           (saveActivation env (mod_type mod_) (instanceId st)
                                           dataPath newActivation
                                           (dm_id activator))))))))
          end
      end
  end.

(** [getSafe(state, ['persistent', 'mods', gameMode, modId, 'state'], undefined)] *)
Definition modStateOf (gameMode modId : string) : option string :=
  match mods st !! gameMode with
  | Some known => mod_state <$> known !! modId
  | None => None
  end.

(** The profile id read from [lastActiveProfile[gameMode]]. *)
Definition lastActiveProfileId (gameMode : string) : option string :=
  match lastActiveProfile st !! gameMode with
  | Some (LastActiveString lastActive) => Some lastActive
  | Some (LastActiveObject profileId) => Some profileId
  | None => None
  end.

(** [getSafe(profile, ['modState', modId, 'enabled'], false)] for the profile
    [getSafe(state, ['persistent', 'profiles', profileId], undefined)]. *)
Definition enabledIn (profileId : option string) (modId : string) : bool :=
  let profile : option IProfile :=
    match profileId with
    | Some pid => profiles st !! pid
    | None => None
    end in
  match profile with
  | Some profile => default false (modState profile !! modId)
  | None => false
  end.

(** [callback(err)] when a callback was passed, the notification otherwise.
    A callback is an effect that returns normally. *)
Definition report (callback : bool) (err : JsError) (title : string)
           (details : Details) (allowReport : option bool) : M unit :=
  if callback then effect (Callback (Some err))
  else effect (ShowErrorNotification title details allowReport).

Definition onRemoveMod (activators : list IDeploymentMethod)
           (gameMode modId : string) (callback : bool) : Completion * Trace :=
  let modState := modStateOf gameMode modId in
  if negb (isRemovableState modState) then
    (Returned,
     if callback
     then [Callback (Some (newProcessCanceled
                             "Can't delete mod during download or install"))]
     else [])
  else
    let profileId := lastActiveProfileId gameMode in
    let wasEnabled := enabledIn profileId modId in
    let t0 := [Dispatch (SetModEnabled profileId modId false)] in
    let installationPath := installPathForGame env st gameMode in
    match mods st !! gameMode with
    | None =>
        (* the [catch] around [mods[modId]] *)
        let err := typeError modId in
        (Returned,
         t0 ++ [if callback then Callback (Some err)
                else ShowErrorNotification "Failed to remove mod"
                                           (DetailError err) None])
    | Some mods =>
        match mods !! modId with
        | None => (Returned, if callback then t0 ++ [Callback None] else t0)
        | Some mod_ =>
            let undeployed : JsError + M unit :=
              if wasEnabled then undeploy activators gameMode mod_
              else inr (resolve tt) in
            match undeployed with
            | inl thrown => (Threw thrown, t0)
            | inr undeployed =>
                let chain :=
                  catch_
                    (catchClass
                       (catchClass
                          (then_
                             (then_ undeployed (fun _ =>
                                if truthy (Some mod_)
                                then
                                  let dir :=
                                    pathJoin env installationPath
                                             (mod_installationPath mod_) in
                                  catch_
                                    (external (RemoveAsync dir)
                                              (removeAsync env dir))
                                    (fun err =>
                                       if codeIs err "ENOENT" then resolve tt
                                       else reject err)
                                else resolve tt))
                             (fun _ =>
                                then_ (effect (Dispatch (RemoveMod gameMode (mod_id mod_))))
                                      (fun _ =>
                                         if callback then effect (Callback None)
                                         else resolve tt)))
                          TemporaryError
                          (fun err =>
                             report callback err
                                    "Failed to undeploy mod, please try again"
                                    (DetailMessage (e_message err))
                                    (Some false)))
                       ProcessCanceled
                       (fun err =>
                          report callback err "Failed to remove mod"
                                 (DetailMessage (e_message err)) (Some false)))
                    (fun err =>
                       report callback err "Failed to remove mod"
                              (DetailError err) None) in
                (Returned, (chain t0).2)
            end
        end
    end.

(** Modelled from the spec: [util/refreshMods] is not among the sources.
    Section 4.4, "Reconciliation": it "compares the known-mods set (from
    persisted state) against what is physically present in the staging
    directory; mods present on disk but unknown are reported as newly
    discovered; mods known but now missing from disk [...] are reported as
    removed".  [stagingContents] is what is physically present; the two
    callbacks are the ones the handlers below pass in. *)
Definition refreshMods (installPath : string) (knownMods : list string)
           (onAddMod : IMod -> M unit) (onRemoveMods : list string -> M unit)
  : M unit :=
  then_ (external (ReadStaging installPath) (stagingContents env installPath))
        (fun present =>
           let added := filter (fun m => mod_id m ∉ knownMods) present in
           let removed :=
             filter (fun name => name ∉ (mod_id <$> present)) knownMods in
           then_ (mapSeries added onAddMod) (fun _ => onRemoveMods removed)).

(** The second callback of both handlers:
    [modNames.forEach(name => { if (['downloaded', 'installed'].indexOf(
    knownMods[name].state) !== -1) dispatch(removeMod(game, name)) })].
    Reading [.state] of a name that is not known throws. *)
Fixpoint removeMissing (knownMods : option (gmap string IMod)) (game : string)
         (modNames : list string) : M unit :=
  match modNames with
  | [] => resolve tt
  | name :: rest =>
      match knownMods ≫= (fun known => known !! name) with
      | None => reject (typeError "state")
      | Some known =>
          then_ (if isRemovableState (Some (mod_state known))
                 then effect (Dispatch (RemoveMod game name))
                 else resolve tt)
                (fun _ => removeMissing knownMods game rest)
      end
  end.

(** [Object.keys(knownMods)], as far as its members go: the list comes in
    the order of the map, not in the insertion order of the object, and what
    is stated of the handlers does not depend on that order. *)
Definition keys {A} (m : gmap string A) : list string := (map_to_list m).*1.

Definition onPathsChanged (previous current : gmap string string) : Trace :=
  let gameMode := activeGameId env st in
  if bool_decide (previous !! gameMode <> current !! gameMode) then
    let knownMods := mods st !! gameMode in
    (catch_
       (then_ (refreshMods (installPath env st) (keys (default ∅ knownMods))
                           (fun mod_ => effect (Dispatch (AddMod gameMode mod_)))
                           (removeMissing knownMods gameMode))
              (fun _ => resolve tt))
       (fun err => effect (ShowError "Failed to refresh mods" err None))
       []).2
  else [].

Definition methodGone : string -> Details :=
  DetailObject
    ("The deployment method used with this game is no longer available. "
     +:+ "This probably means you removed the corresponding extension or "
     +:+ "it can no longer be loaded due to a bug." +:+ newline
     +:+ "Vortex can't clean up files deployed with an unsupported method. "
     +:+ "You should try to restore it, purge deployment and then switch "
     +:+ "to a different method.").

(** The first half of [onGameModeActivated]: what has been started
    synchronously, and the promise [activatorProm] as it stands when the
    refresh is chained to it. *)
Definition activatorProm (activators : list IDeploymentMethod)
           (newGame : string) (game : IGame) (discoveryPath : string)
  : Trace * M unit :=
  let configuredActivatorId := currentActivator env st in
  let supported := getSupportedActivators env st in
  let byId (l : list IDeploymentMethod) : option IDeploymentMethod :=
    match configuredActivatorId with
    | Some aid => List.find (fun act => bool_decide (dm_id act = aid)) l
    | None => None
    end in
  let configuredActivator := byId supported in
  let instPath := installPath env st in
  (* [fs.statAsync] is started right away; its handlers run later *)
  let started := [StatAsync instPath] in
  let activatorProm : M unit :=
    catch_ (fun t => (statAsync env instPath, t)) (fun err =>
      then_ (external (ShowDialog "Mod Staging Folder missing!")
                      (showDialog env instPath))
            (fun action =>
               if bool_decide (action = "Quit Vortex")
               then then_ (effect (AppExit 0))
                          (fun _ => reject newUserCanceled)
               else
                 let notification := shortid env in
                 then_ (effect (SendNotification notification)) (fun _ =>
                   finally_
                     (then_ (external FallbackPurge (fallbackPurge env))
                            (fun _ =>
                               external (EnsureDirWritableAsync instPath)
                                        (ensureDirWritableAsync env instPath)))
                     (DismissNotification notification)))) in
  match configuredActivator with
  | Some _ => (started, activatorProm)
  | None =>
      let oldActivator := byId activators in
      match configuredActivatorId, oldActivator with
      | Some aid, None =>
          (started ++ [ShowErrorNotification
                         "Deployment method no longer available"
                         (methodGone aid) (Some false)],
           activatorProm)
      | _, _ =>
          let modPaths := getModPaths game discoveryPath in
          let activatorProm :=
            match oldActivator with
            | Some oldActivator =>
                then_ activatorProm (fun _ =>
                  catch_
                    (catchClass
                       (mapSeries (keys modPaths) (fun typeId =>
                          external (Purge (dm_id oldActivator) instPath
                                          (modPaths !! typeId))
                                   (purge oldActivator instPath
                                          (modPaths !! typeId))))
                       TemporaryError
                       (fun err =>
                          effect (ShowErrorNotification
                                    "Purge failed, please try again"
                                    (DetailMessage (e_message err))
                                    (Some false))))
                    (fun err =>
                       effect (ShowErrorNotification "Purge failed"
                                                     (DetailError err) None)))
            | None => activatorProm
            end in
          (started,
           then_ activatorProm (fun _ =>
             match supported with
             | first :: _ =>
                 effect (Dispatch (SetActivator newGame (dm_id first)))
             | [] => resolve tt
             end))
      end
  end.

Definition onGameModeActivated (activators : list IDeploymentMethod)
           (newGame : string) : Trace :=
  let gameId := activeGameId env st in
  let gameDiscovery := discovered st !! gameId in
  let game := getGame env gameId in
  match gameDiscovery ≫= disc_path, game with
  | Some discoveryPath, Some game =>
      let instPath := installPath env st in
      let '(started, activatorProm) :=
        activatorProm activators newGame game discoveryPath in
      let knownMods := default ∅ (mods st !! newGame) in
      (catch_
         (catchClass
            (then_
               (then_ activatorProm (fun _ =>
                  refreshMods instPath (keys knownMods)
                              (fun mod_ => effect (Dispatch (AddMod newGame mod_)))
                              (removeMissing (Some knownMods) newGame)))
               (fun _ => effect (EmitEvent "mods-refreshed")))
            UserCanceled (fun _ => resolve tt))
         (fun err =>
            effect (ShowError "Failed to refresh mods" err
                              (Some (negb (codeIs err "ENOENT")))))
         started).2
  | _, _ => []
  end.

End Handlers.

(** ** The store

    Modelled from the spec: the reducers behind [removeMod], [addMod],
    [setModEnabled] and [setActivator] are not among the sources.  The spec
    treats the state container "as a simple key-value store" from which a
    removed mod is "dropped"; each action updates the one entry it names. *)
Definition reduce (st : IState) (a : Action) : IState :=
  match a with
  | RemoveMod gameId modId =>
      mkState (alter (delete modId) gameId (mods st)) (profiles st)
              (lastActiveProfile st) (discovered st) (activator st)
              (instanceId st)
  | AddMod gameId mod_ =>
      mkState (<[gameId := <[mod_id mod_ := mod_]> (default ∅ (mods st !! gameId))]>
                 (mods st))
              (profiles st) (lastActiveProfile st) (discovered st)
              (activator st) (instanceId st)
  | SetModEnabled (Some profileId) modId enable =>
      mkState (mods st)
              (alter (fun profile => mkProfile (<[modId := enable]> (modState profile)))
                     profileId (profiles st))
              (lastActiveProfile st) (discovered st) (activator st)
              (instanceId st)
  | SetModEnabled None _ _ => st
  | SetActivator gameId activatorId =>
      mkState (mods st) (profiles st) (lastActiveProfile st) (discovered st)
              (<[gameId := activatorId]> (activator st)) (instanceId st)
  end.

Definition dispatched (t : Trace) : list Action :=
  omap (fun ev => match ev with Dispatch a => Some a | _ => None end) t.

(** The store after the actions a handler dispatched. *)
Definition stateAfter (st : IState) (t : Trace) : IState :=
  foldl reduce st (dispatched t).

(** A mod is tracked when the mods table of its game has an entry for it. *)
Definition tracked (st : IState) (gameMode modId : string) : Prop :=
  is_Some (mods st !! gameMode ≫= (fun known => known !! modId)).

(** ** Vocabulary of the properties *)

(** The events of [undeploy]. *)
Definition isUndeployStep (ev : Event) : bool :=
  match ev with
  | GetNormalizeFunc _ | LoadActivation _ _ _ | Prepare _ _
  | Deactivate _ _ _ _ | Finalize _ _ _ _ | SaveActivation _ _ _ _ => true
  | _ => false
  end.

(** The notification that the three [.catch] handlers of [onRemoveMod] choose
    by the class of the error. *)
Definition classify (e : JsError) : Event :=
  match e_cls e with
  | TemporaryError =>
      ShowErrorNotification "Failed to undeploy mod, please try again"
                            (DetailMessage (e_message e)) (Some false)
  | ProcessCanceled =>
      ShowErrorNotification "Failed to remove mod"
                            (DetailMessage (e_message e)) (Some false)
  | _ => ShowErrorNotification "Failed to remove mod" (DetailError e) None
  end.

Definition reportEvent (callback : bool) (e : JsError) : Event :=
  if callback then Callback (Some e) else classify e.

Section RemovalVocabulary.

Context (env : Env) (st : IState) (activators : list IDeploymentMethod)
        (gameMode modId : string) (callback : bool).

Definition disabling : Event :=
  Dispatch (SetModEnabled (lastActiveProfileId st gameMode) modId false).

Definition wasEnabled : bool :=
  enabledIn st (lastActiveProfileId st gameMode) modId.

(** The head of the promise chain: [wasEnabled ? undeploy(...) :
    Promise.resolve()]. *)
Definition firstStep (mod_ : IMod) : JsError + M unit :=
  if wasEnabled then undeploy env st activators gameMode mod_
  else inr (resolve tt).

Definition modDir (mod_ : IMod) : string :=
  pathJoin env (installPathForGame env st gameMode) (mod_installationPath mod_).

(** The deletion step ended well: the directory was removed or was already
    absent. *)
Definition deleted (mod_ : IMod) : bool :=
  match removeAsync env (modDir mod_) with
  | Resolved _ => true
  | Rejected e => codeIs e "ENOENT"
  | Pending => false
  end.

Definition dropping (mod_ : IMod) : list Event :=
  Dispatch (RemoveMod gameMode (mod_id mod_))
  :: (if callback then [Callback None] else []).

(** What follows the events of the first step. *)
Definition afterFirstStep (mod_ : IMod) (first : Promise unit) : list Event :=
  match first with
  | Rejected e => [reportEvent callback e]
  | Pending => []
  | Resolved _ =>
      RemoveAsync (modDir mod_)
      :: match removeAsync env (modDir mod_) with
         | Resolved _ => dropping mod_
         | Rejected e =>
             if codeIs e "ENOENT" then dropping mod_
             else [reportEvent callback e]
         | Pending => []
         end
  end.

(** The trace of a removal whose precondition holds: the disabling, the
    events of [undeploy], and what follows them. *)
Definition followUp (mod_ : IMod) : list Event :=
  match firstStep mod_ with
  | inl _ => []
  | inr u => afterFirstStep mod_ (u [disabling]).1
  end.

(** A step of the removal failed with [e]: [undeploy] was rejected, or the
    deletion was rejected with something other than "not found". *)
Definition failsWith (mod_ : IMod) (first : Promise unit) (e : JsError) : Prop :=
  first = Rejected e
  \/ (first = Resolved tt /\ removeAsync env (modDir mod_) = Rejected e
      /\ codeIs e "ENOENT" = false).

End RemovalVocabulary.

Section RefreshVocabulary.

Context (env : Env) (st : IState).

Definition adding (game : string) (added : list IMod) : list Event :=
  (fun m => Dispatch (AddMod game m)) <$> added.

Definition removing (game : string) (names : list string) : list Event :=
  (fun name => Dispatch (RemoveMod game name)) <$> names.

(** The names among [names] whose mod is in state downloaded or installed. *)
Definition removable (known : gmap string IMod) (names : list string)
  : list string :=
  filter (fun name => isRemovableState (mod_state <$> known !! name) = true) names.

(** What a refresh leaves in the trace when the staging directory can be
    read. *)
Definition refreshed (game : string) (known : gmap string IMod)
           (present : list IMod) : list Event :=
  ReadStaging (installPath env st)
  :: adding game (filter (fun m => mod_id m ∉ keys known) present)
  ++ removing game
       (removable known (filter (fun name => name ∉ (mod_id <$> present))
                                (keys known))).

(** What reconciliation asks of a stretch of trace. *)
Definition reconciled (game : string) (known : gmap string IMod)
           (present : list IMod) (t : list Event) : Prop :=
  (forall m, Dispatch (AddMod game m) ∈ t
             <-> m ∈ present /\ known !! mod_id m = None)
  /\ (forall name, Dispatch (RemoveMod game name) ∈ t
                   <-> exists mod_,
                         known !! name = Some mod_
                         /\ (name ∉ mod_id <$> present)
                         /\ mod_state mod_ ∈ ["downloaded"; "installed"]).

End RefreshVocabulary.

(** ** Sample store and world *)

Definition hardlink (deactivated : Promise unit) : IDeploymentMethod :=
  mkMethod "hardlink" (fun _ _ _ _ => Resolved tt) (fun _ _ _ => deactivated)
           (fun _ _ _ => Resolved ∅) (fun _ _ => Resolved tt).

Definition sampleWorld (deleted : Promise unit) (onDisk : list IMod) : Env :=
  mkEnv (fun _ => Some (mkGame (fun discoveryPath => {[ "" := discoveryPath ]})))
        (fun _ _ => "/staging") (fun _ => "/staging") (fun _ => "skyrim")
        (fun _ => Some "hardlink") (fun _ => [hardlink (Resolved tt)])
        (fun _ _ _ _ => None)
        (fun _ => Resolved (fun p => p)) (fun _ _ _ => Resolved ∅)
        (fun _ _ _ _ _ => Resolved tt)
        (fun _ => deleted) (fun _ => Resolved tt)
        (fun dir name => dir +:+ "/" +:+ name)
        (fun _ => Resolved "Quit Vortex") (Resolved tt) (fun _ => Resolved tt)
        "notification-1" (fun _ => Resolved onDisk) "canceled by user".

Definition modA : IMod := mkMod "A" None "A" "installed".
Definition modB : IMod := mkMod "B" None "B" "downloading".
Definition modC : IMod := mkMod "C" None "C" "installed".
Definition modD : IMod := mkMod "D" None "D" "installed".

Definition sampleStore : IState :=
  mkState {[ "skyrim" := {[ "A" := modA; "B" := modB; "C" := modC ]} ]}
          {[ "profile-1" := mkProfile {[ "A" := true ]} ]}
          {[ "skyrim" := LastActiveString "profile-1" ]}
          {[ "skyrim" := mkDiscovery (Some "/games/skyrim") ]}
          {[ "skyrim" := "hardlink" ]}
          "instance-1".

Definition lockedDir : JsError :=
  mkError TemporaryError "directory is in use" (Some (CodeStr "EBUSY"))
          (Some "/staging/A") None None.

Definition stagingAD : Env := sampleWorld (Resolved tt) [modA; modD].

(** ** Vocabulary of further properties *)

(** The six calls of a complete [undeploy], in the order of the source. *)
Definition undeployed (st : IState) (gameMode : string) (mod_ : IMod)
           (method installationPath : string) (dataPath : option string)
  : list Event :=
  [GetNormalizeFunc dataPath;
   LoadActivation (mod_type mod_) dataPath (activator st !! gameMode);
   Prepare method dataPath;
   Deactivate method installationPath dataPath (mod_id mod_);
   Finalize method gameMode dataPath installationPath;
   SaveActivation (mod_type mod_) (instanceId st) dataPath method].

Definition isCallback (ev : Event) : bool :=
  match ev with Callback _ => true | _ => false end.

Definition isNotification (ev : Event) : bool :=
  match ev with ShowErrorNotification _ _ _ => true | _ => false end.

(** A store whose game uses a deployment method that is not loaded. *)
Definition symlinkStore : IState :=
  mkState (mods sampleStore) (profiles sampleStore)
          (lastActiveProfile sampleStore) (discovered sampleStore)
          {[ "skyrim" := "symlink" ]} "instance-1".

(** A store whose game has not been discovered. *)
Definition undiscoveredStore : IState :=
  mkState (mods sampleStore) (profiles sampleStore)
          (lastActiveProfile sampleStore) ∅ (activator sampleStore)
          "instance-1".

(** A world without a descriptor for the game. *)
Definition unknownGameWorld : Env :=
  mkEnv (fun _ => None)
        (installPathForGame stagingAD) (installPath stagingAD)
        (activeGameId stagingAD) (currentActivator stagingAD)
        (getSupportedActivators stagingAD) (allTypesSupported stagingAD)
        (getNormalizeFunc stagingAD) (loadActivation stagingAD)
        (saveActivation stagingAD) (removeAsync stagingAD) (statAsync stagingAD)
        (pathJoin stagingAD) (showDialog stagingAD) (fallbackPurge stagingAD)
        (ensureDirWritableAsync stagingAD) (shortid stagingAD)
        (stagingContents stagingAD) (userCanceledMessage stagingAD).

Section MoreRemovalVocabulary.

Context (env : Env) (st : IState) (activators : list IDeploymentMethod)
        (gameMode modId : string).

(** The promise chain of a removal came to an end: [undeploy] did not throw
    and neither it nor the deletion is still pending. *)
Definition settles (mod_ : IMod) : bool :=
  match firstStep env st activators gameMode modId mod_ with
  | inl _ => false
  | inr u =>
      match (u [disabling st gameMode modId]).1 with
      | Rejected _ => true
      | Pending => false
      | Resolved _ =>
          match removeAsync env (modDir env st gameMode mod_) with
          | Pending => false
          | _ => true
          end
      end
  end.

(** It came to an end with an error. *)
Definition fails (mod_ : IMod) : bool :=
  match firstStep env st activators gameMode modId mod_ with
  | inl _ => false
  | inr u =>
      match (u [disabling st gameMode modId]).1 with
      | Rejected _ => true
      | Pending => false
      | Resolved _ =>
          match removeAsync env (modDir env st gameMode mod_) with
          | Rejected e => negb (codeIs e "ENOENT")
          | _ => false
          end
      end
  end.

End MoreRemovalVocabulary.

(** The events of a refresh and of what the handlers do with its outcome. *)
Definition isRefresh (ev : Event) : bool :=
  match ev with
  | ReadStaging _ | Dispatch (AddMod _ _) | Dispatch (RemoveMod _ _)
  | EmitEvent _ | ShowError _ _ _ => true
  | _ => false
  end.

(** A computation only adds to the trace, and only events of a refresh. *)
Definition extends {A} (p : M A) : Prop :=
  forall t, exists added,
    (p t).2 = t ++ added /\ Forall (fun ev => isRefresh ev = true) added.

(** How [onGameModeActivated] ends when the chain before the final
    [.catch] handlers is rejected with [e]: [UserCanceled] is dropped,
    anything else is shown, reportable unless its code is ENOENT. *)
Definition refreshFailure (e : JsError) : list Event :=
  if bool_decide (e_cls e = UserCanceled) then []
  else [ShowError "Failed to refresh mods" e (Some (negb (codeIs e "ENOENT")))].

(** The calls that purge the mod types [typeIds] with the method [old]. *)
Definition purging (old : IDeploymentMethod) (instPath : string)
           (modPaths : gmap string string) (typeIds : list string)
  : list Event :=
  (fun typeId => Purge (dm_id old) instPath (modPaths !! typeId)) <$> typeIds.

(** The notification the two [.catch] handlers behind the purge choose. *)
Definition purgeFailure (e : JsError) : Event :=
  if bool_decide (e_cls e = TemporaryError)
  then ShowErrorNotification "Purge failed, please try again"
                             (DetailMessage (e_message e)) (Some false)
  else ShowErrorNotification "Purge failed" (DetailError e) None.

(** The switch to the first supported method, if there is one. *)
Definition selecting (newGame : string) (supported : list IDeploymentMethod)
  : list Event :=
  match supported with
  | first :: _ => [Dispatch (SetActivator newGame (dm_id first))]
  | [] => []
  end.

(** A world for the activation of a game mode: what [stat] of the staging
    folder and the dialog about it answer, the method the game is configured
    for, and what the reinitialisation ends in. *)
Definition activationWorld (staging : Promise unit) (answer : string)
           (configured : option string) (purged : Promise unit) : Env :=
  mkEnv (getGame stagingAD)
        (installPathForGame stagingAD) (installPath stagingAD)
        (activeGameId stagingAD) (fun _ => configured)
        (getSupportedActivators stagingAD) (allTypesSupported stagingAD)
        (getNormalizeFunc stagingAD) (loadActivation stagingAD)
        (saveActivation stagingAD) (removeAsync stagingAD) (fun _ => staging)
        (pathJoin stagingAD) (fun _ => Resolved answer) purged
        (ensureDirWritableAsync stagingAD) (shortid stagingAD)
        (stagingContents stagingAD) (userCanceledMessage stagingAD).

Definition stagingGone : JsError :=
  mkError PlainError "ENOENT: no such file or directory"
          (Some (CodeStr "ENOENT")) (Some "/staging") None None.

(** A method that is loaded but cannot clean up after itself. *)
Definition symlink (purged : Promise unit) : IDeploymentMethod :=
  mkMethod "symlink" (fun _ _ _ _ => Resolved tt) (fun _ _ _ => Resolved tt)
           (fun _ _ _ => Resolved ∅) (fun _ _ => purged).

Definition linksInUse : JsError :=
  mkError TemporaryError "links are in use" None None None None.

(** ** The handlers over the filesystem layer

    The [fs.removeAsync] the handlers call is the [removeAsync] of
    [util/fs].  A handler calls it once, so the filesystem world is read from
    its start; a deletion whose retry loop does not end is a promise that
    stays pending. *)
Definition outcome {A} (run : option (Promise A * Fs.Trace)) : Promise A :=
  match run with
  | Some (r, _) => r
  | None => Pending
  end.

Definition overFs (fsenv : Fs.Env unit) (fuel : nat) (stackErr : string)
           (env : Env) : Env :=
  mkEnv (getGame env) (installPathForGame env) (installPath env)
        (activeGameId env) (currentActivator env) (getSupportedActivators env)
        (allTypesSupported env) (getNormalizeFunc env) (loadActivation env)
        (saveActivation env)
        (fun dir => outcome (Fs.removeAsync fsenv fuel stackErr dir []))
        (statAsync env) (pathJoin env) (showDialog env) (fallbackPurge env)
        (ensureDirWritableAsync env) (shortid env) (stagingContents env)
        (userCanceledMessage env).

End Mods.

(** * Properties of the filesystem layer *)

Module FsSpec.

Import Fs.

Lemma count_app f (t1 t2 : Trace) : count f (t1 ++ t2) = count f t1 + count f t2.
Proof. unfold count. by rewrite List.filter_app, length_app. Qed.

Lemma count_snoc f (t : Trace) ev :
  count f (t ++ [ev]) = count f t + (if f ev then 1 else 0).
Proof. rewrite count_app. unfold count. simpl. by destruct (f ev). Qed.

Lemma count_nil f : count f [] = 0.
Proof. done. Qed.

Lemma count_cons f ev (t : Trace) :
  count f (ev :: t) = (if f ev then 1 else 0) + count f t.
Proof. unfold count. simpl. by destruct (f ev). Qed.

Ltac quiet_trace :=
  rewrite ?count_app, ?count_cons, ?count_nil in *; simpl in *; lia.

Ltac unfold_m :=
  unfold then_, catch_, resolve, reject, emit, showBox, call, stat in *.

Lemma codeIs_true e s : codeIs e s = true <-> e_code e = Some (CodeStr s).
Proof. unfold codeIs. apply bool_decide_eq_true. Qed.

Lemma codeIs_other e s s' :
  e_code e = Some (CodeStr s) -> s <> s' -> codeIs e s' = false.
Proof.
  intros He Hne. unfold codeIs. apply bool_decide_eq_false.
  rewrite He. congruence.
Qed.

Lemma isRetryError_not_ENOENT e : isRetryError e = true -> codeIs e "ENOENT" = false.
Proof.
  unfold isRetryError, codeIs. destruct (e_code e) as [[s|n]|]; try done.
  intros H%bool_decide_eq_true. apply bool_decide_eq_false.
  intros [= ->]. revert H. unfold RETRY_ERRORS.
  rewrite !elem_of_cons, elem_of_nil. intros [?|[?|[?|[]]]]; discriminate.
Qed.

Section Rmdir.

Context (env : Env unit) (dirPath stackErr : string).

Lemma rmdirInt_unfold tries t :
  rmdirInt env dirPath stackErr tries t =
  match underlying env (count isCall t) with
  | Rejected err =>
      if codeIs err "ENOENT" then Some (Resolved tt, t ++ [EvCall])
      else match tries with
           | S tries' =>
               if isRetryError err
               then rmdirInt env dirPath stackErr tries'
                             ((t ++ [EvCall]) ++ [EvDelay RETRY_DELAY_MS])
               else Some (Rejected (restackErr err stackErr), t ++ [EvCall])
           | 0 => Some (Rejected (restackErr err stackErr), t ++ [EvCall])
           end
  | other => Some (other, t ++ [EvCall])
  end.
Proof.
  destruct tries; simpl; unfold_m;
    destruct (underlying env (count isCall t)) as [[]|err|]; try done;
    destruct (codeIs err "ENOENT"); try done.
  by destruct (isRetryError err).
Qed.

(** [k] transient failures in a row with at least [k] tries left: the
    primitive is simply called again after each delay. *)
Lemma rmdirInt_retries k : forall tries t,
  k <= tries ->
  (forall i, i < k -> exists e,
      underlying env (count isCall t + i) = Rejected e /\ isRetryError e = true) ->
  rmdirInt env dirPath stackErr tries t =
  match underlying env (count isCall t + k) with
  | Rejected err =>
      if codeIs err "ENOENT" then Some (Resolved tt, t ++ retries k)
      else if isRetryError err && bool_decide (k < tries)
           then rmdirInt env dirPath stackErr (tries - S k)
                         (t ++ retries k ++ [EvDelay RETRY_DELAY_MS])
           else Some (Rejected (restackErr err stackErr), t ++ retries k)
  | other => Some (other, t ++ retries k)
  end.
Proof.
  induction k as [|k IH]; intros tries t Hle Hfail.
  - rewrite rmdirInt_unfold, Nat.add_0_r. simpl.
    destruct (underlying env (count isCall t)) as [[]|err|]; try done.
    destruct (codeIs err "ENOENT"); [done|].
    destruct tries as [|tries]; simpl.
    + by rewrite andb_false_r.
    + rewrite Nat.sub_0_r. destruct (isRetryError err); simpl; [|done].
      rewrite ?bool_decide_eq_true_2 by lia. by rewrite <- app_assoc.
  - destruct tries as [|tries]; [lia|].
    rewrite rmdirInt_unfold.
    destruct (Hfail 0) as (e & He & Hr); [lia|].
    rewrite Nat.add_0_r in He. rewrite He.
    rewrite (isRetryError_not_ENOENT _ Hr), Hr.
    rewrite IH; [| lia |].
    + rewrite !count_snoc; simpl. rewrite Nat.add_0_r.
      replace (count isCall t + 1 + k) with (count isCall t + S k) by lia.
      rewrite <- !app_assoc. simpl.
      destruct (underlying env (count isCall t + S k)) as [[]|err|]; try done.
      destruct (codeIs err "ENOENT"); [done|].
      rewrite (bool_decide_ext (k < tries) (S k < S tries)) by lia.
      done.
    + intros i Hi. rewrite !count_snoc; simpl. rewrite Nat.add_0_r.
      replace (count isCall t + 1 + i) with (count isCall t + S i) by lia.
      apply Hfail. lia.
Qed.

End Rmdir.

Lemma quiet_count f (t : Trace) :
  (forall ev, quiet ev = true -> f ev = false) ->
  Forall (fun ev => quiet ev = true) t -> count f t = 0.
Proof.
  intros Hf. induction 1 as [|ev t Hev _ IH]; [done|].
  unfold count in *. simpl. by rewrite (Hf _ Hev).
Qed.

Lemma restackErr_idem e s : restackErr (restackErr e s) s = restackErr e s.
Proof. done. Qed.

Section Handler.

Context {V : Type} (env : Env V).

Local Abbreviation handled := (Fs.handled env).
Local Abbreviation firstAnswerCancel := (Fs.firstAnswerCancel env).
Local Abbreviation cancelled := (Fs.cancelled env).

Lemma ipcStep_stops st ev :
  Forall (fun ev => quiet ev = true) (stops st) ->
  Forall (fun ev => quiet ev = true) (stops (ipcStep env st ev)).
Proof.
  intros H. destruct ev; simpl; repeat case_match; simpl; try done;
    apply Forall_app; split; try done; by repeat constructor.
Qed.

Lemma foldl_ipcStep_stops evs : forall st,
  Forall (fun ev => quiet ev = true) (stops st) ->
  Forall (fun ev => quiet ev = true) (stops (foldl (ipcStep env) st evs)).
Proof.
  induction evs as [|ev evs IH]; intros st H; simpl; [done|].
  apply IH. by apply ipcStep_stops.
Qed.

Lemma elevated_run filePath userId t :
  exists r rest,
    elevated env filePath userId t = Some (r, t ++ EvElevated filePath userId :: rest)
    /\ Forall (fun ev => quiet ev = true) rest.
Proof.
  unfold elevated. eexists _, _. split; [reflexivity|].
  apply foldl_ipcStep_stops. constructor.
Qed.

Lemma busyRetry_run filePath t :
  busyRetry env filePath t =
  if dialogDefined env then
    let o := busyOptions filePath (wholocks env filePath) in
    let c := showMessageBox env (count isPrompt t) o in
    Some (if bool_decide (c = 0) then Rejected (newUserCanceled env)
          else Resolved true, t ++ [EvPrompt o c])
  else Some (Resolved false, t).
Proof.
  unfold busyRetry. destruct (dialogDefined env); simpl; unfold_m; [|done].
  by case_bool_decide.
Qed.

Lemma nospcQuery_run t :
  nospcQuery env t =
  if dialogDefined env then
    let c := showMessageBox env (count isPrompt t) nospcOptions in
    Some (if bool_decide (c = 0) then Rejected (newUserCanceled env)
          else Resolved true, t ++ [EvPrompt nospcOptions c])
  else Some (Resolved false, t).
Proof.
  unfold nospcQuery. destruct (dialogDefined env); simpl; unfold_m; [|done].
  by case_bool_decide.
Qed.

Lemma unlockConfirm_run filePath t :
  unlockConfirm env filePath t =
  if dialogDefined env then
    let o := unlockOptions filePath (wholocks env filePath) in
    let c := showMessageBox env (count isPrompt t) o in
    Some (if bool_decide (c = 0) then Rejected (newUserCanceled env)
          else Resolved (bool_decide (c = 2)), t ++ [EvPrompt o c])
  else Some (Resolved false, t).
Proof.
  unfold unlockConfirm. destruct (dialogDefined env); simpl; unfold_m; [|done].
  by case_bool_decide.
Qed.

Lemma errorHandler_handled err stackErr t :
  exists r t', errorHandler env err stackErr t = Some (r, t')
               /\ handled err stackErr t r t'.
Proof.
  unfold errorHandler, errorRepeat.
  destruct (codeIs err "EBUSY"); [|destruct (codeIs err "ENOSPC");
                                   [|destruct (codeIs err "EPERM") eqn:Hperm]].
  - unfold then_ at 1, catch_ at 1. rewrite busyRetry_run.
    destruct (dialogDefined env); simpl;
      [|unfold_m; eexists _, _; split; [reflexivity|];
       rewrite ?restackErr_idem; apply handled_unasked].
    case_bool_decide as Hc; unfold_m; eexists _, _; (split; [reflexivity|]).
    + rewrite Hc. by apply handled_cancel.
    + by apply handled_repeat.
  - unfold then_ at 1, catch_ at 1. rewrite nospcQuery_run.
    destruct (dialogDefined env); simpl;
      [|unfold_m; eexists _, _; split; [reflexivity|];
       rewrite ?restackErr_idem; apply handled_unasked].
    case_bool_decide as Hc; unfold_m; eexists _, _; (split; [reflexivity|]).
    + rewrite Hc. by apply handled_cancel.
    + by apply handled_repeat.
  - unfold then_ at 1 2, catch_ at 1. rewrite unlockConfirm_run.
    destruct (dialogDefined env) eqn:Hd; simpl;
      [|unfold_m; eexists _, _; split; [reflexivity|];
       by apply handled_blind].
    case_bool_decide as Hc.
    { eexists _, _; split; [reflexivity|]. rewrite Hc. by apply handled_cancel. }
    case_bool_decide as Hc2; simpl.
    + unfold catch_, then_ at 1.
      match goal with
      | |- context [elevated env ?fp ?uid ?t'] =>
          destruct (elevated_run fp uid t') as (r & rest & -> & Hq)
      end.
      rewrite Hc2. rewrite <- !app_assoc. simpl.
      destruct r as [[]|e|]; unfold_m; eexists _, _; (split; [reflexivity|]).
      * apply handled_repeat; [done|done|]. by constructor.
      * rewrite <- !app_assoc. simpl.
        apply handled_elevation_failed; [done|].
        constructor; [done|]. apply Forall_app. split; [done|].
        by repeat constructor.
      * apply handled_elevation_pending; [done|]. by constructor.
    + unfold_m. eexists _, _; split; [reflexivity|]. by apply handled_repeat.
  - unfold_m. eexists _, _; split; [reflexivity|]. rewrite restackErr_idem.
    apply handled_unasked.
Qed.

Lemma errorHandler_first_cancel err stackErr t :
  dialogDefined env = true -> firstAnswerCancel -> count isPrompt t = 0 ->
  exists e t', errorHandler env err stackErr t = Some (Rejected e, t') /\
    ((e = restackErr err stackErr /\ t' = t) \/
     (e = restackErr (newUserCanceled env) stackErr /\
      exists o, t' = t ++ [EvPrompt o 0])).
Proof.
  intros Hd Hc Ht.
  destruct (errorHandler_handled err stackErr t) as (r & t' & -> & Hh).
  destruct Hh as [|Hd' _|o _|o c rest Ho Hne _|o rest Ho _|o rest Ho _];
    try (rewrite Ht, Hc in Ho); try congruence; try lia.
  - eexists _, _. split; [done|]. by left.
  - eexists _, _. split; [done|]. right. eauto.
Qed.

Lemma cancelled_quiet {A} stackErr (r : Promise A) t :
  count isPrompt t = 0 -> cancelled stackErr (Some (r, t)).
Proof. intros. exists r, t. eauto. Qed.

Lemma cancelled_then {A} stackErr err t (k : unit -> M A) :
  dialogDefined env = true -> firstAnswerCancel -> count isPrompt t = 0 ->
  cancelled stackErr (then_ (errorHandler env err stackErr) k t).
Proof.
  intros Hd Hc Ht. unfold then_.
  destruct (errorHandler_first_cancel err stackErr t Hd Hc Ht)
    as (e & t' & -> & [[-> ->]|[-> [o ->]]]).
  - by apply cancelled_quiet.
  - eexists _, _. split; [done|]. right. eauto.
Qed.

Lemma wrapper_first_cancel fuel stackErr :
  dialogDefined env = true -> firstAnswerCancel ->
  cancelled stackErr (genWrapperAsync env (S fuel) stackErr []).
Proof.
  intros Hd Hc. unfold genWrapperAsync. simpl. unfold catch_ at 1, call. simpl.
  destruct (underlying env _) as [v|err|]; try by apply cancelled_quiet.
  by apply cancelled_then.
Qed.

Lemma cancelled_restack {A} stackErr (p : M A) t :
  cancelled stackErr (p t) ->
  cancelled stackErr (catch_ p (fun err => reject (restackErr err stackErr)) t).
Proof.
  intros (r & t' & Hp & H). unfold catch_. rewrite Hp.
  destruct r as [a|e|]; try (eexists _, _; split; [done|]; exact H).
  unfold reject. eexists _, _. split; [done|].
  destruct H as [H|(pre & o & -> & Hpre & [= ->])]; [by left|].
  right. exists pre, o. by rewrite restackErr_idem.
Qed.

End Handler.

Section OperationsCancel.

Context (env : Env unit) (stackErr : string).
Hypothesis Hdialog : dialogDefined env = true.
Hypothesis Hcancel : firstAnswerCancel env.

Lemma copyInt_first_cancel fuel src dest options t :
  count isPrompt t = 0 ->
  cancelled env stackErr (copyInt env (S fuel) src dest options stackErr t).
Proof.
  intros Ht. simpl. unfold catch_ at 1, call.
  destruct (underlying env _) as [v|err|];
    try (apply cancelled_quiet; quiet_trace).
  apply cancelled_then; [done|done|quiet_trace].
Qed.

Lemma copyAsync_first_cancel fuel src dest options :
  cancelled env stackErr (copyAsync env (S fuel) stackErr src dest options []).
Proof.
  unfold copyAsync. apply cancelled_restack. unfold then_ at 1.
  destruct (skipSelfCopyCheck options).
  - unfold resolve. by apply copyInt_first_cancel.
  - unfold selfCopyCheck.
    destruct (statAsync env src) as [s0|e0|];
      destruct (statAsync env dest) as [s1|e1|]; simpl;
      repeat case_match; simplify_eq;
      try (by apply cancelled_quiet);
      by apply copyInt_first_cancel.
Qed.

Lemma removeAsync_first_cancel fuel dirPath :
  cancelled env stackErr (removeAsync env (S fuel) stackErr dirPath []).
Proof.
  unfold removeAsync. simpl. unfold catch_ at 1, call.
  destruct (underlying env _) as [v|err|]; try by apply cancelled_quiet.
  destruct (codeIs err "ENOENT"); [by apply cancelled_quiet|].
  by apply cancelled_then.
Qed.

Lemma unlinkAsync_first_cancel fuel dirPath :
  cancelled env stackErr (unlinkAsync env (S fuel) stackErr dirPath []).
Proof.
  unfold unlinkAsync. simpl. unfold catch_ at 1, call.
  destruct (underlying env _) as [v|err|]; try by apply cancelled_quiet.
  destruct (codeIs err "ENOENT"); [by apply cancelled_quiet|].
  by apply cancelled_then.
Qed.

Lemma renameAsync_first_cancel fuel sourcePath destinationPath :
  cancelled env stackErr
            (renameAsync env (S fuel) stackErr sourcePath destinationPath []).
Proof.
  unfold renameAsync. simpl. unfold catch_ at 1, call.
  destruct (underlying env _) as [v|err|]; try by apply cancelled_quiet.
  destruct (codeIs err "EPERM"); [|by apply cancelled_then].
  apply cancelled_restack. unfold then_ at 1, stat.
  destruct (statAsync env destinationPath) as [st|e|];
    try by apply cancelled_quiet.
  destruct (isDirectory st); [by apply cancelled_quiet|].
  by apply cancelled_then.
Qed.

Lemma rmdirInt_no_prompt dirPath tries : forall t,
  exists r t', rmdirInt env dirPath stackErr tries t = Some (r, t') /\
               count isPrompt t' = count isPrompt t.
Proof.
  induction tries as [|tries IH]; intros t;
    rewrite rmdirInt_unfold;
    destruct (underlying env _) as [v|err|];
    try (eexists _, _; split; [done|quiet_trace]);
    destruct (codeIs err "ENOENT");
    try (eexists _, _; split; [done|quiet_trace]).
  destruct (isRetryError err);
    try (eexists _, _; split; [done|quiet_trace]).
  destruct (IH ((t ++ [EvCall]) ++ [EvDelay RETRY_DELAY_MS]))
    as (r & t' & -> & Hc).
  eexists _, _; split; [done|]. rewrite Hc. quiet_trace.
Qed.

Lemma rmdirAsync_first_cancel dirPath :
  cancelled env stackErr (rmdirAsync env stackErr dirPath []).
Proof.
  unfold rmdirAsync.
  destruct (rmdirInt_no_prompt dirPath NUM_RETRIES []) as (r & t & -> & Hc).
  by apply cancelled_quiet.
Qed.

End OperationsCancel.

Lemma recoverable_not_ENOENT e : recoverable e = true -> codeIs e "ENOENT" = false.
Proof.
  unfold recoverable, codeIs. intros H. apply bool_decide_eq_false. intros He.
  rewrite He in H. by vm_compute in H.
Qed.

Section Retry.

Context {V : Type} (env : Env V) (stackErr : string).
Hypothesis Hdialog : dialogDefined env = true.

Local Abbreviation failsThenSucceeds := (Fs.failsThenSucceeds env).
Local Abbreviation converges := (@Fs.converges V).

Lemma errorHandler_retry err t :
  recoverable err = true ->
  (forall o, showMessageBox env (count isPrompt t) o = 1) ->
  exists o, errorHandler env err stackErr t = Some (Resolved tt, t ++ [EvPrompt o 1]).
Proof.
  intros Hr Hans. unfold recoverable in Hr.
  unfold errorHandler, errorRepeat.
  destruct (codeIs err "EBUSY"); [|destruct (codeIs err "ENOSPC");
                                   [|destruct (codeIs err "EPERM"); [|done]]].
  - unfold then_ at 1, catch_ at 1. rewrite busyRetry_run, Hdialog. simpl.
    rewrite Hans. simpl. eauto.
  - unfold then_ at 1, catch_ at 1. rewrite nospcQuery_run, Hdialog. simpl.
    rewrite Hans. simpl. eauto.
  - unfold then_ at 1 2, catch_ at 1. rewrite unlockConfirm_run, Hdialog. simpl.
    rewrite Hans. simpl. eauto.
Qed.

Lemma failsThenSucceeds_step ok n v t t1 :
  count isCall t1 = count isCall t + 1 ->
  count isPrompt t1 = count isPrompt t + 1 ->
  failsThenSucceeds ok (S n) v t ->
  failsThenSucceeds ok n v t1.
Proof.
  intros Hc Hp (Hfail & Hok & Hans). repeat split.
  - intros i Hi. destruct (Hfail (S i)) as (e' & He' & Hr'); [lia|].
    exists e'. split; [|done]. rewrite <- He'. f_equal. lia.
  - rewrite <- Hok. f_equal. lia.
  - intros i o' Hi. rewrite <- (Hans (S i) o') by lia. f_equal. lia.
Qed.

Lemma failsThenSucceeds_same ok n v t t1 :
  count isCall t1 = count isCall t ->
  count isPrompt t1 = count isPrompt t ->
  failsThenSucceeds ok n v t ->
  failsThenSucceeds ok n v t1.
Proof.
  intros Hc Hp (Hfail & Hok & Hans). unfold failsThenSucceeds.
  rewrite Hc, Hp. done.
Qed.

Lemma converges_step n v t t1 out :
  count isCall t1 = count isCall t + 1 ->
  count isPrompt t1 = count isPrompt t + 1 ->
  converges n v t1 out ->
  converges (S n) v t out.
Proof.
  intros Hc Hp (t' & -> & Hp' & Hc'). exists t'. split; [done|]. lia.
Qed.

Lemma converges_same n v t t1 out :
  count isCall t1 = count isCall t ->
  count isPrompt t1 = count isPrompt t ->
  converges n v t1 out ->
  converges n v t out.
Proof.
  intros Hc Hp (t' & -> & Hp' & Hc'). exists t'. split; [done|]. lia.
Qed.

Lemma failsThenSucceeds_now ok v t :
  failsThenSucceeds ok 0 v t -> underlying env (count isCall t) = Resolved v.
Proof. intros (_ & Hok & _). by rewrite Nat.add_0_r in Hok. Qed.

Lemma failsThenSucceeds_first ok n v t :
  failsThenSucceeds ok (S n) v t ->
  exists e, underlying env (count isCall t) = Rejected e /\ ok e = true
            /\ forall o, showMessageBox env (count isPrompt t) o = 1.
Proof.
  intros (Hfail & _ & Hans). destruct (Hfail 0) as (e & He & Hr); [lia|].
  rewrite Nat.add_0_r in He. exists e. repeat split; try done.
  intros o. rewrite <- (Hans 0 o) by lia. f_equal. lia.
Qed.

(** One round of a retry loop: the primitive fails, the handler asks, the
    user answers "Retry". *)
Lemma retry_round ok n v t e (k : unit -> M V) :
  recoverable e = true ->
  failsThenSucceeds ok (S n) v t ->
  (forall o, showMessageBox env (count isPrompt t) o = 1) ->
  (forall t1, count isCall t1 = count isCall t + 1 ->
              count isPrompt t1 = count isPrompt t + 1 ->
              failsThenSucceeds ok n v t1 -> converges n v t1 (k tt t1)) ->
  converges (S n) v t (then_ (errorHandler env e stackErr) k (t ++ [EvCall])).
Proof.
  intros Hr Hpre Hans Hk. unfold then_.
  destruct (errorHandler_retry e (t ++ [EvCall]) Hr) as (o & ->).
  { intros o. rewrite <- (Hans o). f_equal. quiet_trace. }
  assert (count isCall ((t ++ [EvCall]) ++ [EvPrompt o 1]) = count isCall t + 1)
    as Hc by quiet_trace.
  assert (count isPrompt ((t ++ [EvCall]) ++ [EvPrompt o 1]) = count isPrompt t + 1)
    as Hp by quiet_trace.
  eapply converges_step; [exact Hc|exact Hp|].
  apply Hk; [done|done|]. by eapply failsThenSucceeds_step.
Qed.

Lemma converges_now v t :
  converges 0 v t (Some (Resolved v, t ++ [EvCall])).
Proof. eexists. split; [done|]. quiet_trace. Qed.

Lemma wrapper_retries n : forall fuel v t,
  n < fuel -> failsThenSucceeds recoverable n v t ->
  converges n v t (wrapper env fuel stackErr t).
Proof.
  induction n as [|n IH]; intros [|fuel] v t Hfuel Hpre; try lia;
    simpl; unfold catch_ at 1, call.
  - rewrite (failsThenSucceeds_now _ _ _ Hpre). apply converges_now.
  - destruct (failsThenSucceeds_first _ _ _ _ Hpre) as (e & -> & Hr & Hans).
    eapply retry_round; try done. intros t1 _ _ H1. apply IH; [lia|done].
Qed.

End Retry.

Section OperationsRetry.

Context (env : Env unit) (stackErr : string).
Hypothesis Hdialog : dialogDefined env = true.

Local Abbreviation renameRecoverable := (Fs.renameRecoverable env).

Lemma copyInt_retries src dest options n : forall fuel t,
  n < fuel -> failsThenSucceeds env recoverable n tt t ->
  converges n tt t (copyInt env fuel src dest options stackErr t).
Proof.
  induction n as [|n IH]; intros [|fuel] t Hfuel Hpre; try lia;
    simpl; unfold catch_ at 1, call.
  - rewrite (failsThenSucceeds_now _ _ _ _ Hpre). apply converges_now.
  - destruct (failsThenSucceeds_first _ _ _ _ _ Hpre) as (e & -> & Hr & Hans).
    eapply retry_round; try done. intros t1 _ _ H1. apply IH; [lia|done].
Qed.

Lemma removeInt_retries dirPath n : forall fuel t,
  n < fuel -> failsThenSucceeds env recoverable n tt t ->
  converges n tt t (removeInt env fuel dirPath stackErr t).
Proof.
  induction n as [|n IH]; intros [|fuel] t Hfuel Hpre; try lia;
    simpl; unfold catch_ at 1, call.
  - rewrite (failsThenSucceeds_now _ _ _ _ Hpre). apply converges_now.
  - destruct (failsThenSucceeds_first _ _ _ _ _ Hpre) as (e & -> & Hr & Hans).
    rewrite (recoverable_not_ENOENT _ Hr).
    eapply retry_round; try done. intros t1 _ _ H1. apply IH; [lia|done].
Qed.

Lemma unlinkInt_retries dirPath n : forall fuel t,
  n < fuel -> failsThenSucceeds env recoverable n tt t ->
  converges n tt t (unlinkInt env fuel dirPath stackErr t).
Proof.
  induction n as [|n IH]; intros [|fuel] t Hfuel Hpre; try lia;
    simpl; unfold catch_ at 1, call.
  - rewrite (failsThenSucceeds_now _ _ _ _ Hpre). apply converges_now.
  - destruct (failsThenSucceeds_first _ _ _ _ _ Hpre) as (e & -> & Hr & Hans).
    rewrite (recoverable_not_ENOENT _ Hr).
    eapply retry_round; try done. intros t1 _ _ H1. apply IH; [lia|done].
Qed.

Lemma renameInt_retries sourcePath destinationPath n : forall fuel t,
  n < fuel ->
  failsThenSucceeds env (renameRecoverable destinationPath) n tt t ->
  converges n tt t
            (renameInt env fuel sourcePath destinationPath stackErr t).
Proof.
  induction n as [|n IH]; intros [|fuel] t Hfuel Hpre; try lia;
    simpl; unfold catch_ at 1, call.
  - rewrite (failsThenSucceeds_now _ _ _ _ Hpre). apply converges_now.
  - destruct (failsThenSucceeds_first _ _ _ _ _ Hpre) as (e & -> & Hr & Hans).
    unfold renameRecoverable in Hr.
    destruct (codeIs e "EPERM") eqn:Hperm.
    + unfold catch_ at 1, then_ at 1, stat.
      destruct (statAsync env destinationPath) as [st| |]; try done.
      destruct (isDirectory st); [done|].
      assert (recoverable e = true) as Hr'.
      { unfold recoverable. rewrite Hperm. by rewrite orb_true_r. }
      unfold then_.
      destruct (errorHandler_retry env stackErr Hdialog e
                  ((t ++ [EvCall]) ++ [EvStat destinationPath]) Hr')
        as (o & ->).
      { intros o. rewrite <- (Hans o). f_equal. quiet_trace. }
      set (t1 := ((t ++ [EvCall]) ++ [EvStat destinationPath]) ++ [EvPrompt o 1]).
      assert (count isCall t1 = count isCall t + 1) as Hc
          by (unfold t1; quiet_trace).
      assert (count isPrompt t1 = count isPrompt t + 1) as Hp
          by (unfold t1; quiet_trace).
      destruct (IH fuel t1) as (t' & -> & Hp' & Hc'); [lia| |].
      { by eapply failsThenSucceeds_step. }
      eexists. split; [done|]. lia.
    + assert (recoverable e = true) as Hr'.
      { unfold recoverable. by rewrite Hr. }
      eapply retry_round; try done. intros t1 _ _ H1. apply IH; [lia|done].
Qed.

(** [copyAsync] runs the loop after the identity check, which touches
    neither the primitive nor the dialog. *)
Lemma copyAsync_retries src dest options n fuel checked :
  n < fuel ->
  (if skipSelfCopyCheck options then checked = []
   else selfCopyCheck env src dest [] = Some (Resolved tt, checked)) ->
  failsThenSucceeds env recoverable n tt [] ->
  converges n tt [] (copyAsync env fuel stackErr src dest options []).
Proof.
  intros Hfuel Hcheck Hpre. unfold copyAsync.
  assert (count isCall checked = 0 /\ count isPrompt checked = 0) as [Hc Hp].
  { destruct (skipSelfCopyCheck options); [by subst|].
    unfold selfCopyCheck in Hcheck. simpl in Hcheck.
    repeat case_match; by simplify_eq. }
  assert (converges n tt checked
            (copyInt env fuel src dest options stackErr checked)) as Hloop.
  { apply copyInt_retries; [done|].
    eapply failsThenSucceeds_same; [| |exact Hpre]; [by rewrite Hc|by rewrite Hp]. }
  apply (converges_same _ _ _ checked); [by rewrite Hc|by rewrite Hp|].
  destruct Hloop as (t' & Hrun & Hrest).
  exists t'. split; [|done]. unfold catch_, then_.
  destruct (skipSelfCopyCheck options).
  - subst. unfold resolve. by rewrite Hrun.
  - by rewrite Hcheck, Hrun.
Qed.

End OperationsRetry.

(** ** A recoverable failure answered with "Cancel" *)

Section CancelAsked.

Context {V : Type} (env : Env V) (stackErr : string).
Hypothesis Hdialog : dialogDefined env = true.
Hypothesis Hcancel : firstAnswerCancel env.

Lemma errorHandler_cancel_asked err t :
  recoverable err = true -> count isPrompt t = 0 ->
  exists o, errorHandler env err stackErr t
            = Some (Rejected (restackErr (newUserCanceled env) stackErr),
                    t ++ [EvPrompt o 0]).
Proof.
  intros Hr Ht. unfold recoverable in Hr.
  unfold errorHandler, errorRepeat.
  destruct (codeIs err "EBUSY"); [|destruct (codeIs err "ENOSPC");
                                   [|destruct (codeIs err "EPERM"); [|done]]].
  - unfold then_ at 1, catch_ at 1. rewrite busyRetry_run, Hdialog. simpl.
    rewrite Ht, Hcancel. simpl. eauto.
  - unfold then_ at 1, catch_ at 1. rewrite nospcQuery_run, Hdialog. simpl.
    rewrite Ht, Hcancel. simpl. eauto.
  - unfold then_ at 1 2, catch_ at 1. rewrite unlockConfirm_run, Hdialog. simpl.
    rewrite Ht, Hcancel. simpl. eauto.
Qed.

Lemma then_cancel_asked {A} err t (k : unit -> M A) :
  recoverable err = true -> count isPrompt t = 0 ->
  exists o, then_ (errorHandler env err stackErr) k t
            = Some (Rejected (restackErr (newUserCanceled env) stackErr),
                    t ++ [EvPrompt o 0]).
Proof.
  intros Hr Ht. unfold then_.
  destruct (errorHandler_cancel_asked err t Hr Ht) as (o & ->). eauto.
Qed.

Lemma wrapper_cancel_asked fuel err :
  underlying env 0 = Rejected err -> recoverable err = true ->
  exists o, genWrapperAsync env (S fuel) stackErr []
            = Some (Rejected (restackErr (newUserCanceled env) stackErr),
                    [EvCall; EvPrompt o 0]).
Proof.
  intros Hcall Hr. unfold genWrapperAsync. simpl. unfold catch_ at 1, call.
  change (count isCall []) with 0. rewrite Hcall.
  by apply (then_cancel_asked err [EvCall]).
Qed.

End CancelAsked.

Section OperationsCancelAsked.

Context (env : Env unit) (stackErr : string).
Hypothesis Hdialog : dialogDefined env = true.
Hypothesis Hcancel : firstAnswerCancel env.

Local Abbreviation canceled :=
  (Rejected (restackErr (newUserCanceled env) stackErr) : Promise unit).

Lemma removeAsync_cancel_asked fuel dirPath err :
  underlying env 0 = Rejected err -> recoverable err = true ->
  exists o, removeAsync env (S fuel) stackErr dirPath []
            = Some (canceled, [EvCall; EvPrompt o 0]).
Proof.
  intros Hcall Hr. unfold removeAsync. simpl. unfold catch_ at 1, call.
  change (count isCall []) with 0.
  rewrite Hcall, (recoverable_not_ENOENT _ Hr).
  by apply (then_cancel_asked env stackErr Hdialog Hcancel err [EvCall]).
Qed.

Lemma unlinkAsync_cancel_asked fuel dirPath err :
  underlying env 0 = Rejected err -> recoverable err = true ->
  exists o, unlinkAsync env (S fuel) stackErr dirPath []
            = Some (canceled, [EvCall; EvPrompt o 0]).
Proof.
  intros Hcall Hr. unfold unlinkAsync. simpl. unfold catch_ at 1, call.
  change (count isCall []) with 0.
  rewrite Hcall, (recoverable_not_ENOENT _ Hr).
  by apply (then_cancel_asked env stackErr Hdialog Hcancel err [EvCall]).
Qed.

Lemma copyAsync_cancel_asked fuel src dest options checked err :
  underlying env 0 = Rejected err -> recoverable err = true ->
  (if skipSelfCopyCheck options then checked = []
   else selfCopyCheck env src dest [] = Some (Resolved tt, checked)) ->
  exists o, copyAsync env (S fuel) stackErr src dest options []
            = Some (canceled, checked ++ [EvCall; EvPrompt o 0]).
Proof.
  intros Hcall Hr Hcheck. unfold copyAsync.
  assert (count isCall checked = 0 /\ count isPrompt checked = 0) as [Hc Hp].
  { destruct (skipSelfCopyCheck options); [by subst|].
    unfold selfCopyCheck in Hcheck. simpl in Hcheck.
    repeat case_match; by simplify_eq. }
  destruct (then_cancel_asked env stackErr Hdialog Hcancel err (checked ++ [EvCall])
              (fun _ => copyInt env fuel src dest options stackErr) Hr)
    as (o & Hrun); [quiet_trace|].
  exists o. unfold catch_ at 1, then_ at 1.
  assert ((if skipSelfCopyCheck options then resolve tt
           else selfCopyCheck env src dest) [] = Some (Resolved tt, checked))
    as ->.
  { destruct (skipSelfCopyCheck options); [by subst|done]. }
  simpl. unfold catch_ at 1, call. rewrite Hc, Hcall, Hrun.
  unfold reject. by rewrite restackErr_idem, <- app_assoc.
Qed.

Lemma renameAsync_cancel_asked fuel src dest err :
  underlying env 0 = Rejected err ->
  renameRecoverable env dest err = true ->
  exists o, renameAsync env (S fuel) stackErr src dest []
            = Some (canceled,
                    [EvCall] ++ (if codeIs err "EPERM" then [EvStat dest] else [])
                    ++ [EvPrompt o 0]).
Proof.
  intros Hcall Hr. unfold renameAsync. simpl. unfold catch_ at 1, call.
  change (count isCall []) with 0. rewrite Hcall.
  unfold renameRecoverable in Hr.
  destruct (codeIs err "EPERM") eqn:Hperm.
  - unfold catch_ at 1, then_ at 1, stat.
    destruct (statAsync env dest) as [st| |]; try done.
    destruct (isDirectory st); [done|].
    change (([] ++ [EvCall]) ++ [EvStat dest]) with [EvCall; EvStat dest].
    destruct (then_cancel_asked env stackErr Hdialog Hcancel err
                [EvCall; EvStat dest]
                (fun _ => renameInt env fuel src dest stackErr))
      as (o & ->); [|done|].
    { unfold recoverable. by rewrite Hperm, orb_true_r. }
    exists o. unfold reject. by rewrite restackErr_idem.
  - apply (then_cancel_asked env stackErr Hdialog Hcancel err [EvCall]); [|done].
    unfold recoverable. by rewrite Hr.
Qed.

End OperationsCancelAsked.

(** ** What the handler leaves alone *)

Section Frame.

Context {V : Type} (env : Env V).

Lemma foreign_isCall : foreign isCall.
Proof. split; [done|]. by intros []. Qed.

Lemma foreign_isStat : foreign isStat.
Proof. split; [done|]. by intros []. Qed.

Lemma handled_count f err stackErr t r t' :
  foreign f -> handled env err stackErr t r t' -> count f t' = count f t.
Proof.
  intros [Hp Hq] Hh.
  destruct Hh; rewrite ?count_app, ?count_cons, ?count_nil, ?Hp;
    rewrite ?(quiet_count f rest) by done; lia.
Qed.

Lemma handled_rejected err stackErr t e t' :
  handled env err stackErr t (Rejected e) t' ->
  e = restackErr err stackErr \/ e = restackErr (newUserCanceled env) stackErr.
Proof. inversion 1; subst; eauto. Qed.

End Frame.

Section Deletion.

Context (env : Env unit) (stackErr dirPath : string).

Lemma surfaces_handler err t (k : unit -> M unit) :
  codeIs err "ENOENT" = false ->
  (forall t1, surfaces (k tt t1)) ->
  surfaces (then_ (errorHandler env err stackErr) k t).
Proof.
  intros Herr Hk e t' Hrun. unfold then_ in Hrun.
  destruct (errorHandler_handled env err stackErr t) as (r & t1 & Heq & Hh).
  rewrite Heq in Hrun. destruct r as [[]|e1|]; simplify_eq.
  - by eapply Hk.
  - destruct (handled_rejected _ _ _ _ _ _ Hh) as [->| ->]; [|done].
    exact Herr.
Qed.

Lemma removeInt_surfaces fuel : forall t,
  surfaces (removeInt env fuel dirPath stackErr t).
Proof.
  induction fuel as [|fuel IH]; intros t; [by intros ???|].
  simpl. unfold catch_ at 1, call.
  destruct (underlying env _) as [[]|err|]; try by intros ?? [=].
  destruct (codeIs err "ENOENT") eqn:Hc; [by intros ?? [=]|].
  by apply surfaces_handler.
Qed.

Lemma unlinkInt_surfaces fuel : forall t,
  surfaces (unlinkInt env fuel dirPath stackErr t).
Proof.
  induction fuel as [|fuel IH]; intros t; [by intros ???|].
  simpl. unfold catch_ at 1, call.
  destruct (underlying env _) as [[]|err|]; try by intros ?? [=].
  destruct (codeIs err "ENOENT") eqn:Hc; [by intros ?? [=]|].
  by apply surfaces_handler.
Qed.

Lemma rmdirInt_surfaces tries : forall t,
  surfaces (rmdirInt env dirPath stackErr tries t).
Proof.
  induction tries as [|tries IH]; intros t; rewrite rmdirInt_unfold;
    destruct (underlying env _) as [[]|err|]; try (by intros ?? [=]);
    destruct (codeIs err "ENOENT") eqn:Hc; try (by intros ?? [=]).
  - intros ?? [= <- <-]. exact Hc.
  - destruct (isRetryError err); [apply IH|].
    intros ?? [= <- <-]. exact Hc.
Qed.

End Deletion.

(** ** The filesystem layer against its specification *)



(** Whatever else the world does: a permission error, "Give permission",
    and an elevation that fails first because the privilege prompt was
    declined end in the permission error, although [elevated] itself was
    rejected with [UserCanceled]. *)
Lemma errorHandler_declined_elevation {V} (env : Env V) err stackErr t denied rest :
  dialogDefined env = true ->
  e_code err = Some (CodeStr "EPERM") ->
  (forall o, showMessageBox env (count isPrompt t) o = 2) ->
  e_code denied = Some (CodeNum 5) ->
  ipcEvents env (count isElevated t) = RunElevatedFailed denied :: rest ->
  exists t',
    errorHandler env err stackErr t = Some (Rejected (restackErr err stackErr), t')
    /\ forall filePath userId t0,
        count isElevated t0 = count isElevated t ->
        fst <$> elevated env filePath userId t0
        = Some (Rejected (newUserCanceled env)).
Proof.
  intros Hd Hcode Hans Hdenied Hipc.
  assert (forall st evs, settled st = Some (Rejected (newUserCanceled env)) ->
            settled (foldl (ipcStep env) st evs)
            = Some (Rejected (newUserCanceled env))) as Hkeep.
  { intros st evs. revert st. induction evs as [|ev evs IH]; intros st Hst; [done|].
    simpl. apply IH. destruct ev; simpl; repeat case_match; simpl;
      by rewrite ?Hst. }
  assert (forall filePath userId t0,
            count isElevated t0 = count isElevated t ->
            fst <$> elevated env filePath userId t0
            = Some (Rejected (newUserCanceled env))) as Helev.
  { intros filePath userId t0 Ht0. unfold elevated. rewrite Ht0, Hipc. simpl.
    rewrite bool_decide_eq_true_2 by done. by rewrite Hkeep. }
  set (filePath := jsOr (e_dest err) (e_path err)).
  set (asked := t ++ [EvPrompt (unlockOptions filePath (wholocks env filePath)) 2]).
  assert (count isElevated asked = count isElevated t) as Hasked.
  { unfold asked. rewrite count_snoc. simpl. lia. }
  pose proof (Helev filePath (getUserId env) asked Hasked) as Hrun.
  destruct (elevated env filePath (getUserId env) asked) as [[r t1]|] eqn:Helevated;
    [|done].
  injection Hrun as ->.
  exists (t1 ++ [EvLog "error" "failed to acquire permission" filePath
                       (e_message (newUserCanceled env))]).
  split; [|exact Helev].
  unfold errorHandler, errorRepeat.
  rewrite (codeIs_other err "EPERM" "EBUSY"), (codeIs_other err "EPERM" "ENOSPC")
    by done.
  rewrite (proj2 (codeIs_true err "EPERM") Hcode).
  unfold then_ at 1 2, catch_ at 1. rewrite unlockConfirm_run, Hd. simpl.
  rewrite Hans. simpl. unfold catch_, then_ at 1.
  fold filePath. fold asked. rewrite Helevated.
  unfold_m. reflexivity.
Qed.

(** C2 at the failing input: the primitive fails with EPERM, the user
    presses "Give permission" and then declines the privilege prompt.
    [elevated] does reject with [UserCanceled], but the call is rejected
    with the EPERM error. *)
Theorem declined_elevation_surfaces_permission_error :
  fst <$> elevated declinedWorld (Some "/mods/a.esp") "user-1" []
  = Some (Rejected (newUserCanceled declinedWorld))
  /\ exists t,
      unlinkAsync declinedWorld 1 "site" "/mods/a.esp" []
      = Some (Rejected (restackErr (errno "EPERM" "/mods/a.esp") "site"), t)
      /\ e_cls (restackErr (errno "EPERM" "/mods/a.esp") "site") <> UserCanceled
      /\ count isElevated t = 1.
Proof.
  split; [reflexivity|].
  eexists. split; [vm_compute; reflexivity|]. split; [discriminate|reflexivity].
Qed.

(** C3: when the primitive answers "not found", [remove], [unlink] and
    [rmdir] resolve at once, whatever happened before; and no run of them is
    ever rejected with an error whose code is ENOENT. *)
Theorem delete_of_missing_target_succeeds :
  forall (env : Env unit) (stackErr dirPath : string) (fuel : nat) (t : Trace),
    (forall err,
        underlying env (count isCall t) = Rejected err ->
        e_code err = Some (CodeStr "ENOENT") ->
        removeAsync env (S fuel) stackErr dirPath t
        = Some (Resolved tt, t ++ [EvCall])
        /\ unlinkAsync env (S fuel) stackErr dirPath t
           = Some (Resolved tt, t ++ [EvCall])
        /\ rmdirAsync env stackErr dirPath t = Some (Resolved tt, t ++ [EvCall]))
    /\ surfaces (removeAsync env fuel stackErr dirPath t)
    /\ surfaces (unlinkAsync env fuel stackErr dirPath t)
    /\ surfaces (rmdirAsync env stackErr dirPath t).
Proof.
  intros env stackErr dirPath fuel t. split.
  - intros err Hcall Hcode. apply codeIs_true in Hcode.
    unfold removeAsync, unlinkAsync, rmdirAsync. rewrite rmdirInt_unfold.
    simpl. unfold catch_, call. by rewrite Hcall, Hcode.
  - split; [apply removeInt_surfaces|].
    split; [apply unlinkInt_surfaces|apply rmdirInt_surfaces].
Qed.

Lemma delete_of_missing_target_witness :
  let env := scripted [Rejected (errno "ENOENT" "/mods/gone")] [] [] [] in
  removeAsync env 1 "site" "/mods/gone" [] = Some (Resolved tt, [EvCall])
  /\ unlinkAsync env 1 "site" "/mods/gone" [] = Some (Resolved tt, [EvCall])
  /\ rmdirAsync env "site" "/mods/gone" [] = Some (Resolved tt, [EvCall]).
Proof.
  intros env.
  exact (proj1 (delete_of_missing_target_succeeds env "site" "/mods/gone" 0 [])
               (errno "ENOENT" "/mods/gone") eq_refl eq_refl).
Defined.

(** *** Retry convergence *)

(** C4 as stated fails for [rmdir]: the directory is busy once and the dialog
    would answer "Retry", yet [rmdirAsync] succeeds after a silent delay
    without consulting the dialog, where the statement promises one
    consultation.  It also fails for [copy] when the identity check is on and
    source and destination are the same file: the primitive would succeed at
    once, yet the call is rejected before the primitive is called. *)
Lemma retry_convergence_fails_for_rmdir_and_self_copy :
  (dialogDefined busyOnce = true
   /\ failsThenSucceeds busyOnce recoverable 1 tt []
   /\ rmdirAsync busyOnce "site" "/mods/old" []
      = Some (Resolved tt, [EvCall; EvDelay RETRY_DELAY_MS; EvCall])
   /\ ~ converges 1 tt [] (rmdirAsync busyOnce "site" "/mods/old" []))
  /\ (dialogDefined linkedWorld = true
      /\ failsThenSucceeds linkedWorld recoverable 0 tt []
      /\ copyAsync linkedWorld 1 "site" "/mods/a.esp" "/mods/link-to-a.esp"
                   None []
         = Some (Rejected (restackErr
                             (newError (sameFileMessage "/mods/a.esp"
                                                        "/mods/link-to-a.esp" 42))
                             "site"),
                 [EvStat "/mods/a.esp"; EvStat "/mods/link-to-a.esp"])
      /\ ~ converges 0 tt []
                     (copyAsync linkedWorld 1 "site" "/mods/a.esp"
                                "/mods/link-to-a.esp" None [])).
Proof.
  split.
  - split; [reflexivity|]. split.
    + repeat split.
      * intros [|i] Hi; [|lia]. eexists. split; reflexivity.
      * intros [|i] o Hi; [reflexivity|lia].
    + split; [reflexivity|].
      intros (t' & Hrun & Hp & _). vm_compute in Hrun. by simplify_eq.
  - split; [reflexivity|]. split.
    + repeat split.
      * intros i Hi. lia.
      * intros i o Hi. lia.
    + split; [reflexivity|].
      intros (t' & Hrun & _). vm_compute in Hrun. by simplify_eq.
Qed.

(** C4, amended: for the operations that go through [errorHandler] - the
    ones made by [genWrapperAsync], and [copy], [remove], [unlink] and
    [rename] - with a dialog present: if the primitive fails [n] times with
    EBUSY, ENOSPC or EPERM (for [rename], EPERM only when the destination can
    be inspected and is not a directory) and then succeeds, and every dialog
    is answered "Retry", the call resolves to the primitive's result after
    exactly [n] dialogs and [n + 1] calls of the primitive; for [copy] this
    holds when the identity check is switched off or has passed, the check
    itself touching neither the primitive nor the dialog. *)
Theorem retry_convergence :
  forall (V : Type) (env : Env V) (fsenv : Env unit) (stackErr : string)
         (n fuel : nat) (v : V) (src dest dirPath : string)
         (options : option CopyOptions) (checked : Trace),
    n < fuel ->
    (dialogDefined env = true ->
     failsThenSucceeds env recoverable n v [] ->
     converges n v [] (genWrapperAsync env fuel stackErr []))
    /\ (dialogDefined fsenv = true ->
        failsThenSucceeds fsenv recoverable n tt [] ->
        converges n tt [] (removeAsync fsenv fuel stackErr dirPath [])
        /\ converges n tt [] (unlinkAsync fsenv fuel stackErr dirPath [])
        /\ ((if skipSelfCopyCheck options then checked = []
             else selfCopyCheck fsenv src dest [] = Some (Resolved tt, checked)) ->
            converges n tt []
                      (copyAsync fsenv fuel stackErr src dest options [])))
    /\ (dialogDefined fsenv = true ->
        failsThenSucceeds fsenv (renameRecoverable fsenv dest) n tt [] ->
        converges n tt [] (renameAsync fsenv fuel stackErr src dest [])).
Proof.
  intros V env fsenv stackErr n fuel v src dest dirPath options checked Hfuel.
  split; [|split].
  - intros Hd Hpre. by apply wrapper_retries.
  - intros Hd Hpre. split; [by apply removeInt_retries|].
    split; [by apply unlinkInt_retries|].
    intros Hcheck. by eapply copyAsync_retries.
  - intros Hd Hpre. by apply renameInt_retries.
Qed.

Lemma retry_convergence_witness :
  converges 2 7 [] (genWrapperAsync twoFailures 3 "site" []).
Proof.
  refine (proj1 (retry_convergence nat twoFailures busyOnce "site" 2 3 7
                                   "/a" "/b" "/c" None [] _) eq_refl _).
  - lia.
  - repeat split.
    + intros [|[|i]] Hi; try lia; eexists; split; reflexivity.
    + intros [|[|i]] o Hi; try lia; reflexivity.
Defined.

(** *** The self-copy guard *)

Section Copy.

Context (env : Env unit) (stackErr src dest : string)
        (options : option CopyOptions).

Lemma copyInt_no_stat fuel : forall t r t',
  copyInt env fuel src dest options stackErr t = Some (r, t') ->
  count isStat t' = count isStat t.
Proof.
  induction fuel as [|fuel IH]; intros t r t' Hrun; [done|].
  simpl in Hrun. unfold catch_ at 1, call in Hrun.
  destruct (underlying env _) as [[]|err|]; simplify_eq; try quiet_trace.
  unfold then_ in Hrun.
  destruct (errorHandler_handled env err stackErr (t ++ [EvCall]))
    as (r1 & t1 & Heq & Hh).
  rewrite Heq in Hrun.
  pose proof (handled_count env isStat _ _ _ _ _ foreign_isStat Hh) as Hc.
  destruct r1 as [[]|e1|]; simplify_eq; try quiet_trace.
  apply IH in Hrun. quiet_trace.
Qed.

End Copy.

(** C5: when source and destination exist and have the same inode, [copy]
    with the guard on is rejected with the "same file" error after the two
    [stat] calls and before the copy primitive is ever invoked; with
    [noSelfCopy] set, no run of [copy] inspects either path, and the copy
    itself is attempted (it resolves as soon as the primitive does). *)
Theorem self_copy_guard :
  forall (env : Env unit) (stackErr src dest : string)
         (options : option CopyOptions) (fuel : nat) (s0 s1 : Stats),
    statAsync env src = Resolved s0 ->
    statAsync env dest = Resolved s1 ->
    ino s0 = ino s1 ->
    (skipSelfCopyCheck options = false ->
     copyAsync env fuel stackErr src dest options []
     = Some (Rejected (restackErr (newError (sameFileMessage src dest (ino s0)))
                                  stackErr),
             [EvStat src; EvStat dest]))
    /\ (skipSelfCopyCheck options = true ->
        (forall r t, copyAsync env fuel stackErr src dest options [] = Some (r, t) ->
                     count isStat t = 0)
        /\ (underlying env 0 = Resolved tt ->
            copyAsync env (S fuel) stackErr src dest options []
            = Some (Resolved tt, [EvCall]))).
Proof.
  intros env stackErr src dest options fuel s0 s1 H0 H1 Hino. split.
  - intros Hskip. unfold copyAsync. rewrite Hskip.
    unfold catch_, then_, selfCopyCheck. rewrite H0, H1, Hino.
    rewrite bool_decide_eq_true_2 by done. reflexivity.
  - intros Hskip. unfold copyAsync. rewrite Hskip. split.
    + intros r t Hrun. unfold catch_, then_, resolve in Hrun.
      destruct (copyInt env fuel src dest options stackErr []) as [[r1 t1]|] eqn:Hloop;
        [|done].
      apply copyInt_no_stat in Hloop.
      destruct r1; unfold reject in Hrun; by simplify_eq.
    + intros Hok. unfold catch_, then_, resolve. simpl.
      unfold catch_, call. change (count isCall []) with 0. by rewrite Hok.
Qed.

Lemma self_copy_guard_witness :
  copyAsync linkedWorld 1 "site" "/mods/a.esp" "/mods/link-to-a.esp" None []
  = Some (Rejected (restackErr
                      (newError (sameFileMessage "/mods/a.esp"
                                                 "/mods/link-to-a.esp" 42))
                      "site"),
          [EvStat "/mods/a.esp"; EvStat "/mods/link-to-a.esp"])
  /\ copyAsync linkedWorld 1 "site" "/mods/a.esp" "/mods/link-to-a.esp"
               (Some (mkCopyOptions (Some true))) []
     = Some (Resolved tt, [EvCall]).
Proof.
  split.
  - exact (proj1 (self_copy_guard linkedWorld "site" "/mods/a.esp"
                                  "/mods/link-to-a.esp" None 1
                                  (mkStats 42 false) (mkStats 42 false)
                                  eq_refl eq_refl eq_refl) eq_refl).
  - exact (proj2 (proj2 (self_copy_guard linkedWorld "site" "/mods/a.esp"
                                  "/mods/link-to-a.esp"
                                  (Some (mkCopyOptions (Some true))) 0
                                  (mkStats 42 false) (mkStats 42 false)
                                  eq_refl eq_refl eq_refl) eq_refl) eq_refl).
Defined.

(** *** The permission dialog *)

(** C6 as stated fails when another process holds the file: the operation
    fails with a permission error and the dialog is shown with the two
    buttons "Cancel" and "Retry" only. *)
Lemma permission_prompt_without_grant :
  exists o,
    unlinkAsync lockedWorld 1 "site" "/mods/a.esp" []
    = Some (Rejected (restackErr (newUserCanceled lockedWorld) "site"),
            [EvCall; EvPrompt o 0])
    /\ buttons o = ["Cancel"; "Retry"]
    /\ "Give permission" ∉ buttons o.
Proof.
  eexists. split; [vm_compute; reflexivity|]. split; [reflexivity|].
  simpl. rewrite !elem_of_cons, elem_of_nil. by intros [|[|[]]].
Qed.

(** C6, amended: when an operation fails with a permission error and there
    is a dialog, the handler shows the "Access denied" box for the path of
    the error, with the buttons "Cancel" and "Retry", and with "Give
    permission" as a third button exactly when [wholocks] reports no process
    holding the path. *)
Theorem permission_prompt_buttons :
  forall (V : Type) (env : Env V) (err : JsError) (stackErr : string) (t : Trace),
    dialogDefined env = true ->
    e_code err = Some (CodeStr "EPERM") ->
    let filePath := jsOr (e_dest err) (e_path err) in
    let o := unlockOptions filePath (wholocks env filePath) in
    (exists r rest,
        errorHandler env err stackErr t
        = Some (r, t ++ EvPrompt o (showMessageBox env (count isPrompt t) o) :: rest))
    /\ title o = "Access denied"
    /\ buttons o = (if bool_decide (wholocks env filePath = [])
                    then ["Cancel"; "Retry"; "Give permission"]
                    else ["Cancel"; "Retry"]).
Proof.
  intros V env err stackErr t Hd Hcode filePath o. split; [|split; [done|]].
  - unfold errorHandler, errorRepeat.
    rewrite (codeIs_other err "EPERM" "EBUSY"), (codeIs_other err "EPERM" "ENOSPC")
      by done.
    rewrite (proj2 (codeIs_true err "EPERM") Hcode).
    unfold then_ at 1 2, catch_ at 1. rewrite unlockConfirm_run, Hd.
    fold filePath. fold o. simpl.
    set (c := showMessageBox env (count isPrompt t) o).
    case_bool_decide as Hc0; [by eexists _, []|].
    case_bool_decide as Hc2; [|by eexists _, []].
    unfold catch_, then_ at 1.
    destruct (elevated_run env filePath (getUserId env) (t ++ [EvPrompt o c]))
      as (r & rest & -> & _).
    rewrite <- app_assoc. simpl.
    destruct r as [[]|e|]; unfold_m; try by eexists _, _.
    eexists _, _. by rewrite <- app_assoc.
  - unfold o, unlockOptions. simpl.
    destruct (wholocks env filePath); by simpl.
Qed.

Lemma permission_prompt_buttons_witness :
  buttons (unlockOptions (Some "/mods/a.esp") [mkProc "explorer.exe" 4711])
  = ["Cancel"; "Retry"]
  /\ buttons (unlockOptions (Some "/mods/a.esp") [])
     = ["Cancel"; "Retry"; "Give permission"].
Proof.
  split.
  - exact (proj2 (proj2 (permission_prompt_buttons
                           unit lockedWorld (errno "EPERM" "/mods/a.esp") "site" []
                           eq_refl eq_refl))).
  - exact (proj2 (proj2 (permission_prompt_buttons
                           unit declinedWorld (errno "EPERM" "/mods/a.esp") "site" []
                           eq_refl eq_refl))).
Defined.

(** *** Bounded retries of [rmdir] *)



End FsSpec.

(** * Properties of the mod-management handlers *)

Module ModsSpec.

Import Mods.

Ltac unfold_m :=
  unfold then_, catch_, catchClass, resolve, reject, external, effect in *.

Lemma elem_of_dispatched a t : a ∈ dispatched t <-> Dispatch a ∈ t.
Proof.
  unfold dispatched. rewrite list_elem_of_omap. split.
  - intros (ev & Hin & Hev). destruct ev; by simplify_eq.
  - intros Hin. by exists (Dispatch a).
Qed.

Section Removal.

Context (env : Env) (st : IState) (activators : list IDeploymentMethod)
        (gameMode modId : string) (callback : bool).

Local Abbreviation disabling := (Mods.disabling st gameMode modId).
Local Abbreviation wasEnabled := (Mods.wasEnabled st gameMode modId).
Local Abbreviation firstStep := (Mods.firstStep env st activators gameMode modId).
Local Abbreviation modDir := (Mods.modDir env st gameMode).
Local Abbreviation deleted := (Mods.deleted env st gameMode).
Local Abbreviation dropping := (Mods.dropping gameMode callback).
Local Abbreviation afterFirstStep := (Mods.afterFirstStep env st gameMode callback).
Local Abbreviation followUp :=
  (Mods.followUp env st activators gameMode modId callback).
Local Abbreviation failsWith := (Mods.failsWith env st gameMode).

Lemma removable_found :
  isRemovableState (modStateOf st gameMode modId) = true ->
  exists known mod_,
    mods st !! gameMode = Some known /\ known !! modId = Some mod_
    /\ isRemovableState (Some (mod_state mod_)) = true.
Proof.
  unfold modStateOf.
  destruct (mods st !! gameMode) as [known|]; [|done].
  destruct (known !! modId) as [mod_|] eqn:Hmod; [|done].
  intros H. exists known, mod_. split; [done|]. split; [done|]. exact H.
Qed.

Lemma report_run err title details allowReport t :
  ShowErrorNotification title details allowReport = classify err ->
  report callback err title details allowReport t
  = (Resolved tt, t ++ [reportEvent callback err]).
Proof.
  intros H. unfold report, reportEvent, effect. destruct callback; [done|].
  by rewrite H.
Qed.

(** The three [.catch] handlers at the end of the chain. *)
Lemma catches_run (p : M unit) t r t1 :
  p t = (r, t1) ->
  catch_
    (catchClass
       (catchClass p TemporaryError
          (fun err =>
             report callback err "Failed to undeploy mod, please try again"
                    (DetailMessage (e_message err)) (Some false)))
       ProcessCanceled
       (fun err =>
          report callback err "Failed to remove mod"
                 (DetailMessage (e_message err)) (Some false)))
    (fun err => report callback err "Failed to remove mod" (DetailError err) None)
    t
  = match r with
    | Rejected e => (Resolved tt, t1 ++ [reportEvent callback e])
    | other => (other, t1)
    end.
Proof.
  intros Hp. unfold catch_, catchClass. rewrite Hp.
  destruct r as [[]|e|]; try done.
  destruct (decide (e_cls e = TemporaryError)) as [Ht|Ht].
  { rewrite (bool_decide_eq_true_2 _ Ht).
    rewrite report_run by (unfold classify; by rewrite Ht). done. }
  rewrite (bool_decide_eq_false_2 _ Ht).
  destruct (decide (e_cls e = ProcessCanceled)) as [Hp'|Hp'].
  { rewrite (bool_decide_eq_true_2 _ Hp').
    rewrite report_run by (unfold classify; by rewrite Hp'). done. }
  rewrite (bool_decide_eq_false_2 _ Hp').
  rewrite report_run; [done|].
  unfold classify. by destruct (e_cls e).
Qed.

Lemma onRemoveMod_run known mod_ :
  mods st !! gameMode = Some known -> known !! modId = Some mod_ ->
  isRemovableState (Some (mod_state mod_)) = true ->
  onRemoveMod env st activators gameMode modId callback =
  match firstStep mod_ with
  | inl thrown => (Threw thrown, [disabling])
  | inr u =>
      (Returned, (u [disabling]).2 ++ afterFirstStep mod_ (u [disabling]).1)
  end.
Proof.
  intros Hknown Hmod Hstate. unfold onRemoveMod, modStateOf.
  rewrite Hknown, Hmod.
  change (mod_state <$> Some mod_) with (Some (mod_state mod_)).
  rewrite Hstate. cbn [negb].
  unfold firstStep. fold wasEnabled. fold disabling.
  destruct (if wasEnabled then _ else _) as [thrown|u]; [done|].
  f_equal. fold (modDir mod_).
  match goal with
  | |- (catch_ (catchClass (catchClass ?p _ _) _ _) _ ?t).2 = _ =>
      destruct (p t) as [r t1] eqn:Hp; rewrite (catches_run p t r t1 Hp)
  end.
  revert Hp. unfold then_ at 1 2, catch_, external, truthy.
  destruct (u [disabling]) as [[[]|e|] ut]; simpl.
  - destruct (removeAsync env (modDir mod_)) as [[]|e|]; simpl.
    + unfold then_, effect, dropping. destruct callback; simpl;
        unfold effect, resolve; intros [= <- <-]; simpl;
        by rewrite <- ?app_assoc.
    + destruct (codeIs e "ENOENT"); simpl.
      * unfold resolve, then_, effect, dropping. destruct callback; simpl;
          unfold effect, resolve; intros [= <- <-]; simpl;
          by rewrite <- ?app_assoc.
      * unfold reject. intros [= <- <-]. simpl. by rewrite <- ?app_assoc.
    + intros [= <- <-]. simpl. by rewrite <- ?app_assoc.
  - by intros [= <- <-].
  - intros [= <- <-]. simpl. by rewrite app_nil_r.
Qed.

(** [undeploy] only talks to the deployment method and the activation
    store. *)
Lemma undeploy_steps mod_ u t :
  undeploy env st activators gameMode mod_ = inr u ->
  exists steps, (u t).2 = t ++ steps
                /\ Forall (fun ev => isUndeployStep ev = true) steps.
Proof.
  unfold undeploy. intros Hu.
  repeat case_match; simplify_eq; unfold_m;
    repeat case_match; simplify_eq; simpl;
    rewrite <- ?app_assoc; simpl;
    try (by exists []; rewrite app_nil_r);
    eexists; (split; [reflexivity|]); by repeat constructor.
Qed.

(** A run of [undeploy] for a discovered game that resolves has made all six
    calls, [deactivate] among them, with one of the activators. *)
Lemma undeploy_resolved mod_ u t discoveryPath :
  undeploy env st activators gameMode mod_ = inr u ->
  (discovered st !! gameMode) ≫= disc_path = Some discoveryPath ->
  (u t).1 = Resolved tt ->
  exists a dataPath,
    a ∈ activators
    /\ (u t).2 = t ++ undeployed st gameMode mod_ (dm_id a)
                                 (installPathForGame env st gameMode) dataPath.
Proof.
  unfold undeploy. intros Hu Hdisc. rewrite Hdisc in Hu.
  destruct (getGame env gameMode) as [game|]; [|done].
  set (dataPath := getModPaths game discoveryPath
                   !! default "" (jsOr (mod_type mod_) (Some ""))) in *.
  match type of Hu with
  | match ?found with _ => _ end = _ => destruct found as [a|] eqn:Hfind
  end; simplify_eq; [|done].
  assert (a ∈ activators) as Ha.
  { apply list_elem_of_In.
    destruct (activator st !! gameMode); by apply List.find_some in Hfind as [? _]. }
  unfold then_, external. simpl.
  destruct (getNormalizeFunc env dataPath) as [normalize| |]; simpl; try done.
  destruct (loadActivation env _ dataPath _) as [lastActivation| |];
    simpl; try done.
  destruct (prepare a dataPath false lastActivation normalize) as [[]| |];
    simpl; try done.
  destruct (deactivate a _ dataPath mod_) as [[]| |]; simpl; try done.
  destruct (finalize a gameMode dataPath _) as [newActivation| |];
    simpl; try done.
  intros _. exists a, dataPath. split; [done|].
  unfold undeployed. by rewrite <- !app_assoc.
Qed.

Lemma firstStep_resolved mod_ u steps :
  firstStep mod_ = inr u ->
  (u [disabling]).2 = disabling :: steps ->
  (wasEnabled = false -> steps = [])
  /\ (wasEnabled = true -> (u [disabling]).1 = Resolved tt ->
      match (discovered st !! gameMode) ≫= disc_path with
      | None => steps = []
      | Some _ =>
          exists a dataPath,
            a ∈ activators
            /\ steps = undeployed st gameMode mod_ (dm_id a)
                                  (installPathForGame env st gameMode) dataPath
      end).
Proof.
  unfold firstStep. intros Hfirst Hsteps. split.
  - intros Hen. rewrite Hen in Hfirst. simplify_eq.
    unfold resolve in Hsteps. simpl in Hsteps. by simplify_eq.
  - intros Hen Hres. rewrite Hen in Hfirst.
    destruct ((discovered st !! gameMode) ≫= disc_path) as [discoveryPath|]
      eqn:Hdisc.
    + destruct (undeploy_resolved mod_ u [disabling] discoveryPath
                                  Hfirst Hdisc Hres)
        as (a & dataPath & Ha & Hrun).
      exists a, dataPath. split; [done|].
      rewrite Hrun in Hsteps. simpl in Hsteps. by simplify_eq.
    + unfold undeploy in Hfirst. rewrite Hdisc in Hfirst. simplify_eq.
      unfold resolve in Hsteps. simpl in Hsteps. by simplify_eq.
Qed.

Lemma firstStep_steps mod_ u t :
  firstStep mod_ = inr u ->
  exists steps, (u t).2 = t ++ steps
                /\ Forall (fun ev => isUndeployStep ev = true) steps.
Proof.
  unfold firstStep. destruct wasEnabled; [apply undeploy_steps|].
  intros [= <-]. exists []. by rewrite app_nil_r.
Qed.

Lemma onRemoveMod_shape known mod_ :
  mods st !! gameMode = Some known -> known !! modId = Some mod_ ->
  isRemovableState (Some (mod_state mod_)) = true ->
  exists steps,
    (onRemoveMod env st activators gameMode modId callback).2
    = disabling :: steps ++ followUp mod_
    /\ Forall (fun ev => isUndeployStep ev = true) steps
    /\ forall u, firstStep mod_ = inr u -> (u [disabling]).2 = disabling :: steps.
Proof.
  intros Hknown Hmod Hstate.
  rewrite (onRemoveMod_run known mod_ Hknown Hmod Hstate). unfold followUp.
  destruct (firstStep mod_) as [thrown|u] eqn:Hfirst.
  - exists []. by repeat split.
  - destruct (firstStep_steps mod_ u [disabling] Hfirst) as (steps & Hsteps & Hall).
    exists steps. simpl. rewrite Hsteps. repeat split; try done.
    by intros ? [= <-].
Qed.

Lemma dispatched_app t1 t2 : dispatched (t1 ++ t2) = dispatched t1 ++ dispatched t2.
Proof. unfold dispatched. apply omap_app. Qed.

Lemma dispatched_steps steps :
  Forall (fun ev => isUndeployStep ev = true) steps -> dispatched steps = [].
Proof.
  induction 1 as [|ev steps Hev _ IH]; [done|].
  unfold dispatched in *. by destruct ev.
Qed.

Lemma step_not_elem ev steps :
  Forall (fun ev => isUndeployStep ev = true) steps ->
  isUndeployStep ev = false -> ev ∉ steps.
Proof.
  intros Hall Hev Hin. rewrite Forall_forall in Hall.
  specialize (Hall _ Hin). congruence.
Qed.

Lemma afterFirstStep_no_steps mod_ first :
  Forall (fun ev => isUndeployStep ev = false) (afterFirstStep mod_ first).
Proof.
  unfold afterFirstStep, dropping, reportEvent, classify.
  repeat case_match; by repeat constructor.
Qed.

Lemma afterFirstStep_delete mod_ first :
  RemoveAsync (modDir mod_) ∈ afterFirstStep mod_ first <-> first = Resolved tt.
Proof.
  unfold afterFirstStep. destruct first as [[]|e|].
  - split; [done|]. intros _. apply elem_of_cons. by left.
  - split; [|done]. unfold reportEvent, classify.
    rewrite elem_of_cons, elem_of_nil. intros [H|[]].
    by repeat case_match.
  - split; [|done]. by rewrite elem_of_nil.
Qed.

Lemma afterFirstStep_dispatched_eq mod_ first :
  dispatched (afterFirstStep mod_ first)
  = match first with
    | Resolved _ =>
        if deleted mod_ then [RemoveMod gameMode (mod_id mod_)] else []
    | _ => []
    end.
Proof.
  unfold Mods.afterFirstStep, Mods.deleted, Mods.dropping, reportEvent, classify.
  destruct first as [[]|e|]; [|by destruct callback, (e_cls e)|done].
  destruct (removeAsync env (modDir mod_)) as [[]|e|]; [by destruct callback| |done].
  destruct (codeIs e "ENOENT"); [by destruct callback|].
  by destruct callback, (e_cls e).
Qed.

Lemma afterFirstStep_drop mod_ first g m :
  Dispatch (RemoveMod g m) ∈ afterFirstStep mod_ first <->
  first = Resolved tt /\ deleted mod_ = true /\ g = gameMode /\ m = mod_id mod_.
Proof.
  rewrite <- elem_of_dispatched, afterFirstStep_dispatched_eq.
  destruct first as [[]|e|]; [|rewrite elem_of_nil; by intuition..].
  destruct (deleted mod_).
  - rewrite list_elem_of_singleton. split.
    + by intros [= -> ->].
    + by intros (_ & _ & -> & ->).
  - rewrite elem_of_nil. by intuition.
Qed.

Lemma afterFirstStep_failure mod_ first e :
  failsWith mod_ first e ->
  exists pre, afterFirstStep mod_ first = pre ++ [reportEvent callback e]
              /\ dispatched pre = [].
Proof.
  intros [->|(-> & Hrm & Hcode)]; unfold afterFirstStep.
  - by exists [].
  - rewrite Hrm, Hcode. by exists [RemoveAsync (modDir mod_)].
Qed.

Lemma afterFirstStep_dispatched mod_ first :
  dispatched (afterFirstStep mod_ first) = []
  \/ dispatched (afterFirstStep mod_ first) = [RemoveMod gameMode (mod_id mod_)].
Proof.
  rewrite afterFirstStep_dispatched_eq.
  destruct first; [destruct (deleted mod_)|..]; auto.
Qed.

Lemma followUp_dispatched mod_ :
  dispatched (followUp mod_) = []
  \/ dispatched (followUp mod_) = [RemoveMod gameMode (mod_id mod_)].
Proof.
  unfold followUp. destruct (firstStep mod_); [by left|].
  apply afterFirstStep_dispatched.
Qed.

Lemma dispatched_report e : dispatched [reportEvent callback e] = [].
Proof. unfold reportEvent, classify. by repeat case_match. Qed.

End Removal.

(** Disabling a mod in a profile leaves the mods table alone. *)
Lemma tracked_after_disabling st profileId modId' gameMode modId :
  tracked st gameMode modId ->
  tracked (reduce st (SetModEnabled profileId modId' false)) gameMode modId.
Proof. by destruct profileId. Qed.

Lemma disabled_after_disabling st profileId modId :
  enabledIn (reduce st (SetModEnabled profileId modId false)) profileId modId
  = false.
Proof.
  unfold enabledIn. destruct profileId as [pid|]; [|done]. simpl.
  rewrite lookup_alter. rewrite decide_True by done.
  destruct (profiles st !! pid) as [profile|]; [|done]. simpl.
  by rewrite lookup_insert_eq.
Qed.

(** A removal whose state check fails does nothing but tell the callback, if
    there is one. *)
Lemma onRemoveMod_refused env st activators gameMode modId callback :
  isRemovableState (modStateOf st gameMode modId) = false ->
  onRemoveMod env st activators gameMode modId callback
  = (Returned,
     if callback
     then [Callback (Some (newProcessCanceled
                             "Can't delete mod during download or install"))]
     else []).
Proof. intros Hstate. unfold onRemoveMod. by rewrite Hstate. Qed.

(** C8 at the failing input: the mod is installed and enabled, its game has
    been discovered, and [getGame] has no descriptor for the game.  The first
    step of the removal fails - [undeploy] throws on [game.getModPaths] -
    and the failure is neither classified nor reported: with or without a
    callback, [onRemoveMod] ends with the exception right after it has
    disabled the mod, and the trace holds no callback and no notification. *)
Theorem removal_failure_goes_unreported :
  wasEnabled sampleStore "skyrim" "A" = true
  /\ isRemovableState (modStateOf sampleStore "skyrim" "A") = true
  /\ (discovered sampleStore !! "skyrim") ≫= disc_path = Some "/games/skyrim"
  /\ getGame unknownGameWorld "skyrim" = None
  /\ onRemoveMod unknownGameWorld sampleStore [hardlink (Resolved tt)]
                 "skyrim" "A" true
     = (Threw (typeError "getModPaths"),
        [Dispatch (SetModEnabled (Some "profile-1") "A" false)])
  /\ onRemoveMod unknownGameWorld sampleStore [hardlink (Resolved tt)]
                 "skyrim" "A" false
     = (Threw (typeError "getModPaths"),
        [Dispatch (SetModEnabled (Some "profile-1") "A" false)]).
Proof. repeat split; reflexivity. Qed.

(** X29: the sequence of a removal whose precondition holds.  Unless
    [undeploy] itself throws, the removal returns normally and (1) the mod is
    undeployed first when it was enabled: the events of [undeploy] directly
    follow the disabling and precede everything else, and when that step
    resolved for a discovered game they are its six calls, the [deactivate]
    of the mod among them, made with one of the activators; a mod that was
    not enabled, or whose game is not discovered, is not undeployed; (2) the
    installation directory is deleted exactly when that first step resolved;
    (3) the mod is dropped from the store exactly when the first step
    resolved and the deletion succeeded or found the directory already
    absent; (4) when a step is rejected, the last thing that happens is the
    report of that error - handed to the callback, or shown as the
    notification chosen by its class - no mod is dropped, and the mod is
    still tracked in the resulting store. *)
Theorem mod_removal_sequencing :
  forall (env : Env) (st : IState) (activators : list IDeploymentMethod)
         (gameMode modId : string) (callback : bool)
         (known : gmap string IMod) (mod_ : IMod),
    mods st !! gameMode = Some known ->
    known !! modId = Some mod_ ->
    isRemovableState (Some (mod_state mod_)) = true ->
    let out := onRemoveMod env st activators gameMode modId callback in
    let start := disabling st gameMode modId in
    match firstStep env st activators gameMode modId mod_ with
    | inl thrown => out = (Threw thrown, [start])
    | inr u =>
        let first := (u [start]).1 in
        out.1 = Returned
        /\ (wasEnabled st gameMode modId = true ->
            undeploy env st activators gameMode mod_ = inr u)
        /\ (exists steps rest,
               (u [start]).2 = start :: steps
               /\ out.2 = start :: steps ++ rest
               /\ Forall (fun ev => isUndeployStep ev = true) steps
               /\ Forall (fun ev => isUndeployStep ev = false) rest
               /\ (wasEnabled st gameMode modId = false -> steps = [])
               /\ (wasEnabled st gameMode modId = true -> first = Resolved tt ->
                   match (discovered st !! gameMode) ≫= disc_path with
                   | None => steps = []
                   | Some _ =>
                       exists a dataPath,
                         a ∈ activators
                         /\ steps = undeployed st gameMode mod_ (dm_id a)
                                     (installPathForGame env st gameMode)
                                     dataPath
                   end))
        /\ (RemoveAsync (modDir env st gameMode mod_) ∈ out.2
            <-> first = Resolved tt)
        /\ (Dispatch (RemoveMod gameMode (mod_id mod_)) ∈ out.2
            <-> first = Resolved tt /\ deleted env st gameMode mod_ = true)
        /\ (forall e,
               failsWith env st gameMode mod_ first e ->
               last out.2 = Some (reportEvent callback e)
               /\ (forall g m, Dispatch (RemoveMod g m) ∉ out.2)
               /\ tracked (stateAfter st out.2) gameMode modId)
    end.
Proof.
  intros env st activators gameMode modId callback known mod_ Hknown Hmod Hstate
         out start.
  pose proof (onRemoveMod_run env st activators gameMode modId callback
                              known mod_ Hknown Hmod Hstate) as Hrun.
  destruct (onRemoveMod_shape env st activators gameMode modId callback
                              known mod_ Hknown Hmod Hstate)
    as (steps & Hshape & Hsteps & Hu).
  fold out in Hrun, Hshape. unfold followUp in Hshape.
  destruct (firstStep env st activators gameMode modId mod_) as [thrown|u] eqn:Hfirst;
    [exact Hrun|].
  fold start in Hshape. specialize (Hu u eq_refl). fold start in Hu.
  set (first := (u [start]).1) in *.
  assert (forall ev, isUndeployStep ev = false -> ev <> start ->
            ev ∈ out.2 <-> ev ∈ afterFirstStep env st gameMode callback mod_ first)
    as Hin.
  { intros ev Hev Hne. rewrite Hshape, elem_of_cons, elem_of_app. split.
    - intros [->|[Hs|Ht]]; [done| |done].
      by apply (step_not_elem _ _ Hsteps Hev) in Hs.
    - auto. }
  split; [by rewrite Hrun|]. split.
  { intros Hen. unfold firstStep in Hfirst. by rewrite Hen in Hfirst. }
  split.
  { exists steps, (afterFirstStep env st gameMode callback mod_ first).
    destruct (firstStep_resolved env st activators gameMode modId mod_ u steps
                                 Hfirst Hu) as [Hoff Hon].
    split; [done|]. split; [done|]. split; [done|].
    split; [apply afterFirstStep_no_steps|]. split; [exact Hoff|exact Hon]. }
  split; [rewrite Hin by done; apply afterFirstStep_delete|].
  split.
  { rewrite Hin by done. rewrite afterFirstStep_drop. split.
    - by intros (? & ? & _).
    - by intros [? ?]. }
  intros e Hfail.
  destruct (afterFirstStep_failure env st gameMode callback mod_ first e Hfail)
    as (pre & Hpre & Hnone).
  assert (dispatched out.2 = [SetModEnabled (lastActiveProfileId st gameMode)
                                            modId false]) as Hd.
  { rewrite Hshape, Hpre. change (start :: steps ++ pre ++ [reportEvent callback e])
      with ([start] ++ steps ++ pre ++ [reportEvent callback e]).
    rewrite !dispatched_app, (dispatched_steps _ Hsteps), Hnone,
      dispatched_report. done. }
  split; [|split].
  - rewrite Hshape, Hpre.
    change (start :: steps ++ pre ++ [reportEvent callback e])
      with ([start] ++ steps ++ pre ++ [reportEvent callback e]).
    rewrite !app_assoc. apply last_snoc.
  - intros g m Hdrop.
    assert (RemoveMod g m ∈ dispatched out.2) as Hd'.
    { unfold dispatched. apply list_elem_of_omap. by exists (Dispatch (RemoveMod g m)). }
    rewrite Hd in Hd'. by apply list_elem_of_singleton in Hd'.
  - unfold stateAfter. rewrite Hd. simpl. apply tracked_after_disabling.
    unfold tracked. rewrite Hknown. simpl. by rewrite Hmod.
Qed.

Lemma mod_removal_sequencing_witness :
  last (onRemoveMod (sampleWorld (Rejected lockedDir) []) sampleStore
                    [hardlink (Resolved tt)] "skyrim" "A" false).2
  = Some (ShowErrorNotification "Failed to undeploy mod, please try again"
                                (DetailMessage "directory is in use") (Some false))
  /\ tracked (stateAfter sampleStore
                (onRemoveMod (sampleWorld (Rejected lockedDir) []) sampleStore
                             [hardlink (Resolved tt)] "skyrim" "A" false).2)
             "skyrim" "A"
  /\ exists steps rest a dataPath,
      (onRemoveMod (sampleWorld (Rejected lockedDir) []) sampleStore
                   [hardlink (Resolved tt)] "skyrim" "A" false).2
      = Dispatch (SetModEnabled (Some "profile-1") "A" false) :: steps ++ rest
      /\ a ∈ [hardlink (Resolved tt)]
      /\ steps = undeployed sampleStore "skyrim" modA (dm_id a) "/staging"
                            dataPath.
Proof.
  pose proof (mod_removal_sequencing
                (sampleWorld (Rejected lockedDir) []) sampleStore
                [hardlink (Resolved tt)] "skyrim" "A" false
                {[ "A" := modA; "B" := modB; "C" := modC ]} modA
                eq_refl eq_refl eq_refl) as H.
  vm_compute firstStep in H.
  destruct H as (_ & _ & Hseq & _ & _ & H).
  destruct (H lockedDir) as (Hlast & _ & Htracked).
  { right. repeat split; reflexivity. }
  split; [exact Hlast|]. split; [exact Htracked|].
  destruct Hseq as (steps & rest & _ & Hout & _ & _ & _ & Hon).
  destruct (Hon eq_refl eq_refl) as (a & dataPath & Ha & Hsteps).
  exists steps, rest, a, dataPath. split; [exact Hout|]. split; [exact Ha|].
  exact Hsteps.
Defined.



(** ** Reconciliation *)

Section Refresh.

Context (env : Env) (st : IState).

Local Abbreviation refreshed := (Mods.refreshed env st).

Lemma elem_of_keys {A} (m : gmap string A) name :
  name ∈ keys m <-> is_Some (m !! name).
Proof.
  unfold keys. rewrite list_elem_of_fmap. split.
  - intros ([k x] & -> & Hin). apply elem_of_map_to_list in Hin. by exists x.
  - intros [x Hx]. exists (name, x). split; [done|].
    by apply elem_of_map_to_list.
Qed.

Lemma mapSeries_adds game added : forall t,
  mapSeries added (fun m => effect (Dispatch (AddMod game m))) t
  = (Resolved tt, t ++ adding game added).
Proof.
  induction added as [|m added IH]; intros t; simpl.
  - unfold resolve, adding. by rewrite app_nil_r.
  - unfold then_, effect. rewrite IH. unfold adding. simpl.
    by rewrite <- app_assoc.
Qed.

Lemma removeMissing_cons known game name names mod_ t :
  known !! name = Some mod_ ->
  removeMissing (Some known) game (name :: names) t
  = if isRemovableState (Some (mod_state mod_))
    then removeMissing (Some known) game names
                       (t ++ [Dispatch (RemoveMod game name)])
    else removeMissing (Some known) game names t.
Proof.
  intros Hmod. cbn [removeMissing mbind option_bind]. rewrite Hmod.
  unfold then_. by destruct (isRemovableState (Some (mod_state mod_))).
Qed.

Lemma removeMissing_run known game names : forall t,
  (forall name, name ∈ names -> is_Some (known !! name)) ->
  removeMissing (Some known) game names t
  = (Resolved tt, t ++ removing game (removable known names)).
Proof.
  induction names as [|name names IH]; intros t Hknown.
  - unfold resolve, removing. simpl. by rewrite app_nil_r.
  - destruct (Hknown name) as [mod_ Hmod]; [by left|].
    rewrite (removeMissing_cons _ _ _ _ _ _ Hmod).
    unfold removable. rewrite filter_cons. rewrite Hmod.
    change (mod_state <$> Some mod_) with (Some (mod_state mod_)).
    destruct (isRemovableState (Some (mod_state mod_))) eqn:Hstate.
    + rewrite decide_True by done. rewrite IH.
      * unfold removing. simpl. by rewrite <- app_assoc.
      * intros n Hn. apply Hknown. by right.
    + rewrite decide_False by done. rewrite IH; [done|].
      intros n Hn. apply Hknown. by right.
Qed.

Lemma refreshMods_run game known present t :
  stagingContents env (installPath env st) = Resolved present ->
  refreshMods env (installPath env st) (keys known)
              (fun m => effect (Dispatch (AddMod game m)))
              (removeMissing (Some known) game) t
  = (Resolved tt, t ++ refreshed game known present).
Proof.
  intros Hdisk. unfold refreshMods, then_ at 1, external. rewrite Hdisk.
  unfold then_. rewrite mapSeries_adds, removeMissing_run.
  - unfold refreshed. by rewrite <- !app_assoc.
  - intros name Hin. apply list_elem_of_filter in Hin as [_ Hin].
    by apply elem_of_keys.
Qed.

Lemma refreshed_reconciled game known present extra :
  (forall ev, ev ∈ extra -> forall a, ev <> Dispatch a) ->
  reconciled game known present (refreshed game known present ++ extra).
Proof.
  intros Hextra. unfold refreshed, adding, removing. split.
  - intros m. rewrite elem_of_app, elem_of_cons, elem_of_app, !list_elem_of_fmap.
    split.
    + intros [[?|[(m' & [= ->] & Hin)|(n & ? & _)]]|Hx]; try done.
      * apply list_elem_of_filter in Hin as [Hnew Hin]. split; [done|].
        rewrite elem_of_keys in Hnew. by apply eq_None_not_Some.
      * by apply Hextra with (a := AddMod game m) in Hx.
    + intros [Hin Hnew]. left. right. left. exists m. split; [done|].
      apply list_elem_of_filter. split; [|done].
      rewrite elem_of_keys. by apply eq_None_not_Some.
  - intros name.
    rewrite elem_of_app, elem_of_cons, elem_of_app, !list_elem_of_fmap.
    unfold removable. split.
    + intros [[?|[(m' & ? & _)|(n & [= ->] & Hin)]]|Hx]; try done.
      * apply list_elem_of_filter in Hin as [Hstate Hin].
        apply list_elem_of_filter in Hin as [Hgone Hin].
        apply elem_of_keys in Hin as [mod_ Hmod]. exists mod_.
        rewrite Hmod in Hstate. simpl in Hstate.
        by apply bool_decide_eq_true in Hstate.
      * by apply Hextra with (a := RemoveMod game name) in Hx.
    + intros (mod_ & Hmod & Hgone & Hstate). left. right. right.
      exists name. split; [done|].
      apply list_elem_of_filter. split.
      * rewrite Hmod. simpl. by apply bool_decide_eq_true.
      * apply list_elem_of_filter. split; [done|].
        apply elem_of_keys. by exists mod_.
Qed.

Lemma onPathsChanged_run previous current present :
  previous !! activeGameId env st <> current !! activeGameId env st ->
  stagingContents env (installPath env st) = Resolved present ->
  onPathsChanged env st previous current
  = refreshed (activeGameId env st)
              (default ∅ (mods st !! activeGameId env st)) present.
Proof.
  intros Hchanged Hdisk. unfold onPathsChanged.
  rewrite bool_decide_eq_true_2 by done.
  unfold catch_, then_ at 1.
  destruct (mods st !! activeGameId env st) as [known|]; simpl.
  - by rewrite (refreshMods_run _ known present [] Hdisk).
  - unfold refreshMods, then_, external. rewrite Hdisk.
    rewrite mapSeries_adds. unfold refreshed, removable, keys.
    rewrite map_to_list_empty. simpl. unfold removing. simpl.
    by rewrite app_nil_r.
Qed.

Lemma onGameModeActivated_run activators newGame discoveryPath game present t1 :
  (discovered st !! activeGameId env st) ≫= disc_path = Some discoveryPath ->
  getGame env (activeGameId env st) = Some game ->
  stagingContents env (installPath env st) = Resolved present ->
  (let '(started, prom) :=
     activatorProm env st activators newGame game discoveryPath in
   prom started) = (Resolved tt, t1) ->
  onGameModeActivated env st activators newGame
  = t1 ++ refreshed newGame (default ∅ (mods st !! newGame)) present
       ++ [EmitEvent "mods-refreshed"].
Proof.
  intros Hdisc Hgame Hdisk Hprom. unfold onGameModeActivated.
  rewrite Hdisc, Hgame.
  destruct (activatorProm env st activators newGame game discoveryPath)
    as [started prom].
  unfold catch_, catchClass, then_ at 1 2. rewrite Hprom.
  rewrite (refreshMods_run _ _ present t1 Hdisk). unfold effect. simpl.
  by rewrite <- app_assoc.
Qed.

End Refresh.

(** C9: when the staging directory can be read, a refresh dispatches
    [addMod] exactly for the mods found there that the store does not know,
    and [removeMod] exactly for the known mods that are missing there and
    whose state is "downloaded" or "installed"; a missing mod in any other
    state stays.  This holds for the refresh of [onPathsChanged] and for the
    one [onGameModeActivated] runs once its preparation has resolved. *)
Theorem refresh_reconciles :
  forall (env : Env) (st : IState) (activators : list IDeploymentMethod)
         (newGame : string) (previous current : gmap string string)
         (present : list IMod),
    stagingContents env (installPath env st) = Resolved present ->
    (previous !! activeGameId env st <> current !! activeGameId env st ->
     reconciled (activeGameId env st)
                (default ∅ (mods st !! activeGameId env st)) present
                (onPathsChanged env st previous current))
    /\ (forall discoveryPath game t1,
          (discovered st !! activeGameId env st) ≫= disc_path
          = Some discoveryPath ->
          getGame env (activeGameId env st) = Some game ->
          (let '(started, prom) :=
             activatorProm env st activators newGame game discoveryPath in
           prom started) = (Resolved tt, t1) ->
          exists suffix,
            onGameModeActivated env st activators newGame = t1 ++ suffix
            /\ reconciled newGame (default ∅ (mods st !! newGame)) present
                          suffix).
Proof.
  intros env st activators newGame previous current present Hdisk. split.
  - intros Hchanged. rewrite (onPathsChanged_run _ _ _ _ _ Hchanged Hdisk).
    rewrite <- (app_nil_r (refreshed _ _ _ _ _)).
    apply refreshed_reconciled. intros ev Hin. by apply elem_of_nil in Hin.
  - intros discoveryPath game t1 Hdisc Hgame Hprom.
    eexists. split.
    + by apply (onGameModeActivated_run env st activators newGame discoveryPath
                                        game present t1).
    + apply refreshed_reconciled. intros ev Hin a.
      apply list_elem_of_singleton in Hin. by subst.
Qed.

Lemma refresh_reconciles_witness :
  let t := onPathsChanged stagingAD sampleStore ∅ {[ "skyrim" := "/new" ]} in
  Dispatch (AddMod "skyrim" modD) ∈ t
  /\ Dispatch (RemoveMod "skyrim" "C") ∈ t
  /\ (Dispatch (RemoveMod "skyrim" "B") ∉ t)
  /\ (Dispatch (RemoveMod "skyrim" "A") ∉ t).
Proof.
  intros t.
  destruct (proj1 (refresh_reconciles stagingAD sampleStore [] "skyrim"
                                      ∅ {[ "skyrim" := "/new" ]} [modA; modD]
                                      eq_refl))
    as [Hadd Hdrop].
  { vm_compute. discriminate. }
  fold t in Hadd, Hdrop. split; [|split; [|split]].
  - apply Hadd. split; [|reflexivity]. apply elem_of_cons. right.
    apply elem_of_cons. by left.
  - apply Hdrop. exists modC. split; [reflexivity|]. split.
    + change ("C" ∉ ["A"; "D"]).
      rewrite !elem_of_cons, elem_of_nil. by intros [|[|]].
    + apply elem_of_cons. right. apply elem_of_cons. by left.
  - rewrite Hdrop. intros (mod_ & Hmod & _ & Hstate).
    change (Some modB = Some mod_) in Hmod. simplify_eq.
    change ("downloading" ∈ ["downloaded"; "installed"]) in Hstate.
    rewrite !elem_of_cons, elem_of_nil in Hstate. by destruct Hstate as [|[|]].
  - rewrite Hdrop. intros (mod_ & _ & Hgone & _). apply Hgone.
    apply elem_of_cons. by left.
Defined.

End ModsSpec.

(** * Further properties of the filesystem layer *)

Module FsMore.

Import Fs FsSpec.

Section Elevation.

Context {V : Type} (env : Env V).

Lemma settled_sticky evs : forall st p,
  settled st = Some p -> settled (foldl (ipcStep env) st evs) = Some p.
Proof.
  induction evs as [|ev evs IH]; intros st p Hst; [done|].
  simpl. apply IH. destruct ev; simpl; repeat case_match; simpl;
    by rewrite ?Hst.
Qed.

Lemma ipcStep_first ev :
  settled (ipcStep env (mkElevation false None []) ev)
  = Some (firstOutcome env ev).
Proof. destruct ev; simpl; by repeat case_match. Qed.

Lemma ipcStep_only_stops st ev :
  Forall (fun ev => ev = EvServerStop) (stops st) ->
  Forall (fun ev => ev = EvServerStop) (stops (ipcStep env st ev)).
Proof.
  intros H. destruct ev; simpl; repeat case_match; simpl; try done;
    apply Forall_app; split; try done; by repeat constructor.
Qed.

Lemma foldl_ipcStep_only_stops evs : forall st,
  Forall (fun ev => ev = EvServerStop) (stops st) ->
  Forall (fun ev => ev = EvServerStop) (stops (foldl (ipcStep env) st evs)).
Proof.
  induction evs as [|ev evs IH]; intros st H; simpl; [done|].
  apply IH. by apply ipcStep_only_stops.
Qed.

Lemma elevated_stops filePath userId t :
  exists r stopped,
    elevated env filePath userId t
    = Some (r, t ++ EvElevated filePath userId :: stopped)
    /\ Forall (fun ev => ev = EvServerStop) stopped.
Proof.
  unfold elevated. eexists _, _. split; [reflexivity|].
  apply foldl_ipcStep_only_stops. constructor.
Qed.

Lemma only_stops_count f (t : Trace) :
  f EvServerStop = false ->
  Forall (fun ev => ev = EvServerStop) t -> count f t = 0.
Proof.
  intros Hf. induction 1 as [|ev t -> _ IH]; [done|].
  rewrite count_cons, Hf. done.
Qed.

Lemma elevated_head filePath userId t ev rest :
  ipcEvents env (count isElevated t) = ev :: rest ->
  exists stopped,
    elevated env filePath userId t
    = Some (firstOutcome env ev, t ++ EvElevated filePath userId :: stopped)
    /\ Forall (fun ev => ev = EvServerStop) stopped.
Proof.
  intros Hev.
  destruct (elevated_stops filePath userId t) as (r & stopped & Hrun & Hq).
  exists stopped. split; [|done]. rewrite Hrun. f_equal. f_equal.
  unfold elevated in Hrun. rewrite Hev in Hrun. simpl in Hrun.
  rewrite (settled_sticky rest _ _ (ipcStep_first ev)) in Hrun.
  by simplify_eq.
Qed.

End Elevation.

(** X1: the promise of [elevated] is settled by the first event of its IPC
    server and by nothing after it: a rejection of [runElevated] with code 5
    gives [UserCanceled], with another code an "OS error" [Error], a server
    error an [Error], a disconnect resolves; without any event it stays
    pending. *)
Theorem elevated_settles_on_first_event :
  forall (V : Type) (env : Env V) (filePath : option string) (userId : string)
         (t : Trace),
    (ipcEvents env (count isElevated t) = [] ->
     elevated env filePath userId t
     = Some (Pending, t ++ [EvElevated filePath userId]))
    /\ (forall ev rest,
          ipcEvents env (count isElevated t) = ev :: rest ->
          fst <$> elevated env filePath userId t = Some (firstOutcome env ev)).
Proof.
  intros V env filePath userId t. split.
  - intros Hev. unfold elevated. by rewrite Hev.
  - intros ev rest Hev.
    destruct (elevated_head env filePath userId t ev rest Hev) as (stopped & -> & _).
    done.
Qed.

Lemma elevated_settles_witness :
  fst <$> elevated grantedWorld (Some "/mods/a.esp") "user-1" []
  = Some (Resolved tt)
  /\ fst <$> elevated declinedWorld (Some "/mods/a.esp") "user-1" []
     = Some (Rejected (newUserCanceled declinedWorld)).
Proof.
  split.
  - exact (proj2 (elevated_settles_on_first_event
                    nat grantedWorld (Some "/mods/a.esp") "user-1" [])
                 SocketDisconnected [Disconnect] eq_refl).
  - exact (proj2 (elevated_settles_on_first_event
                    unit declinedWorld (Some "/mods/a.esp") "user-1" [])
                 (RunElevatedFailed uacDeclined) [] eq_refl).
Defined.


(** ** Errors nobody is asked about *)

Section Unasked.

Context {V : Type} (env : Env V) (stackErr : string).

Lemma errorHandler_unasked err t :
  unasked env err = true ->
  errorHandler env err stackErr t = Some (Rejected (restackErr err stackErr), t).
Proof.
  unfold unasked, recoverable. intros H.
  unfold errorHandler, errorRepeat.
  destruct (codeIs err "EBUSY"); [|destruct (codeIs err "ENOSPC");
                                   [|destruct (codeIs err "EPERM")]];
    simpl in H.
  - apply andb_true_iff in H as [H _]. apply negb_true_iff in H.
    unfold then_ at 1, catch_ at 1. rewrite busyRetry_run, H. by unfold_m.
  - apply andb_true_iff in H as [H _]. apply negb_true_iff in H.
    unfold then_ at 1, catch_ at 1. rewrite nospcQuery_run, H. by unfold_m.
  - by rewrite andb_false_r in H.
  - by unfold_m.
Qed.

Lemma errorHandler_blind err t :
  dialogDefined env = false -> codeIs err "EPERM" = true ->
  errorHandler env err stackErr t = Some (Resolved tt, t).
Proof.
  intros Hd Hperm. unfold errorHandler, errorRepeat.
  pose proof (proj1 (codeIs_true _ _) Hperm) as Hcode.
  rewrite (codeIs_other err "EPERM" "EBUSY"), (codeIs_other err "EPERM" "ENOSPC"), Hperm
    by done.
  unfold then_ at 1 2, catch_ at 1. rewrite unlockConfirm_run, Hd. by unfold_m.
Qed.

Lemma wrapper_blind n : forall fuel v t,
  dialogDefined env = false -> n < fuel ->
  (forall i, i < n -> exists e,
      underlying env (count isCall t + i) = Rejected e /\ codeIs e "EPERM" = true) ->
  underlying env (count isCall t + n) = Resolved v ->
  wrapper env fuel stackErr t = Some (Resolved v, t ++ replicate (S n) EvCall).
Proof.
  induction n as [|n IH]; intros [|fuel] v t Hd Hfuel Hfail Hok; try lia;
    simpl; unfold catch_ at 1, call.
  - rewrite Nat.add_0_r in Hok. by rewrite Hok.
  - destruct (Hfail 0) as (e & He & Hperm); [lia|].
    rewrite Nat.add_0_r in He. rewrite He. unfold then_.
    rewrite errorHandler_blind by done.
    rewrite (IH fuel v); [by rewrite <- app_assoc|done|lia| |].
    + intros i Hi. destruct (Hfail (S i)) as (e' & He' & Hp'); [lia|].
      exists e'. split; [|done]. rewrite <- He'. f_equal. quiet_trace.
    + rewrite <- Hok. f_equal. quiet_trace.
Qed.

Lemma wrapper_blind_forever fuel : forall t,
  dialogDefined env = false ->
  (forall k, exists e, underlying env k = Rejected e /\ codeIs e "EPERM" = true) ->
  wrapper env fuel stackErr t = None.
Proof.
  induction fuel as [|fuel IH]; intros t Hd Hfail; [done|].
  simpl. unfold catch_ at 1, call.
  destruct (Hfail (count isCall t)) as (e & -> & Hperm).
  unfold then_. rewrite errorHandler_blind by done. by apply IH.
Qed.

End Unasked.

Lemma unasked_not_EPERM {V} (env : Env V) err :
  unasked env err = true -> codeIs err "EPERM" = false.
Proof.
  unfold unasked, recoverable. destruct (codeIs err "EPERM"); [|done].
  by rewrite !orb_true_r, andb_false_r.
Qed.

(** X2: an error the handler has nobody to ask about - a code other than
    EBUSY, ENOSPC and EPERM, or, without a dialog, any code but EPERM - ends a
    wrapped call at once: one call of the primitive, no dialog, and the
    rejection is the primitive's error with the stack of the call site. *)
Theorem unasked_errors_reject_at_once :
  forall (V : Type) (env : Env V) (stackErr : string) (fuel : nat) (t : Trace)
         (err : JsError),
    underlying env (count isCall t) = Rejected err ->
    unasked env err = true ->
    genWrapperAsync env (S fuel) stackErr t
    = Some (Rejected (restackErr err stackErr), t ++ [EvCall]).
Proof.
  intros V env stackErr fuel t err Hcall Hun.
  unfold genWrapperAsync. simpl. unfold catch_ at 1, call. rewrite Hcall.
  unfold then_. by rewrite errorHandler_unasked.
Qed.

Lemma unasked_errors_witness :
  genWrapperAsync (V:=unit) notFoundWorld 1 "site" []
  = Some (Rejected (restackErr (errno "ENOTDIR" "/mods/a.esp") "site"), [EvCall]).
Proof.
  exact (unasked_errors_reject_at_once unit notFoundWorld "site" 0 []
           (errno "ENOTDIR" "/mods/a.esp") eq_refl eq_refl).
Defined.

(** X3: the operations with a loop of their own treat such an error the same
    way: [copy] (the identity check switched off), [rename], and, unless the
    code is ENOENT, [remove] and [unlink] reject after one call of the
    primitive, without a dialog and without a [stat]. *)
Theorem operations_reject_unasked_errors_at_once :
  forall (env : Env unit) (stackErr src dest dirPath : string) (fuel : nat)
         (t : Trace) (err : JsError),
    underlying env (count isCall t) = Rejected err ->
    unasked env err = true ->
    let out := Some (Rejected (restackErr err stackErr), t ++ [EvCall]) in
    copyAsync env (S fuel) stackErr src dest (Some (mkCopyOptions (Some true))) t
    = out
    /\ renameAsync env (S fuel) stackErr src dest t = out
    /\ (codeIs err "ENOENT" = false ->
        removeAsync env (S fuel) stackErr dirPath t = out
        /\ unlinkAsync env (S fuel) stackErr dirPath t = out).
Proof.
  intros env stackErr src dest dirPath fuel t err Hcall Hun out.
  pose proof (errorHandler_unasked env stackErr err (t ++ [EvCall]) Hun) as Hh.
  repeat split.
  - unfold copyAsync. simpl. unfold catch_, then_ at 1, resolve, call.
    rewrite Hcall. unfold then_. by rewrite Hh.
  - unfold renameAsync. simpl. unfold catch_ at 1, call. rewrite Hcall.
    rewrite (unasked_not_EPERM env err Hun). unfold then_. by rewrite Hh.
  - unfold removeAsync. simpl. unfold catch_ at 1, call. rewrite Hcall, H.
    unfold then_. by rewrite Hh.
  - unfold unlinkAsync. simpl. unfold catch_ at 1, call. rewrite Hcall, H.
    unfold then_. by rewrite Hh.
Qed.

Lemma operations_reject_unasked_witness :
  let out := Some (Rejected (restackErr (errno "ENOTDIR" "/mods/a.esp") "site"),
                   [EvCall]) in
  copyAsync notFoundWorld 1 "site" "/mods/a.esp" "/mods/b.esp"
            (Some (mkCopyOptions (Some true))) [] = out
  /\ renameAsync notFoundWorld 1 "site" "/mods/a.esp" "/mods/b.esp" [] = out
  /\ removeAsync notFoundWorld 1 "site" "/mods/a.esp" [] = out
  /\ unlinkAsync notFoundWorld 1 "site" "/mods/a.esp" [] = out.
Proof.
  intros out.
  destruct (operations_reject_unasked_errors_at_once
              notFoundWorld "site" "/mods/a.esp" "/mods/b.esp" "/mods/a.esp" 0 []
              (errno "ENOTDIR" "/mods/a.esp") eq_refl eq_refl)
    as (Hcopy & Hrename & Hrest).
  destruct (Hrest eq_refl) as [Hremove Hunlink].
  exact (conj Hcopy (conj Hrename (conj Hremove Hunlink))).
Defined.

(** X4: without a dialog a permission error is retried without anybody
    being asked and without a delay.  If the primitive fails [n] times with
    EPERM and then succeeds, the call resolves after [n + 1] calls of the
    primitive and nothing else; if it fails with EPERM every time, the
    promise chain never ends, whatever the budget. *)
Theorem headless_permission_errors_are_retried_unasked :
  forall (V : Type) (env : Env V) (stackErr : string) (t : Trace),
    dialogDefined env = false ->
    (forall n fuel v,
        n < fuel ->
        (forall i, i < n -> exists e,
            underlying env (count isCall t + i) = Rejected e
            /\ codeIs e "EPERM" = true) ->
        underlying env (count isCall t + n) = Resolved v ->
        genWrapperAsync env fuel stackErr t
        = Some (Resolved v, t ++ replicate (S n) EvCall))
    /\ ((forall k, exists e,
            underlying env k = Rejected e /\ codeIs e "EPERM" = true) ->
        forall fuel, genWrapperAsync env fuel stackErr t = None).
Proof.
  intros V env stackErr t Hd. split.
  - intros n fuel v Hfuel Hfail Hok. by apply wrapper_blind.
  - intros Hfail fuel. by apply wrapper_blind_forever.
Qed.

Lemma headless_permission_errors_witness :
  genWrapperAsync headlessTwice 5 "site" []
  = Some (Resolved 7, [EvCall; EvCall; EvCall])
  /\ forall fuel, genWrapperAsync headlessWorld fuel "site" [] = None.
Proof.
  split.
  - refine (proj1 (headless_permission_errors_are_retried_unasked
                     nat headlessTwice "site" [] eq_refl) 2 5 7 _ _ eq_refl).
    + lia.
    + intros [|[|i]] Hi; try lia; eexists; split; reflexivity.
  - refine (proj2 (headless_permission_errors_are_retried_unasked
                     nat headlessWorld "site" [] eq_refl) _).
    intros k. eexists. split; reflexivity.
Defined.

(** ** The handler, case by case *)

Section HandlerRun.

Context {V : Type} (env : Env V) (stackErr : string).

Lemma errorHandler_run err t :
  let filePath := jsOr (e_dest err) (e_path err) in
  errorHandler env err stackErr t =
  if codeIs err "EBUSY" then
    if dialogDefined env
    then ask env stackErr (busyOptions filePath (wholocks env filePath)) t
    else Some (Rejected (restackErr err stackErr), t)
  else if codeIs err "ENOSPC" then
    if dialogDefined env then ask env stackErr nospcOptions t
    else Some (Rejected (restackErr err stackErr), t)
  else if codeIs err "EPERM" then
    if dialogDefined env then
      let o := unlockOptions filePath (wholocks env filePath) in
      let c := showMessageBox env (count isPrompt t) o in
      if bool_decide (c = 2) then
        match elevated env filePath (getUserId env) (t ++ [EvPrompt o c]) with
        | Some (Resolved _, t1) => Some (Resolved tt, t1)
        | Some (Rejected elevatedErr, t1) =>
            Some (Rejected (restackErr err stackErr),
                  t1 ++ [EvLog "error" "failed to acquire permission" filePath
                               (e_message elevatedErr)])
        | Some (Pending, t1) => Some (Pending, t1)
        | None => None
        end
      else ask env stackErr o t
    else Some (Resolved tt, t)
  else Some (Rejected (restackErr err stackErr), t).
Proof.
  intros filePath. unfold errorHandler, errorRepeat, ask. fold filePath.
  destruct (codeIs err "EBUSY"); [|destruct (codeIs err "ENOSPC");
                                   [|destruct (codeIs err "EPERM")]].
  - unfold then_ at 1, catch_ at 1. rewrite busyRetry_run.
    destruct (dialogDefined env); simpl; [|by unfold_m].
    by case_bool_decide.
  - unfold then_ at 1, catch_ at 1. rewrite nospcQuery_run.
    destruct (dialogDefined env); simpl; [|by unfold_m].
    by case_bool_decide.
  - unfold then_ at 1 2, catch_ at 1. rewrite unlockConfirm_run. cbv zeta.
    generalize (elevated env filePath (getUserId env)). intros el.
    destruct (dialogDefined env); simpl; [|by unfold_m].
    case_bool_decide as Hc0.
    { rewrite bool_decide_eq_false_2 by lia. done. }
    case_bool_decide as Hc2; simpl; [|by unfold_m].
    unfold catch_, then_ at 1.
    destruct (el _) as [[[[]|e|] t1]|].
    all: by unfold_m.
  - by unfold_m.
Qed.

End HandlerRun.

(** ** Runs of the generic wrapper *)

Section WrapperRuns.

Context {V : Type} (env : Env V) (stackErr : string).

Lemma wrapper_outcome fuel : forall t r t',
  wrapper env fuel stackErr t = Some (r, t') ->
  exists k, count isCall t' = S k /\ count isCall t <= k /\
    match r with
    | Resolved v => underlying env k = Resolved v
    | Rejected e =>
        e_stack e = Some stackErr
        /\ (e = restackErr (newUserCanceled env) stackErr
            \/ exists e0, underlying env k = Rejected e0
                          /\ e = restackErr e0 stackErr)
    | Pending => True
    end.
Proof.
  induction fuel as [|fuel IH]; intros t r t' Hrun; [done|].
  simpl in Hrun. unfold catch_ at 1, call in Hrun.
  destruct (underlying env (count isCall t)) as [v|err|] eqn:Hcall;
    simplify_eq.
  - exists (count isCall t). split; [quiet_trace|]. by split.
  - unfold then_ in Hrun.
    destruct (errorHandler_handled env err stackErr (t ++ [EvCall]))
      as (r1 & t1 & Heq & Hh).
    rewrite Heq in Hrun.
    pose proof (handled_count env isCall _ _ _ _ _ foreign_isCall Hh) as Hc.
    rewrite count_snoc in Hc. simpl in Hc.
    destruct r1 as [[]|e1|]; simplify_eq.
    + destruct (IH _ _ _ Hrun) as (k & Hk & Hle & Hout).
      exists k. split; [done|]. split; [lia|done].
    + exists (count isCall t). split; [lia|]. split; [lia|].
      destruct (handled_rejected _ _ _ _ _ _ Hh) as [->| ->];
        (split; [done|]); [right|left]; eauto.
    + exists (count isCall t). split; [lia|]. split; [lia|done].
  - exists (count isCall t). split; [quiet_trace|]. by split.
Qed.

Lemma handled_prompts err t r t' :
  dialogDefined env = true ->
  handled env err stackErr t r t' ->
  exists asked, count isPrompt t' = count isPrompt t + asked /\ asked <= 1
                /\ (forall u, r = Resolved u -> asked = 1)
                /\ (r = Pending -> asked = 1).
Proof.
  intros Hd Hh.
  assert (forall rest, Forall (fun ev => quiet ev = true) rest ->
                       count isPrompt rest = 0) as Hq.
  { intros rest. apply quiet_count. by intros []. }
  destruct Hh as [|Hd' _|o _|o c rest _ _ Hrest|o rest _ Hrest|o rest _ Hrest];
    try congruence.
  - exists 0. split; [lia|]. repeat split; (lia || done).
  - exists 1. split; [quiet_trace|]. repeat split; (lia || done).
  - exists 1. rewrite count_app, count_cons, (Hq _ Hrest). simpl.
    split; [lia|]. repeat split; (lia || done).
  - exists 1. rewrite count_app, count_cons, (Hq _ Hrest). simpl.
    split; [lia|]. repeat split; (lia || done).
  - exists 1. rewrite count_app, count_cons, (Hq _ Hrest). simpl.
    split; [lia|]. repeat split; (lia || done).
Qed.

Lemma wrapper_economy fuel : forall t r t',
  dialogDefined env = true ->
  wrapper env fuel stackErr t = Some (r, t') ->
  exists calls prompts,
    count isCall t' = count isCall t + calls
    /\ count isPrompt t' = count isPrompt t + prompts
    /\ prompts <= calls <= S prompts
    /\ (forall v, r = Resolved v -> calls = S prompts).
Proof.
  induction fuel as [|fuel IH]; intros t r t' Hd Hrun; [done|].
  simpl in Hrun. unfold catch_ at 1, call in Hrun.
  destruct (underlying env (count isCall t)) as [v|err|] eqn:Hcall;
    simplify_eq.
  - exists 1, 0. rewrite !count_snoc. simpl. repeat split; lia.
  - unfold then_ in Hrun.
    destruct (errorHandler_handled env err stackErr (t ++ [EvCall]))
      as (r1 & t1 & Heq & Hh).
    rewrite Heq in Hrun.
    pose proof (handled_count env isCall _ _ _ _ _ foreign_isCall Hh) as Hc.
    destruct (handled_prompts _ _ _ _ Hd Hh) as (asked & Hp & Hle & Hres & Hpend).
    rewrite count_snoc in Hc, Hp. simpl in Hc, Hp.
    destruct r1 as [[]|e1|]; simplify_eq.
    + destruct (IH _ _ _ Hd Hrun) as (calls & prompts & Hc' & Hp' & Hb & Hr).
      rewrite (Hres tt eq_refl) in Hp.
      exists (S calls), (S prompts). repeat split; try lia.
      intros v Hv. rewrite (Hr v Hv). done.
    + exists 1, asked. repeat split; try lia; done.
    + rewrite (Hpend eq_refl) in Hp. exists 1, 1. repeat split; try lia; done.
  - exists 1, 0. rewrite !count_snoc. simpl. repeat split; try lia; done.
Qed.

End WrapperRuns.

(** X5: whatever a wrapped call ends in comes from the last call of the
    primitive.  A resolved call returns that call's value; a rejected one
    carries the stack of the call site and is either that call's own error
    or the [UserCanceled] of a dialog - the wrapper never invents an error
    and never reports an earlier attempt. *)
Theorem wrapped_call_reports_the_last_attempt :
  forall (V : Type) (env : Env V) (stackErr : string) (fuel : nat)
         (t : Trace) (r : Promise V) (t' : Trace),
    genWrapperAsync env fuel stackErr t = Some (r, t') ->
    exists k, count isCall t' = S k /\ count isCall t <= k /\
      match r with
      | Resolved v => underlying env k = Resolved v
      | Rejected e =>
          e_stack e = Some stackErr
          /\ (e = restackErr (newUserCanceled env) stackErr
              \/ exists e0, underlying env k = Rejected e0
                            /\ e = restackErr e0 stackErr)
      | Pending => True
      end.
Proof.
  intros V env stackErr fuel t r t' Hrun. by eapply wrapper_outcome.
Qed.

Lemma wrapped_call_reports_witness :
  exists k,
    count isCall [EvCall; EvPrompt (busyOptions (Some "/mods/a.esp") []) 1;
                  EvCall; EvPrompt (unlockOptions (Some "/mods/a.esp") []) 1;
                  EvCall] = S k
    /\ 0 <= k /\ underlying twoFailures k = Resolved 7.
Proof.
  exact (wrapped_call_reports_the_last_attempt
           nat twoFailures "site" 3 [] (Resolved 7)
           [EvCall; EvPrompt (busyOptions (Some "/mods/a.esp") []) 1;
            EvCall; EvPrompt (unlockOptions (Some "/mods/a.esp") []) 1;
            EvCall] eq_refl).
Defined.

(** X6: with a dialog, the primitive is never called again without the
    user having been asked.  In every run of a wrapped call the number of
    dialogs shown is the number of calls of the primitive or one less, and a
    call that resolves has shown exactly one dialog per failed attempt. *)
Theorem no_retry_without_asking :
  forall (V : Type) (env : Env V) (stackErr : string) (fuel : nat)
         (t : Trace) (r : Promise V) (t' : Trace),
    dialogDefined env = true ->
    genWrapperAsync env fuel stackErr t = Some (r, t') ->
    exists calls prompts,
      count isCall t' = count isCall t + calls
      /\ count isPrompt t' = count isPrompt t + prompts
      /\ prompts <= calls <= S prompts
      /\ (forall v, r = Resolved v -> calls = S prompts).
Proof.
  intros V env stackErr fuel t r t' Hd Hrun. by eapply wrapper_economy.
Qed.

Lemma no_retry_without_asking_witness :
  exists calls prompts,
    count isCall [EvCall; EvPrompt (busyOptions (Some "/mods/a.esp") []) 1;
                  EvCall; EvPrompt (unlockOptions (Some "/mods/a.esp") []) 1;
                  EvCall] = 0 + calls
    /\ count isPrompt [EvCall; EvPrompt (busyOptions (Some "/mods/a.esp") []) 1;
                       EvCall; EvPrompt (unlockOptions (Some "/mods/a.esp") []) 1;
                       EvCall] = 0 + prompts
    /\ prompts <= calls <= S prompts
    /\ (forall v, Resolved 7 = Resolved v -> calls = S prompts).
Proof.
  exact (no_retry_without_asking
           nat twoFailures "site" 3 [] (Resolved 7)
           [EvCall; EvPrompt (busyOptions (Some "/mods/a.esp") []) 1;
            EvCall; EvPrompt (unlockOptions (Some "/mods/a.esp") []) 1;
            EvCall] eq_refl eq_refl).
Defined.

(** ** Answers to the dialogs *)

Section Answers.

Context {V : Type} (env : Env V) (stackErr : string).

Lemma errorHandler_cancel err t :
  dialogDefined env = true -> recoverable err = true ->
  (forall o, showMessageBox env (count isPrompt t) o = 0) ->
  exists o, errorHandler env err stackErr t
            = Some (Rejected (restackErr (newUserCanceled env) stackErr),
                    t ++ [EvPrompt o 0]).
Proof.
  intros Hd Hr Hans. rewrite errorHandler_run. unfold recoverable in Hr.
  rewrite Hd. cbv zeta. unfold ask. rewrite !Hans. simpl.
  destruct (codeIs err "EBUSY"); [eauto|].
  destruct (codeIs err "ENOSPC"); [eauto|].
  destruct (codeIs err "EPERM"); [eauto|done].
Qed.

Lemma errorHandler_granted err t ev rest :
  dialogDefined env = true -> codeIs err "EPERM" = true ->
  let filePath := jsOr (e_dest err) (e_path err) in
  let o := unlockOptions filePath (wholocks env filePath) in
  showMessageBox env (count isPrompt t) o = 2 ->
  ipcEvents env (count isElevated t) = ev :: rest ->
  isDisconnect ev = true ->
  exists stopped,
    errorHandler env err stackErr t
    = Some (Resolved tt,
            t ++ [EvPrompt o 2; EvElevated filePath (getUserId env)] ++ stopped)
    /\ Forall (fun ev => ev = EvServerStop) stopped
    /\ (rest = [] -> stopped = [EvServerStop]).
Proof.
  intros Hd Hperm filePath o Hans Hev Hdis.
  pose proof (proj1 (codeIs_true _ _) Hperm) as Hcode.
  rewrite errorHandler_run. fold filePath.
  rewrite (codeIs_other err "EPERM" "EBUSY"), (codeIs_other err "EPERM" "ENOSPC"),
    Hperm, Hd by done.
  cbv zeta. fold o. rewrite Hans.
  assert (ipcEvents env (count isElevated (t ++ [EvPrompt o 2])) = ev :: rest)
    as Hev'.
  { rewrite <- Hev. f_equal. quiet_trace. }
  destruct (elevated_head env filePath (getUserId env) (t ++ [EvPrompt o 2]) ev rest
                          Hev')
    as (stopped & Hrun & Hstops).
  assert (firstOutcome env ev = Resolved tt) as Hout by (by destruct ev).
  rewrite Hout in Hrun.
  exists stopped. split; [|split; [done|]].
  - change (bool_decide (2 = 2)) with true. cbv iota. rewrite Hrun.
    by rewrite <- app_assoc.
  - intros ->. unfold elevated in Hrun. rewrite Hev' in Hrun.
    destruct ev; try discriminate Hdis; simpl in Hrun;
      injection Hrun as Hrun; apply app_inv_head in Hrun; by simplify_eq.
Qed.

Lemma wrapper_cancel_after n : forall fuel t,
  dialogDefined env = true -> n < fuel ->
  (forall i, i <= n -> exists e,
      underlying env (count isCall t + i) = Rejected e /\ recoverable e = true) ->
  (forall i o, i < n -> showMessageBox env (count isPrompt t + i) o = 1) ->
  (forall o, showMessageBox env (count isPrompt t + n) o = 0) ->
  exists pre o,
    wrapper env fuel stackErr t
    = Some (Rejected (restackErr (newUserCanceled env) stackErr),
            pre ++ [EvPrompt o 0])
    /\ count isCall pre = count isCall t + S n
    /\ count isPrompt pre = count isPrompt t + n.
Proof.
  induction n as [|n IH]; intros [|fuel] t Hd Hfuel Hfail Hretry Hcancel;
    try lia; simpl; unfold catch_ at 1, call;
    destruct (Hfail 0) as (e & He & Hr); try lia;
    rewrite Nat.add_0_r in He; rewrite He; unfold then_.
  - destruct (errorHandler_cancel e (t ++ [EvCall]) Hd Hr) as (o & ->).
    { intros o. rewrite <- (Hcancel o). f_equal. quiet_trace. }
    exists (t ++ [EvCall]), o. split; [done|]. quiet_trace.
  - destruct (errorHandler_retry env stackErr Hd e (t ++ [EvCall]) Hr) as (o & ->).
    { intros o. rewrite <- (Hretry 0 o) by lia. f_equal. quiet_trace. }
    destruct (IH fuel ((t ++ [EvCall]) ++ [EvPrompt o 1]) Hd)
      as (pre & o' & -> & Hc & Hp); [lia| | | |].
    + intros i Hi. destruct (Hfail (S i)) as (e' & He' & Hr'); [lia|].
      exists e'. split; [|done]. rewrite <- He'. f_equal. quiet_trace.
    + intros i o' Hi. rewrite <- (Hretry (S i) o') by lia. f_equal. quiet_trace.
    + intros o'. rewrite <- (Hcancel o'). f_equal. quiet_trace.
    + exists pre, o'. split; [done|]. quiet_trace.
Qed.

End Answers.

(** X7: "Cancel" ends the loop at whatever round it is pressed.  If the
    primitive keeps failing with EBUSY, ENOSPC or EPERM, the user answers
    "Retry" [n] times and then "Cancel", the call is rejected with
    [UserCanceled] (stack of the call site) right after that dialog: the
    primitive was called [n + 1] times and is not called again. *)
Theorem cancel_stops_the_loop :
  forall (V : Type) (env : Env V) (stackErr : string) (n fuel : nat) (t : Trace),
    dialogDefined env = true -> n < fuel ->
    (forall i, i <= n -> exists e,
        underlying env (count isCall t + i) = Rejected e
        /\ recoverable e = true) ->
    (forall i o, i < n -> showMessageBox env (count isPrompt t + i) o = 1) ->
    (forall o, showMessageBox env (count isPrompt t + n) o = 0) ->
    exists pre o,
      genWrapperAsync env fuel stackErr t
      = Some (Rejected (restackErr (newUserCanceled env) stackErr),
              pre ++ [EvPrompt o 0])
      /\ count isCall pre = count isCall t + S n
      /\ count isPrompt pre = count isPrompt t + n.
Proof.
  intros V env stackErr n fuel t Hd Hfuel Hfail Hretry Hcancel.
  by apply wrapper_cancel_after.
Qed.

Lemma cancel_stops_the_loop_witness :
  exists pre o,
    genWrapperAsync retryThenCancel 9 "site" []
    = Some (Rejected (restackErr (newUserCanceled retryThenCancel) "site"),
            pre ++ [EvPrompt o 0])
    /\ count isCall pre = 0 + 2 /\ count isPrompt pre = 0 + 1.
Proof.
  apply (cancel_stops_the_loop nat retryThenCancel "site" 1 9 []).
  - reflexivity.
  - lia.
  - intros [|[|i]] Hi; try lia; eexists; split; reflexivity.
  - intros [|i] o Hi; [reflexivity|lia].
  - intros o. reflexivity.
Defined.

(** X8: "Give permission" that works.  When the primitive fails with EPERM,
    the user presses the third button of the permission dialog, and the
    first thing heard from the elevated helper is that it disconnected, the
    primitive is called a second time, and if that call succeeds the wrapped
    call resolves with its value: two calls, one dialog, one elevation,
    whatever the helper's server reports afterwards.  When the disconnect is
    all that is heard, the run is exactly: the call, the dialog, the
    elevation for the path of the error and the current user, the stop of
    the server, the second call. *)
Theorem granted_permission_retries :
  forall (V : Type) (env : Env V) (stackErr : string) (fuel : nat) (t : Trace)
         (err : JsError) (v : V) (ev : IpcEvent) (rest : list IpcEvent),
    dialogDefined env = true ->
    underlying env (count isCall t) = Rejected err ->
    codeIs err "EPERM" = true ->
    underlying env (S (count isCall t)) = Resolved v ->
    let filePath := jsOr (e_dest err) (e_path err) in
    let o := unlockOptions filePath (wholocks env filePath) in
    showMessageBox env (count isPrompt t) o = 2 ->
    ipcEvents env (count isElevated t) = ev :: rest ->
    isDisconnect ev = true ->
    exists t',
      genWrapperAsync env (S (S fuel)) stackErr t = Some (Resolved v, t')
      /\ count isCall t' = count isCall t + 2
      /\ count isPrompt t' = count isPrompt t + 1
      /\ count isElevated t' = count isElevated t + 1
      /\ (rest = [] ->
          t' = t ++ [EvCall; EvPrompt o 2; EvElevated filePath (getUserId env);
                     EvServerStop; EvCall]).
Proof.
  intros V env stackErr fuel t err v ev rest Hd Hcall Hperm Hnext filePath o
         Hans Hev Hdis.
  destruct (errorHandler_granted env stackErr err (t ++ [EvCall]) ev rest Hd Hperm)
    as (stopped & Hh & Hstops & Hsingle); [| |done|].
  { fold filePath. fold o. rewrite <- Hans. f_equal. quiet_trace. }
  { rewrite <- Hev. f_equal. quiet_trace. }
  fold filePath in Hh. fold o in Hh.
  assert (count isCall stopped = 0 /\ count isPrompt stopped = 0
          /\ count isElevated stopped = 0) as (Hc & Hp & He).
  { repeat split; by apply only_stops_count. }
  eexists. split.
  - unfold genWrapperAsync.
    change (wrapper env (S (S fuel)) stackErr)
      with (catch_ (call env) (fun err =>
              then_ (errorHandler env err stackErr)
                    (fun _ => wrapper env (S fuel) stackErr))).
    unfold catch_ at 1, call at 1. rewrite Hcall. unfold then_. rewrite Hh.
    simpl. unfold catch_ at 1, call.
    replace (count isCall _) with (S (count isCall t)).
    + rewrite Hnext. reflexivity.
    + rewrite !count_app, !count_cons, count_nil, Hc. simpl. lia.
  - rewrite !count_app, !count_cons, !count_nil, Hc, Hp, He.
    simpl. repeat split; try lia.
    intros ->. rewrite (Hsingle eq_refl). by rewrite <- !app_assoc.
Qed.

Lemma granted_permission_witness :
  genWrapperAsync grantedOnce 2 "site" []
  = Some (Resolved 7,
          [EvCall; EvPrompt (unlockOptions (Some "/mods/a.esp") []) 2;
           EvElevated (Some "/mods/a.esp") "user-1"; EvServerStop; EvCall]).
Proof.
  destruct (granted_permission_retries
              nat grantedOnce "site" 0 [] (errno "EPERM" "/mods/a.esp") 7
              Disconnect []
              eq_refl eq_refl eq_refl eq_refl eq_refl eq_refl eq_refl)
    as (t' & Hrun & _ & _ & _ & Hexact).
  rewrite Hrun. by rewrite (Hexact eq_refl).
Defined.

(** ** Elevation only by consent *)

Section Consent.

Context {V : Type} (env : Env V) (stackErr : string).

Lemma ask_grants o t r t' :
  title o <> "Access denied" \/ showMessageBox env (count isPrompt t) o <> 2 ->
  ask env stackErr o t = Some (r, t') ->
  count isElevated t' = count isElevated t /\ count isGrant t' = count isGrant t.
Proof.
  unfold ask. intros Hno [= _ <-]. rewrite !count_snoc.
  cbn [isElevated isGrant]. split; [lia|].
  destruct Hno as [Hno|Hno].
  - rewrite (bool_decide_eq_false_2 _ Hno). simpl. lia.
  - rewrite (bool_decide_eq_false_2 _ Hno), andb_false_r. lia.
Qed.

Lemma errorHandler_grants err t r t' :
  errorHandler env err stackErr t = Some (r, t') ->
  count isElevated t' + count isGrant t = count isElevated t + count isGrant t'.
Proof.
  rewrite errorHandler_run. cbv zeta.
  set (filePath := jsOr (e_dest err) (e_path err)).
  destruct (codeIs err "EBUSY"); [|destruct (codeIs err "ENOSPC");
                                   [|destruct (codeIs err "EPERM")]];
    [destruct (dialogDefined env)..|]; try (intros [= _ <-]; lia).
  - intros Hask. apply ask_grants in Hask as [-> ->]; [lia|by left].
  - intros Hask. apply ask_grants in Hask as [-> ->]; [lia|by left].
  - case_bool_decide as Hc.
    + destruct (elevated_stops env filePath (getUserId env)
                  (t ++ [EvPrompt (unlockOptions filePath (wholocks env filePath))
                                  (showMessageBox env (count isPrompt t)
                                     (unlockOptions filePath (wholocks env filePath)))]))
        as (r1 & stopped & -> & Hstops).
      rewrite Hc.
      assert (count isElevated stopped = 0 /\ count isGrant stopped = 0) as [He Hg].
      { split; by apply only_stops_count. }
      destruct r1 as [[]|e|]; intros [= _ <-];
        rewrite ?count_app, ?count_cons, ?count_nil, He, Hg; simpl; lia.
    + intros Hask. apply ask_grants in Hask as [-> ->]; [lia|by right].
Qed.

Lemma wrapper_grants fuel : forall t r t',
  wrapper env fuel stackErr t = Some (r, t') ->
  count isElevated t' + count isGrant t = count isElevated t + count isGrant t'.
Proof.
  induction fuel as [|fuel IH]; intros t r t' Hrun; [done|].
  simpl in Hrun. unfold catch_ at 1, call in Hrun.
  destruct (underlying env (count isCall t)) as [v|err|]; simplify_eq;
    try (rewrite !count_snoc; simpl; lia).
  unfold then_ in Hrun.
  destruct (errorHandler env err stackErr (t ++ [EvCall]))
    as [[r1 t1]|] eqn:Hh; [|done].
  apply errorHandler_grants in Hh. rewrite !count_snoc in Hh. simpl in Hh.
  destruct r1 as [[]|e1|]; simplify_eq; try lia.
  apply IH in Hrun. lia.
Qed.

End Consent.

(** X9: a wrapped call asks for elevated rights only by consent: in every
    run, the elevations started are exactly the permission dialogs answered
    with the third button, "Give permission".  No other answer, no other
    dialog, and no run without a dialog starts the elevated helper. *)
Theorem elevation_only_by_consent :
  forall (V : Type) (env : Env V) (stackErr : string) (fuel : nat)
         (r : Promise V) (t' : Trace),
    genWrapperAsync env fuel stackErr [] = Some (r, t') ->
    count isElevated t' = count isGrant t'.
Proof.
  intros V env stackErr fuel r t' Hrun.
  apply wrapper_grants in Hrun. rewrite !count_nil in Hrun. lia.
Qed.

Lemma elevation_only_by_consent_witness :
  count isElevated
        [EvCall; EvPrompt (unlockOptions (Some "/mods/a.esp") []) 2;
         EvElevated (Some "/mods/a.esp") "user-1"; EvServerStop; EvServerStop;
         EvCall]
  = count isGrant
        [EvCall; EvPrompt (unlockOptions (Some "/mods/a.esp") []) 2;
         EvElevated (Some "/mods/a.esp") "user-1"; EvServerStop; EvServerStop;
         EvCall].
Proof.
  exact (elevation_only_by_consent nat grantedWorld "site" 2 (Resolved 7)
           [EvCall; EvPrompt (unlockOptions (Some "/mods/a.esp") []) 2;
            EvElevated (Some "/mods/a.esp") "user-1"; EvServerStop; EvServerStop;
            EvCall] eq_refl).
Defined.

(** ** [rename] and [copy]: what the [stat]s decide *)

(** X10: a permission error of [rename] is looked at before anybody is
    asked.  If the destination is a directory the call is rejected at once
    with the EPERM error; if the destination cannot be inspected, the call is
    rejected with the error of [stat] instead of the EPERM error.  In both
    cases there is no dialog and no second attempt. *)
Theorem rename_permission_error_is_inspected_first :
  forall (env : Env unit) (stackErr src dest : string) (fuel : nat) (t : Trace)
         (err : JsError),
    underlying env (count isCall t) = Rejected err ->
    codeIs err "EPERM" = true ->
    (forall st, statAsync env dest = Resolved st -> isDirectory st = true ->
        renameAsync env (S fuel) stackErr src dest t
        = Some (Rejected (restackErr err stackErr), t ++ [EvCall; EvStat dest]))
    /\ (forall newErr, statAsync env dest = Rejected newErr ->
        renameAsync env (S fuel) stackErr src dest t
        = Some (Rejected (restackErr newErr stackErr),
                t ++ [EvCall; EvStat dest])).
Proof.
  intros env stackErr src dest fuel t err Hcall Hperm.
  unfold renameAsync. split.
  - intros st Hst Hdir. simpl. unfold catch_ at 1, call. rewrite Hcall, Hperm.
    unfold catch_, then_ at 1, stat. rewrite Hst, Hdir.
    unfold reject. by rewrite <- app_assoc.
  - intros newErr Hst. simpl. unfold catch_ at 1, call. rewrite Hcall, Hperm.
    unfold catch_, then_ at 1, stat. rewrite Hst.
    unfold reject. by rewrite <- app_assoc.
Qed.

Lemma rename_permission_error_witness :
  renameAsync ontoDirectory 1 "site" "/mods/a" "/mods/b" []
  = Some (Rejected (restackErr (errno "EPERM" "/mods/a") "site"),
          [EvCall; EvStat "/mods/b"])
  /\ renameAsync nothingThere 1 "site" "/mods/a" "/mods/b" []
     = Some (Rejected (restackErr (errno "ENOENT" "/mods/b") "site"),
             [EvCall; EvStat "/mods/b"]).
Proof.
  split.
  - exact (proj1 (rename_permission_error_is_inspected_first
                    ontoDirectory "site" "/mods/a" "/mods/b" 0 []
                    (errno "EPERM" "/mods/a") eq_refl eq_refl)
                 (mkStats 7 true) eq_refl eq_refl).
  - exact (proj2 (rename_permission_error_is_inspected_first
                    nothingThere "site" "/mods/a" "/mods/b" 0 []
                    (errno "EPERM" "/mods/a") eq_refl eq_refl)
                 (errno "ENOENT" "/mods/b") eq_refl).
Defined.

(** X11: with the identity check on, [copy] is not attempted when a path
    cannot be inspected: a failing [stat] of the source - ENOENT included -
    while the destination exists or is merely missing, or a failing [stat]
    of the destination with a code other than ENOENT while the source can be
    inspected, rejects the call with that error (stack of the call site)
    after the two [stat]s, and the copy primitive is never called. *)
Theorem copy_needs_both_paths_inspected :
  forall (env : Env unit) (stackErr src dest : string)
         (options : option CopyOptions) (fuel : nat) (t : Trace),
    skipSelfCopyCheck options = false ->
    (forall e, statAsync env src = Rejected e ->
        (forall e', statAsync env dest = Rejected e' ->
                    codeIs e' "ENOENT" = true) ->
        copyAsync env fuel stackErr src dest options t
        = Some (Rejected (restackErr e stackErr), t ++ [EvStat src; EvStat dest]))
    /\ (forall s0 e, statAsync env src = Resolved s0 ->
        statAsync env dest = Rejected e -> codeIs e "ENOENT" = false ->
        copyAsync env fuel stackErr src dest options t
        = Some (Rejected (restackErr e stackErr), t ++ [EvStat src; EvStat dest])).
Proof.
  intros env stackErr src dest options fuel t Hskip.
  unfold copyAsync. rewrite Hskip. unfold catch_, then_, selfCopyCheck. split.
  - intros e -> _. by repeat case_match.
  - intros s0 e -> -> ->. done.
Qed.

Lemma copy_needs_both_paths_witness :
  copyAsync nothingThere 0 "site" "/mods/a" "/mods/b" None []
  = Some (Rejected (restackErr (errno "ENOENT" "/mods/a") "site"),
          [EvStat "/mods/a"; EvStat "/mods/b"]).
Proof.
  refine (proj1 (copy_needs_both_paths_inspected
                   nothingThere "site" "/mods/a" "/mods/b" None 0 [] eq_refl)
                (errno "ENOENT" "/mods/a") eq_refl _).
  by intros e' [= <-].
Defined.

(** X12: a destination that does not exist yet, or that is another file,
    passes the identity check: after the two [stat]s the copy primitive is
    called, and the call resolves as soon as the primitive does. *)
Theorem copy_to_another_file_proceeds :
  forall (env : Env unit) (stackErr src dest : string)
         (options : option CopyOptions) (fuel : nat) (t : Trace) (s0 : Stats),
    skipSelfCopyCheck options = false ->
    statAsync env src = Resolved s0 ->
    (exists e, statAsync env dest = Rejected e /\ codeIs e "ENOENT" = true)
    \/ (exists s1, statAsync env dest = Resolved s1 /\ ino s0 <> ino s1) ->
    underlying env (count isCall t) = Resolved tt ->
    copyAsync env (S fuel) stackErr src dest options t
    = Some (Resolved tt, t ++ [EvStat src; EvStat dest; EvCall]).
Proof.
  intros env stackErr src dest options fuel t s0 Hskip Hsrc Hdest Hcall.
  unfold copyAsync. rewrite Hskip. unfold catch_, then_ at 1, selfCopyCheck.
  rewrite Hsrc.
  assert (count isCall (t ++ [EvStat src; EvStat dest]) = count isCall t)
    as Hc by quiet_trace.
  destruct Hdest as [(e & -> & ->)|(s1 & -> & Hne)].
  - rewrite bool_decide_eq_false_2 by done.
    simpl. unfold catch_, call. rewrite Hc, Hcall. by rewrite <- app_assoc.
  - rewrite bool_decide_eq_false_2 by congruence.
    simpl. unfold catch_, call. rewrite Hc, Hcall. by rewrite <- app_assoc.
Qed.

Lemma copy_to_another_file_witness :
  copyAsync freshDestination 1 "site" "/mods/a.esp" "/mods/b.esp" None []
  = Some (Resolved tt, [EvStat "/mods/a.esp"; EvStat "/mods/b.esp"; EvCall]).
Proof.
  refine (copy_to_another_file_proceeds
            freshDestination "site" "/mods/a.esp" "/mods/b.esp" None 0 []
            (mkStats 42 false) eq_refl eq_refl _ eq_refl).
  left. eexists. split; reflexivity.
Defined.

(** ** [rmdir], whatever the primitive does *)

Section RmdirRuns.

Context (env : Env unit) (dirPath stackErr : string).

Lemma rmdirInt_settles tries : forall t,
  exists r k,
    k <= tries
    /\ rmdirInt env dirPath stackErr tries t = Some (r, t ++ retries k)
    /\ (forall i, i < k -> exists e,
          underlying env (count isCall t + i) = Rejected e
          /\ isRetryError e = true)
    /\ rmdirEnded env stackErr tries k (count isCall t + k) r.
Proof.
  induction tries as [|tries IH]; intros t; rewrite rmdirInt_unfold;
    destruct (underlying env (count isCall t)) as [[]|err|] eqn:Hcall.
  1, 3, 4, 6:
    eexists _, 0; (split; [lia|]); (split; [reflexivity|]);
    (split; [intros i Hi; lia|]); rewrite Nat.add_0_r; simpl; eauto.
  - destruct (codeIs err "ENOENT") eqn:Hnoent;
      eexists _, 0; (split; [lia|]); (split; [reflexivity|]);
      (split; [intros i Hi; lia|]); rewrite Nat.add_0_r; simpl; eauto 10.
  - destruct (codeIs err "ENOENT") eqn:Hnoent.
    { eexists _, 0; (split; [lia|]); (split; [reflexivity|]);
        (split; [intros i Hi; lia|]); rewrite Nat.add_0_r; simpl; eauto 10. }
    destruct (isRetryError err) eqn:Hretry.
    2: { eexists _, 0; (split; [lia|]); (split; [reflexivity|]);
         (split; [intros i Hi; lia|]); rewrite Nat.add_0_r; simpl; eauto 10. }
    destruct (IH ((t ++ [EvCall]) ++ [EvDelay RETRY_DELAY_MS]))
      as (r & k & Hk & Hrun & Hfail & Hend).
    assert (count isCall ((t ++ [EvCall]) ++ [EvDelay RETRY_DELAY_MS])
            = S (count isCall t)) as Hc by quiet_trace.
    rewrite Hc in Hfail, Hend.
    exists r, (S k). split; [lia|]. split.
    { rewrite Hrun. by rewrite <- !app_assoc. }
    split.
    + intros [|i] Hi.
      * rewrite Nat.add_0_r. eauto.
      * destruct (Hfail i) as (e & He & Hr); [lia|].
        exists e. split; [|done]. rewrite <- He. f_equal. lia.
    + replace (count isCall t + S k) with (S (count isCall t) + k) by lia.
      destruct r as [[]|e|]; simpl in *; try done.
      destruct Hend as (e0 & He0 & -> & Hno & Hlast).
      exists e0. repeat split; try done. destruct Hlast; [by left|right; lia].
Qed.

End RmdirRuns.

(** X13: [rmdir] always ends, whatever the primitive does, after at most
    [NUM_RETRIES] retries, each one preceded by a delay and by a failure with
    a transient code.  It resolves when the last call succeeded or answered
    ENOENT, hangs only if the primitive does, and is rejected with the error
    of the last call when that error is not transient - which ends the run at
    once - or when the retries are used up. *)
Theorem rmdir_settles_within_its_budget :
  forall (env : Env unit) (stackErr dirPath : string) (t : Trace),
    exists r k,
      k <= NUM_RETRIES
      /\ rmdirAsync env stackErr dirPath t = Some (r, t ++ retries k)
      /\ (forall i, i < k -> exists e,
            underlying env (count isCall t + i) = Rejected e
            /\ isRetryError e = true)
      /\ rmdirEnded env stackErr NUM_RETRIES k (count isCall t + k) r.
Proof.
  intros env stackErr dirPath t. unfold rmdirAsync. apply rmdirInt_settles.
Qed.

Lemma rmdir_settles_witness :
  exists r k,
    k <= NUM_RETRIES
    /\ rmdirAsync alwaysBusy "site" "/mods/old" [] = Some (r, [] ++ retries k)
    /\ (forall i, i < k -> exists e,
          underlying alwaysBusy (0 + i) = Rejected e /\ isRetryError e = true)
    /\ rmdirEnded alwaysBusy "site" NUM_RETRIES k (0 + k) r.
Proof.
  exact (rmdir_settles_within_its_budget alwaysBusy "site" "/mods/old" []).
Defined.

(** ** The writability probe *)

Section Probe.

Context (env : Env unit) (dirPath : string).

Lemma probe_fails i err t :
  i < probeSteps ->
  (forall j, j < i -> underlying env (count isCall t + j) = Resolved tt) ->
  underlying env (count isCall t + i) = Rejected err ->
  then_ (call env) (fun _ => then_ (call env) (fun _ => call env)) t
  = Some (Rejected err, t ++ replicate (S i) EvCall).
Proof.
  intros Hi Hok Hfail. unfold probeSteps in Hi.
  assert (forall t', count isCall (t' ++ [EvCall]) = S (count isCall t'))
    as Hc by (intros; quiet_trace).
  destruct i as [|[|[|i]]]; try lia.
  - rewrite Nat.add_0_r in Hfail. unfold then_ at 1, call at 1. by rewrite Hfail.
  - pose proof (Hok 0) as H0. rewrite Nat.add_0_r in H0.
    unfold then_ at 1, call at 1. rewrite H0 by lia.
    unfold then_ at 1, call at 1. rewrite Hc.
    replace (S (count isCall t)) with (count isCall t + 1) by lia.
    rewrite Hfail. by rewrite <- app_assoc.
  - pose proof (Hok 0) as H0. rewrite Nat.add_0_r in H0.
    pose proof (Hok 1) as H1.
    unfold then_ at 1, call at 1. rewrite H0 by lia.
    unfold then_ at 1, call at 1. rewrite Hc.
    replace (S (count isCall t)) with (count isCall t + 1) by lia.
    rewrite H1 by lia.
    unfold call. rewrite !Hc.
    replace (S (S (count isCall t))) with (count isCall t + 2) by lia.
    rewrite Hfail. by rewrite <- !app_assoc.
Qed.

End Probe.

(** X14: when any of the three steps of the writability probe - creating
    the directory, creating the canary file, removing it - fails with EPERM,
    [ensureDirWritableAsync] calls [confirm], and once that resolves it
    starts the elevated helper for the directory and the current user.  The
    call then ends as the elevation ends; the probe is not repeated. *)
Theorem unwritable_directory_is_unlocked_after_confirmation :
  forall (env : Env unit) (dirPath : string) (confirm : M unit) (t t2 : Trace)
         (i : nat) (err : JsError),
    i < probeSteps ->
    (forall j, j < i -> underlying env (count isCall t + j) = Resolved tt) ->
    underlying env (count isCall t + i) = Rejected err ->
    codeIs err "EPERM" = true ->
    confirm (t ++ replicate (S i) EvCall) = Some (Resolved tt, t2) ->
    exists r stopped,
      ensureDirWritableAsync env dirPath confirm t
      = Some (r, t2 ++ EvElevated (Some dirPath) (getUserId env) :: stopped)
      /\ Forall (fun ev => ev = EvServerStop) stopped
      /\ (forall ev rest, ipcEvents env (count isElevated t2) = ev :: rest ->
            r = firstOutcome env ev)
      /\ (ipcEvents env (count isElevated t2) = [] -> r = Pending).
Proof.
  intros env dirPath confirm t t2 i err Hi Hok Hfail Hperm Hconfirm.
  unfold ensureDirWritableAsync, catch_.
  rewrite (probe_fails env i err t Hi Hok Hfail), Hperm.
  unfold then_. rewrite Hconfirm.
  destruct (elevated_stops env (Some dirPath) (getUserId env) t2)
    as (r & stopped & Hrun & Hstops).
  exists r, stopped. split; [done|]. split; [done|]. split.
  - intros ev rest Hev.
    destruct (elevated_head env (Some dirPath) (getUserId env) t2 ev rest Hev)
      as (stopped' & Hrun' & _).
    rewrite Hrun' in Hrun. by simplify_eq.
  - intros Hev. unfold elevated in Hrun. rewrite Hev in Hrun. by simplify_eq.
Qed.

Lemma unwritable_directory_witness :
  exists r stopped,
    ensureDirWritableAsync readOnlyStaging "/staging" (resolve tt) []
    = Some (r, [EvCall; EvCall] ++ EvElevated (Some "/staging") "user-1" :: stopped)
    /\ Forall (fun ev => ev = EvServerStop) stopped
    /\ (forall ev rest, ipcEvents readOnlyStaging 0 = ev :: rest ->
          r = firstOutcome readOnlyStaging ev)
    /\ (ipcEvents readOnlyStaging 0 = [] -> r = Pending).
Proof.
  refine (unwritable_directory_is_unlocked_after_confirmation
            readOnlyStaging "/staging" (resolve tt) [] [EvCall; EvCall] 1
            (errno "EPERM" "/staging/__vortex_canary") _ _ eq_refl eq_refl eq_refl).
  - unfold probeSteps. lia.
  - intros [|j] Hj; [reflexivity|lia].
Defined.

(** X15: without a permission error the probe never asks and never
    elevates.  If all three steps succeed the call resolves; a step failing
    with another code rejects the call with that very error, not even its
    stack replaced; and when [confirm] is rejected after an EPERM, the call
    is rejected with the error of [confirm] and no helper is started. *)
Theorem probe_without_elevation :
  forall (env : Env unit) (dirPath : string) (confirm : M unit) (t : Trace),
    ((forall j, j < probeSteps ->
         underlying env (count isCall t + j) = Resolved tt) ->
     ensureDirWritableAsync env dirPath confirm t
     = Some (Resolved tt, t ++ replicate probeSteps EvCall))
    /\ (forall i err,
          i < probeSteps ->
          (forall j, j < i -> underlying env (count isCall t + j) = Resolved tt) ->
          underlying env (count isCall t + i) = Rejected err ->
          (codeIs err "EPERM" = false ->
           ensureDirWritableAsync env dirPath confirm t
           = Some (Rejected err, t ++ replicate (S i) EvCall))
          /\ (forall e t2,
                codeIs err "EPERM" = true ->
                confirm (t ++ replicate (S i) EvCall) = Some (Rejected e, t2) ->
                ensureDirWritableAsync env dirPath confirm t
                = Some (Rejected e, t2))).
Proof.
  intros env dirPath confirm t. split.
  - intros Hok. unfold ensureDirWritableAsync, catch_.
    assert (forall t', count isCall (t' ++ [EvCall]) = S (count isCall t'))
      as Hc by (intros; quiet_trace).
    pose proof (Hok 0) as H0. rewrite Nat.add_0_r in H0.
    pose proof (Hok 1) as H1. pose proof (Hok 2) as H2.
    unfold probeSteps in *.
    unfold then_ at 1, call at 1. rewrite H0 by lia.
    unfold then_ at 1, call at 1. rewrite Hc.
    replace (S (count isCall t)) with (count isCall t + 1) by lia.
    rewrite H1 by lia. unfold call. rewrite !Hc.
    replace (S (S (count isCall t))) with (count isCall t + 2) by lia.
    rewrite H2 by lia. by rewrite <- !app_assoc.
  - intros i err Hi Hok Hfail. split.
    + intros Hperm. unfold ensureDirWritableAsync, catch_.
      by rewrite (probe_fails env i err t Hi Hok Hfail), Hperm.
    + intros e t2 Hperm Hconfirm. unfold ensureDirWritableAsync, catch_.
      rewrite (probe_fails env i err t Hi Hok Hfail), Hperm.
      unfold then_. by rewrite Hconfirm.
Qed.

Lemma probe_without_elevation_witness :
  ensureDirWritableAsync readOnlyStaging "/staging"
                         (reject (newUserCanceled readOnlyStaging)) []
  = Some (Rejected (newUserCanceled readOnlyStaging), [EvCall; EvCall]).
Proof.
  refine (proj2 (proj2 (probe_without_elevation
                          readOnlyStaging "/staging"
                          (reject (newUserCanceled readOnlyStaging)) [])
                       1 (errno "EPERM" "/staging/__vortex_canary") _ _ eq_refl)
                (newUserCanceled readOnlyStaging) [EvCall; EvCall]
                eq_refl eq_refl).
  - unfold probeSteps. lia.
  - intros [|j] Hj; [reflexivity|lia].
Defined.

(** X16: [ensureDirAsync] forgives the primitive an EEXIST and resolves,
    and gives every other error the stack of the call site; the writability
    probe, which calls the primitive directly, forgives nothing: the same
    EEXIST rejects it, unchanged. *)
Theorem existing_directory_is_forgiven_by_ensureDir_only :
  forall (env : Env unit) (stackErr dirPath : string) (confirm : M unit)
         (t : Trace) (err : JsError),
    underlying env (count isCall t) = Rejected err ->
    (codeIs err "EEXIST" = true ->
     ensureDirAsync env stackErr dirPath t = Some (Resolved tt, t ++ [EvCall])
     /\ ensureDirWritableAsync env dirPath confirm t
        = Some (Rejected err, t ++ [EvCall]))
    /\ (codeIs err "EEXIST" = false ->
        ensureDirAsync env stackErr dirPath t
        = Some (Rejected (restackErr err stackErr), t ++ [EvCall])).
Proof.
  intros env stackErr dirPath confirm t err Hcall.
  split.
  - intros Hex. pose proof (proj1 (codeIs_true _ _) Hex) as Hcode.
    unfold ensureDirAsync, ensureDirWritableAsync, catch_, then_ at 1, call.
    rewrite Hcall, Hex, (codeIs_other err "EEXIST" "EPERM") by done. done.
  - intros Hex. unfold ensureDirAsync, catch_, call. by rewrite Hcall, Hex.
Qed.

Lemma existing_directory_witness :
  ensureDirAsync stagingIsFile "site" "/staging" [] = Some (Resolved tt, [EvCall])
  /\ ensureDirWritableAsync stagingIsFile "/staging" (resolve tt) []
     = Some (Rejected (errno "EEXIST" "/staging"), [EvCall]).
Proof.
  exact (proj1 (existing_directory_is_forgiven_by_ensureDir_only
                  stagingIsFile "site" "/staging" (resolve tt) []
                  (errno "EEXIST" "/staging") eq_refl) eq_refl).
Defined.

(** ** The backtrace of the call site *)

Section Stacks.

Context (env : Env unit) (stackErr : string).

Lemma stacked_handler {A} err t (k : unit -> M A) :
  (forall t1, stacked stackErr (k tt t1)) ->
  stacked stackErr (then_ (errorHandler env err stackErr) k t).
Proof.
  intros Hk e t' Hrun. unfold then_ in Hrun.
  destruct (errorHandler_handled env err stackErr t) as (r & t1 & Heq & Hh).
  rewrite Heq in Hrun. destruct r as [[]|e1|]; simplify_eq.
  - by eapply Hk.
  - by destruct (handled_rejected _ _ _ _ _ _ Hh) as [->| ->].
Qed.

Lemma stacked_restack {A} (p : M A) t :
  stacked stackErr (catch_ p (fun err => reject (restackErr err stackErr)) t).
Proof.
  intros e t' Hrun. unfold catch_, reject in Hrun.
  destruct (p t) as [[[a|e1|] t1]|]; by simplify_eq.
Qed.

Lemma copyInt_stacked src dest options fuel : forall t,
  stacked stackErr (copyInt env fuel src dest options stackErr t).
Proof.
  induction fuel as [|fuel IH]; intros t; [by intros ???|].
  simpl. unfold catch_ at 1, call.
  destruct (underlying env _) as [[]|err|]; try by intros ?? [=].
  by apply stacked_handler.
Qed.

Lemma removeInt_stacked dirPath fuel : forall t,
  stacked stackErr (removeInt env fuel dirPath stackErr t).
Proof.
  induction fuel as [|fuel IH]; intros t; [by intros ???|].
  simpl. unfold catch_ at 1, call.
  destruct (underlying env _) as [[]|err|]; try by intros ?? [=].
  destruct (codeIs err "ENOENT"); [by intros ?? [=]|].
  by apply stacked_handler.
Qed.

Lemma unlinkInt_stacked dirPath fuel : forall t,
  stacked stackErr (unlinkInt env fuel dirPath stackErr t).
Proof.
  induction fuel as [|fuel IH]; intros t; [by intros ???|].
  simpl. unfold catch_ at 1, call.
  destruct (underlying env _) as [[]|err|]; try by intros ?? [=].
  destruct (codeIs err "ENOENT"); [by intros ?? [=]|].
  by apply stacked_handler.
Qed.

Lemma renameInt_stacked src dest fuel : forall t,
  stacked stackErr (renameInt env fuel src dest stackErr t).
Proof.
  induction fuel as [|fuel IH]; intros t; [by intros ???|].
  simpl. unfold catch_ at 1, call.
  destruct (underlying env _) as [[]|err|]; try by intros ?? [=].
  destruct (codeIs err "EPERM"); [apply stacked_restack|].
  by apply stacked_handler.
Qed.

Lemma rmdirInt_stacked dirPath tries : forall t,
  stacked stackErr (rmdirInt env dirPath stackErr tries t).
Proof.
  induction tries as [|tries IH]; intros t; rewrite rmdirInt_unfold;
    destruct (underlying env _) as [[]|err|]; try (by intros ?? [=]);
    destruct (codeIs err "ENOENT"); try (by intros ?? [=]).
  - by intros ?? [= <- <-].
  - destruct (isRetryError err); [apply IH|]. by intros ?? [= <- <-].
Qed.

End Stacks.

(** X17: every error that leaves [copy], [remove], [unlink], [rename],
    [rmdir] or [ensureDir] - the primitive's, a [stat]'s, the "same file"
    error or [UserCanceled] - carries the backtrace taken where the operation
    was called, so that the text of its stack is its message followed by that
    backtrace. *)
Theorem operations_reject_with_the_callers_backtrace :
  forall (env : Env unit) (stackErr src dest dirPath : string)
         (options : option CopyOptions) (fuel : nat) (t : Trace),
    let reported (out : option (Promise unit * Trace)) :=
      forall e t', out = Some (Rejected e, t') ->
        stackText e = Some (e_message e +:+ newline +:+ stackErr) in
    reported (copyAsync env fuel stackErr src dest options t)
    /\ reported (removeAsync env fuel stackErr dirPath t)
    /\ reported (unlinkAsync env fuel stackErr dirPath t)
    /\ reported (renameAsync env fuel stackErr src dest t)
    /\ reported (rmdirAsync env stackErr dirPath t)
    /\ reported (ensureDirAsync env stackErr dirPath t).
Proof.
  intros env stackErr src dest dirPath options fuel t reported.
  assert (forall out, stacked stackErr out -> reported out) as Hrep.
  { intros out Hout e t' Hrun. unfold stackText. by rewrite (Hout e t' Hrun). }
  repeat split; apply Hrep.
  - apply stacked_restack.
  - apply removeInt_stacked.
  - apply unlinkInt_stacked.
  - apply renameInt_stacked.
  - apply rmdirInt_stacked.
  - intros e t' Hrun. unfold ensureDirAsync, catch_, call in Hrun.
    destruct (underlying env _) as [[]|err|]; simplify_eq.
    destruct (codeIs err "EEXIST"); unfold resolve, reject in Hrun;
      by simplify_eq.
Qed.

Lemma operations_reject_with_backtrace_witness :
  stackText (restackErr (errno "EPERM" "/mods/a") "site")
  = Some (e_message (restackErr (errno "EPERM" "/mods/a") "site")
          +:+ newline +:+ "site").
Proof.
  exact (proj1 (proj2 (proj2 (proj2
           (operations_reject_with_the_callers_backtrace
              ontoDirectory "site" "/mods/a" "/mods/b" "/mods/a" None 1 []))))
           (restackErr (errno "EPERM" "/mods/a") "site")
           [EvCall; EvStat "/mods/b"] eq_refl).
Defined.

Lemma removeAsync_cancelled (env : Env unit) stackErr dirPath fuel err :
  dialogDefined env = true ->
  underlying env 0 = Rejected err -> recoverable err = true ->
  (forall o, showMessageBox env 0 o = 0) ->
  exists o,
    removeAsync env (S fuel) stackErr dirPath []
    = Some (Rejected (restackErr (newUserCanceled env) stackErr),
            [EvCall; EvPrompt o 0]).
Proof.
  intros Hd Hcall Hr Hans. unfold removeAsync. simpl.
  unfold catch_ at 1, call. change (count isCall []) with 0. rewrite Hcall.
  rewrite (recoverable_not_ENOENT _ Hr). unfold then_.
  destruct (errorHandler_cancel env stackErr err ([] ++ [EvCall]) Hd Hr)
    as (o & ->); [exact Hans|].
  by exists o.
Qed.
End FsMore.

(** * Further properties of the mod-management handlers *)

Module ModsMore.

Import Mods ModsSpec.

Ltac unfold_m :=
  unfold then_, catch_, catchClass, external, effect, resolve, reject in *.

(** An event is not in a list of events of other kinds. *)
Ltac not_in :=
  let H := fresh in
  intros H;
  repeat (apply elem_of_cons in H as [H|H]; [discriminate|]);
  by apply elem_of_nil in H.

Section Undeploy.

Context (env : Env) (st : IState) (activators : list IDeploymentMethod)
        (gameMode : string) (mod_ : IMod).

Lemma find_by_id_None aid :
  (forall a, a ∈ activators -> dm_id a <> aid) ->
  List.find (fun act => bool_decide (dm_id act = aid)) activators = None.
Proof.
  intros Hno. destruct (List.find _ activators) as [a|] eqn:Hfind; [|done].
  apply List.find_some in Hfind as [Hin Hid].
  apply bool_decide_eq_true in Hid. apply list_elem_of_In in Hin.
  by destruct (Hno a Hin).
Qed.

Lemma undeploy_saved u ty inst dp m :
  undeploy env st activators gameMode mod_ = inr u ->
  SaveActivation ty inst dp m ∈ (u []).2 ->
  exists a normalize lastActivation newActivation,
    a ∈ activators /\ dm_id a = m
    /\ getNormalizeFunc env dp = Resolved normalize
    /\ loadActivation env (mod_type mod_) dp (activator st !! gameMode)
       = Resolved lastActivation
    /\ prepare a dp false lastActivation normalize = Resolved tt
    /\ deactivate a (installPathForGame env st gameMode) dp mod_ = Resolved tt
    /\ finalize a gameMode dp (installPathForGame env st gameMode)
       = Resolved newActivation
    /\ u [] = (saveActivation env ty inst dp newActivation m,
               undeployed st gameMode mod_ m
                          (installPathForGame env st gameMode) dp).
Proof.
  unfold undeploy. intros Hu Hin.
  destruct ((discovered st !! gameMode) ≫= disc_path) as [discoveryPath|];
    [|simplify_eq; by apply elem_of_nil in Hin].
  destruct (getGame env gameMode) as [game|]; [|done].
  set (dataPath := getModPaths game discoveryPath
                   !! default "" (jsOr (mod_type mod_) (Some ""))) in *.
  match type of Hu with
  | match ?found with _ => _ end = _ => destruct found as [a|] eqn:Hfind
  end; simplify_eq; [|by apply elem_of_nil in Hin].
  assert (a ∈ activators) as Ha.
  { apply list_elem_of_In.
    destruct (activator st !! gameMode); by apply List.find_some in Hfind as [? _]. }
  revert Hin. unfold then_, external. simpl.
  destruct (getNormalizeFunc env dataPath) as [normalize| |] eqn:Hnorm; simpl;
    try by not_in.
  destruct (loadActivation env _ dataPath _) as [lastActivation| |] eqn:Hload;
    simpl; try by not_in.
  destruct (prepare a dataPath false lastActivation normalize) as [[]| |] eqn:Hprep;
    simpl; try by not_in.
  destruct (deactivate a _ dataPath mod_) as [[]| |] eqn:Hdeact;
    simpl; try by not_in.
  destruct (finalize a gameMode dataPath _) as [newActivation| |] eqn:Hfin;
    simpl; try by not_in.
  rewrite !elem_of_cons, elem_of_nil.
  intros [?|[?|[?|[?|[?|[?|[]]]]]]]; simplify_eq.
  exists a, normalize, lastActivation, newActivation. by repeat split.
Qed.

End Undeploy.


(** X18: [undeploy] saves an activation only at the end of a complete run.
    Whenever [saveActivation] has been called, the method it names is one of
    the activators, and [getNormalizeFunc], [loadActivation], [prepare],
    [deactivate] and [finalize] were called before it, in this order, and
    each resolved; [prepare] got the manifest that [loadActivation] returned,
    and the manifest saved is the one [finalize] returned. *)
Theorem activation_is_saved_only_after_a_complete_undeploy :
  forall (env : Env) (st : IState) (activators : list IDeploymentMethod)
         (gameMode : string) (mod_ : IMod) (u : M unit)
         (ty : option string) (inst : string) (dp : option string) (m : string),
    undeploy env st activators gameMode mod_ = inr u ->
    SaveActivation ty inst dp m ∈ (u []).2 ->
    exists a normalize lastActivation newActivation,
      a ∈ activators /\ dm_id a = m
      /\ getNormalizeFunc env dp = Resolved normalize
      /\ loadActivation env (mod_type mod_) dp (activator st !! gameMode)
         = Resolved lastActivation
      /\ prepare a dp false lastActivation normalize = Resolved tt
      /\ deactivate a (installPathForGame env st gameMode) dp mod_ = Resolved tt
      /\ finalize a gameMode dp (installPathForGame env st gameMode)
         = Resolved newActivation
      /\ u [] = (saveActivation env ty inst dp newActivation m,
                 undeployed st gameMode mod_ m
                            (installPathForGame env st gameMode) dp).
Proof.
  intros env st activators gameMode mod_ u ty inst dp m Hu Hin.
  by eapply undeploy_saved.
Qed.

Lemma activation_is_saved_witness :
  exists a newActivation,
    a ∈ [hardlink (Resolved tt)] /\ dm_id a = "hardlink"
    /\ finalize a "skyrim" (Some "/games/skyrim") "/staging"
       = Resolved newActivation.
Proof.
  assert (exists u,
             undeploy (sampleWorld (Resolved tt) []) sampleStore
                      [hardlink (Resolved tt)] "skyrim" modA = inr u
             /\ (u []).2 = undeployed sampleStore "skyrim" modA "hardlink"
                                      "/staging" (Some "/games/skyrim"))
    as (u & Hu & Htrace).
  { eexists. split; reflexivity. }
  destruct (activation_is_saved_only_after_a_complete_undeploy
              (sampleWorld (Resolved tt) []) sampleStore [hardlink (Resolved tt)]
              "skyrim" modA u None "instance-1" (Some "/games/skyrim") "hardlink"
              Hu)
    as (a & _ & _ & newActivation & Ha & Hid & _ & _ & _ & _ & Hfin & _).
  { rewrite Htrace. unfold undeployed. rewrite !elem_of_cons. auto 10. }
  exists a, newActivation. split; [exact Ha|]. split; [exact Hid|].
  rewrite <- Hfin. reflexivity.
Defined.

(** ** Removal of an enabled mod: what [undeploy] needs *)

Section RemovalEdges.

Context (env : Env) (st : IState) (activators : list IDeploymentMethod)
        (gameMode modId : string) (callback : bool)
        (known : gmap string IMod) (mod_ : IMod).

Hypothesis Hknown : mods st !! gameMode = Some known.
Hypothesis Hmod : known !! modId = Some mod_.
Hypothesis Hstate : isRemovableState (Some (mod_state mod_)) = true.

Local Abbreviation disabling := (Mods.disabling st gameMode modId).
Local Abbreviation wasEnabled := (Mods.wasEnabled st gameMode modId).

Lemma onRemoveMod_method_missing discoveryPath game aid :
  wasEnabled = true ->
  (discovered st !! gameMode) ≫= disc_path = Some discoveryPath ->
  getGame env gameMode = Some game ->
  activator st !! gameMode = Some aid ->
  (forall a, a ∈ activators -> dm_id a <> aid) ->
  onRemoveMod env st activators gameMode modId callback
  = (Returned,
     [disabling;
      if callback
      then Callback (Some (newProcessCanceled "No deployment method active"))
      else ShowErrorNotification "Failed to remove mod"
             (DetailMessage "No deployment method active") (Some false)]).
Proof.
  intros Hen Hdisc Hgame Hact Hno.
  rewrite (onRemoveMod_run env st activators gameMode modId callback
                           known mod_ Hknown Hmod Hstate).
  unfold firstStep. rewrite Hen. unfold undeploy.
  rewrite Hdisc, Hgame, Hact, (find_by_id_None activators aid Hno).
  simpl. unfold reportEvent. by destruct callback.
Qed.

Lemma onRemoveMod_undiscovered :
  (discovered st !! gameMode) ≫= disc_path = None ->
  removeAsync env (modDir env st gameMode mod_) = Resolved tt ->
  onRemoveMod env st activators gameMode modId callback
  = (Returned,
     [disabling; RemoveAsync (modDir env st gameMode mod_);
      Dispatch (RemoveMod gameMode (mod_id mod_))]
     ++ (if callback then [Callback None] else [])).
Proof.
  intros Hdisc Hrm.
  rewrite (onRemoveMod_run env st activators gameMode modId callback
                           known mod_ Hknown Hmod Hstate).
  unfold firstStep, undeploy. rewrite Hdisc.
  destruct wasEnabled; simpl; rewrite Hrm; unfold dropping;
    by destruct callback.
Qed.

Lemma onRemoveMod_unknown_game discoveryPath :
  wasEnabled = true ->
  (discovered st !! gameMode) ≫= disc_path = Some discoveryPath ->
  getGame env gameMode = None ->
  onRemoveMod env st activators gameMode modId callback
  = (Threw (typeError "getModPaths"), [disabling]).
Proof.
  intros Hen Hdisc Hgame.
  rewrite (onRemoveMod_run env st activators gameMode modId callback
                           known mod_ Hknown Hmod Hstate).
  unfold firstStep. rewrite Hen. unfold undeploy. by rewrite Hdisc, Hgame.
Qed.

End RemovalEdges.

(** X19: an enabled mod whose game is configured for a deployment method
    that is not among the loaded activators is not removed, even if another
    activator could deploy the game: after the mod has been disabled, the
    [ProcessCanceled] error 'No deployment method active' goes to the
    callback, or is shown as 'Failed to remove mod' with reporting off.
    Nothing is undeployed, nothing is deleted, and the mod is not dropped. *)
Theorem removal_needs_the_configured_deployment_method :
  forall (env : Env) (st : IState) (activators : list IDeploymentMethod)
         (gameMode modId : string) (callback : bool)
         (known : gmap string IMod) (mod_ : IMod)
         (discoveryPath : string) (game : IGame) (aid : string),
    mods st !! gameMode = Some known ->
    known !! modId = Some mod_ ->
    isRemovableState (Some (mod_state mod_)) = true ->
    wasEnabled st gameMode modId = true ->
    (discovered st !! gameMode) ≫= disc_path = Some discoveryPath ->
    getGame env gameMode = Some game ->
    activator st !! gameMode = Some aid ->
    (forall a, a ∈ activators -> dm_id a <> aid) ->
    onRemoveMod env st activators gameMode modId callback
    = (Returned,
       [disabling st gameMode modId;
        if callback
        then Callback (Some (newProcessCanceled "No deployment method active"))
        else ShowErrorNotification "Failed to remove mod"
               (DetailMessage "No deployment method active") (Some false)]).
Proof.
  intros env st activators gameMode modId callback known mod_ discoveryPath
         game aid Hknown Hmod Hstate Hen Hdisc Hgame Hact Hno.
  by eapply onRemoveMod_method_missing.
Qed.

Lemma removal_needs_the_method_witness :
  onRemoveMod stagingAD symlinkStore [hardlink (Resolved tt)] "skyrim" "A" false
  = (Returned,
     [Dispatch (SetModEnabled (Some "profile-1") "A" false);
      ShowErrorNotification "Failed to remove mod"
        (DetailMessage "No deployment method active") (Some false)]).
Proof.
  refine (removal_needs_the_configured_deployment_method
            stagingAD symlinkStore [hardlink (Resolved tt)] "skyrim" "A" false
            {[ "A" := modA; "B" := modB; "C" := modC ]} modA "/games/skyrim"
            (mkGame (fun discoveryPath => {[ "" := discoveryPath ]})) "symlink"
            eq_refl eq_refl eq_refl eq_refl eq_refl eq_refl eq_refl _).
  intros a Ha. apply list_elem_of_singleton in Ha. by subst.
Defined.

(** X20: for a game that has not been discovered there is nothing to
    undeploy, enabled or not: once the mod is disabled its directory is
    deleted, and when that succeeds the mod is dropped and the callback, if
    any, is told of the success.  Neither the deployment methods nor the game
    descriptor are consulted. *)
Theorem removal_for_an_undiscovered_game_skips_undeployment :
  forall (env : Env) (st : IState) (activators : list IDeploymentMethod)
         (gameMode modId : string) (callback : bool)
         (known : gmap string IMod) (mod_ : IMod),
    mods st !! gameMode = Some known ->
    known !! modId = Some mod_ ->
    isRemovableState (Some (mod_state mod_)) = true ->
    (discovered st !! gameMode) ≫= disc_path = None ->
    removeAsync env (modDir env st gameMode mod_) = Resolved tt ->
    onRemoveMod env st activators gameMode modId callback
    = (Returned,
       [disabling st gameMode modId; RemoveAsync (modDir env st gameMode mod_);
        Dispatch (RemoveMod gameMode (mod_id mod_))]
       ++ (if callback then [Callback None] else [])).
Proof.
  intros env st activators gameMode modId callback known mod_
         Hknown Hmod Hstate Hdisc Hrm.
  by eapply onRemoveMod_undiscovered.
Qed.

Lemma removal_for_an_undiscovered_game_witness :
  onRemoveMod unknownGameWorld undiscoveredStore [] "skyrim" "A" true
  = (Returned,
     [Dispatch (SetModEnabled (Some "profile-1") "A" false);
      RemoveAsync "/staging/A"; Dispatch (RemoveMod "skyrim" "A");
      Callback None]).
Proof.
  exact (removal_for_an_undiscovered_game_skips_undeployment
           unknownGameWorld undiscoveredStore [] "skyrim" "A" true
           {[ "A" := modA; "B" := modB; "C" := modC ]} modA
           eq_refl eq_refl eq_refl eq_refl eq_refl).
Defined.

(** X21: when the game of an enabled mod has been discovered but
    [getGame] has no descriptor for it, [undeploy] throws while it is being
    called: [onRemoveMod] ends with that exception right after it has
    disabled the mod - the callback is never called, no notification is
    shown, and nothing is deleted. *)
Theorem removal_for_an_unknown_game_throws :
  forall (env : Env) (st : IState) (activators : list IDeploymentMethod)
         (gameMode modId : string) (callback : bool)
         (known : gmap string IMod) (mod_ : IMod) (discoveryPath : string),
    mods st !! gameMode = Some known ->
    known !! modId = Some mod_ ->
    isRemovableState (Some (mod_state mod_)) = true ->
    wasEnabled st gameMode modId = true ->
    (discovered st !! gameMode) ≫= disc_path = Some discoveryPath ->
    getGame env gameMode = None ->
    onRemoveMod env st activators gameMode modId callback
    = (Threw (typeError "getModPaths"), [disabling st gameMode modId]).
Proof.
  intros env st activators gameMode modId callback known mod_ discoveryPath
         Hknown Hmod Hstate Hen Hdisc Hgame.
  by eapply onRemoveMod_unknown_game.
Qed.

Lemma removal_for_an_unknown_game_witness :
  onRemoveMod unknownGameWorld sampleStore [hardlink (Resolved tt)]
              "skyrim" "A" true
  = (Threw (typeError "getModPaths"),
     [Dispatch (SetModEnabled (Some "profile-1") "A" false)]).
Proof.
  exact (removal_for_an_unknown_game_throws
           unknownGameWorld sampleStore [hardlink (Resolved tt)] "skyrim" "A" true
           {[ "A" := modA; "B" := modB; "C" := modC ]} modA "/games/skyrim"
           eq_refl eq_refl eq_refl eq_refl eq_refl eq_refl).
Defined.

(** ** One answer per removal *)

Section Answer.

Context (env : Env) (st : IState) (activators : list IDeploymentMethod)
        (gameMode modId : string) (callback : bool).

Lemma filter_steps (f : Event -> bool) steps :
  (forall ev, isUndeployStep ev = true -> f ev = false) ->
  Forall (fun ev => isUndeployStep ev = true) steps ->
  List.filter f steps = [].
Proof.
  intros Hf. induction 1 as [|ev steps Hev _ IH]; [done|].
  simpl. by rewrite (Hf ev Hev).
Qed.

Lemma reportEvent_kind e :
  isCallback (reportEvent callback e) = callback
  /\ isNotification (reportEvent callback e) = negb callback.
Proof.
  unfold reportEvent, classify. destruct callback; [done|].
  by destruct (e_cls e).
Qed.

Lemma onRemoveMod_answers known mod_ :
  mods st !! gameMode = Some known -> known !! modId = Some mod_ ->
  isRemovableState (Some (mod_state mod_)) = true ->
  let t := (onRemoveMod env st activators gameMode modId callback).2 in
  length (List.filter isCallback t)
  = (if callback && settles env st activators gameMode modId mod_ then 1 else 0)
  /\ length (List.filter isNotification t)
     = (if negb callback && fails env st activators gameMode modId mod_
        then 1 else 0).
Proof.
  intros Hknown Hmod Hstate t.
  destruct (onRemoveMod_shape env st activators gameMode modId callback
                              known mod_ Hknown Hmod Hstate)
    as (steps & Hshape & Hsteps & _).
  subst t. rewrite Hshape.
  change (disabling st gameMode modId :: steps ++ ?l)
    with ([disabling st gameMode modId] ++ steps ++ l).
  rewrite !List.filter_app, !length_app.
  rewrite (filter_steps isCallback steps), (filter_steps isNotification steps);
    [|by intros []|done|by intros []|done].
  simpl. unfold followUp, settles, fails.
  destruct (firstStep env st activators gameMode modId mod_) as [thrown|u];
    [by rewrite !andb_false_r|].
  unfold afterFirstStep, dropping.
  destruct ((u [disabling st gameMode modId]).1) as [[]|e|]; simpl.
  - destruct (removeAsync env (modDir env st gameMode mod_)) as [[]|e|]; simpl.
    + by destruct callback.
    + destruct (codeIs e "ENOENT"); simpl.
      * by destruct callback.
      * destruct (reportEvent_kind e) as [-> ->]. by destruct callback.
    + by rewrite !andb_false_r.
  - destruct (reportEvent_kind e) as [-> ->]. by destruct callback.
  - by rewrite !andb_false_r.
Qed.

End Answer.

(** X22: a removal whose precondition holds answers through one channel.
    With a callback no notification is ever shown; the callback is called
    when the promise chain comes to an end, and not at all if [undeploy]
    throws or a step never settles.  Without a callback nothing is handed to
    a callback, and exactly one notification is shown if a step fails, none
    otherwise.  (How often a callback is called that itself throws is not
    stated: the final [.catch] of the source would call it again.) *)
Theorem removal_answers_through_one_channel :
  forall (env : Env) (st : IState) (activators : list IDeploymentMethod)
         (gameMode modId : string) (callback : bool)
         (known : gmap string IMod) (mod_ : IMod),
    mods st !! gameMode = Some known ->
    known !! modId = Some mod_ ->
    isRemovableState (Some (mod_state mod_)) = true ->
    let t := (onRemoveMod env st activators gameMode modId callback).2 in
    (callback = true ->
     List.filter isNotification t = []
     /\ (settles env st activators gameMode modId mod_ = true ->
         1 <= length (List.filter isCallback t))
     /\ (settles env st activators gameMode modId mod_ = false ->
         List.filter isCallback t = []))
    /\ (callback = false ->
        List.filter isCallback t = []
        /\ length (List.filter isNotification t)
           = (if fails env st activators gameMode modId mod_ then 1 else 0)).
Proof.
  intros env st activators gameMode modId callback known mod_ Hknown Hmod Hstate
         t.
  destruct (onRemoveMod_answers env st activators gameMode modId callback
                                known mod_ Hknown Hmod Hstate)
    as [Hcb Hnote].
  fold t in Hcb, Hnote. split.
  - intros ->. simpl in Hcb, Hnote. split; [by apply nil_length_inv|]. split.
    + intros Hs. rewrite Hs in Hcb. lia.
    + intros Hs. rewrite Hs in Hcb. by apply nil_length_inv.
  - intros ->. simpl in Hcb, Hnote. split; [by apply nil_length_inv|done].
Qed.

Lemma removal_answers_witness :
  let t := (onRemoveMod (sampleWorld (Rejected lockedDir) []) sampleStore
                        [hardlink (Resolved tt)] "skyrim" "A" false).2 in
  List.filter isCallback t = []
  /\ length (List.filter isNotification t) = 1.
Proof.
  exact (proj2 (removal_answers_through_one_channel
                  (sampleWorld (Rejected lockedDir) []) sampleStore
                  [hardlink (Resolved tt)] "skyrim" "A" false
                  {[ "A" := modA; "B" := modB; "C" := modC ]} modA
                  eq_refl eq_refl eq_refl) eq_refl).
Defined.

(** ** Activation of a game mode *)

Section Activation.

Context (env : Env) (st : IState) (activators : list IDeploymentMethod)
        (newGame : string).

Lemma extends_then {A B} (p : M A) (f : A -> M B) :
  extends p -> (forall a, extends (f a)) -> extends (then_ p f).
Proof.
  intros Hp Hf t. unfold then_. destruct (Hp t) as (x & Hx & Hall).
  destruct (p t) as [[a|e|] t1]; simpl in Hx; subst; try by exists x.
  destruct (Hf a (t ++ x)) as (y & Hy & Hall'). exists (x ++ y).
  rewrite Hy, app_assoc. split; [done|]. by apply Forall_app.
Qed.

Lemma extends_effect ev : isRefresh ev = true -> extends (effect ev).
Proof. intros Hev t. exists [ev]. split; [done|]. by constructor. Qed.

Lemma extends_external {A} ev (p : Promise A) :
  isRefresh ev = true -> extends (external ev p).
Proof. intros Hev t. exists [ev]. split; [done|]. by constructor. Qed.

Lemma extends_resolve {A} (a : A) : extends (resolve a).
Proof. intros t. exists []. by rewrite app_nil_r. Qed.

Lemma extends_reject {A} e : extends (@reject A e).
Proof. intros t. exists []. by rewrite app_nil_r. Qed.

Lemma extends_mapSeries {A} (xs : list A) (f : A -> M unit) :
  (forall x, extends (f x)) -> extends (mapSeries xs f).
Proof.
  intros Hf. induction xs as [|x xs IH]; simpl; [apply extends_resolve|].
  by apply extends_then.
Qed.

Lemma extends_removeMissing knownMods game names :
  extends (removeMissing knownMods game names).
Proof.
  induction names as [|name names IH]; simpl; [apply extends_resolve|].
  destruct (knownMods ≫= _) as [known|]; [|apply extends_reject].
  apply extends_then; [|done].
  unfold isRemovableState. case_bool_decide;
    [by apply extends_effect|apply extends_resolve].
Qed.

Lemma extends_refreshMods p knownMods onAdd onRemove :
  (forall m, extends (onAdd m)) -> (forall names, extends (onRemove names)) ->
  extends (refreshMods env p knownMods onAdd onRemove).
Proof.
  intros Hadd Hremove. unfold refreshMods.
  apply extends_then; [by apply extends_external|]. intros present.
  apply extends_then; [by apply extends_mapSeries|done].
Qed.

(** The second half of [onGameModeActivated], by the outcome of the
    promise the refresh is chained to. *)
Lemma onGameModeActivated_after discoveryPath game r t1 :
  (discovered st !! activeGameId env st) ≫= disc_path = Some discoveryPath ->
  getGame env (activeGameId env st) = Some game ->
  (let '(started, prom) :=
     activatorProm env st activators newGame game discoveryPath in
   prom started) = (r, t1) ->
  match r with
  | Resolved _ => exists suffix,
      onGameModeActivated env st activators newGame = t1 ++ suffix
      /\ Forall (fun ev => isRefresh ev = true) suffix
  | Rejected e =>
      onGameModeActivated env st activators newGame = t1 ++ refreshFailure e
  | Pending => onGameModeActivated env st activators newGame = t1
  end.
Proof.
  intros Hdisc Hgame Hprom. unfold onGameModeActivated.
  rewrite Hdisc, Hgame.
  destruct (activatorProm env st activators newGame game discoveryPath)
    as [started prom].
  destruct r as [[]|e|].
  - unfold catch_ at 1, catchClass at 1, then_ at 1 2. rewrite Hprom.
    match goal with
    | |- context [refreshMods env ?p ?k ?a ?r t1] =>
        destruct (extends_refreshMods p k a r) with (t := t1) as (x & Hx & Hall)
    end.
    { intros m. by apply extends_effect. }
    { intros names. apply extends_removeMissing. }
    destruct (refreshMods env _ _ _ _ t1) as [[[]|e|] t2]; simpl in *; subst.
    + eexists. rewrite <- app_assoc. split; [done|].
      apply Forall_app. split; [done|]. by repeat constructor.
    + case_bool_decide; unfold_m; simpl; [by exists x|].
      eexists. rewrite <- app_assoc. split; [done|].
      apply Forall_app. split; [done|]. by repeat constructor.
    + by exists x.
  - unfold catch_ at 1, catchClass at 1, then_ at 1 2. rewrite Hprom.
    unfold refreshFailure. case_bool_decide; unfold_m; simpl; [|done].
    by rewrite app_nil_r.
  - unfold catch_ at 1, catchClass at 1, then_ at 1 2. by rewrite Hprom.
Qed.

Lemma mapSeries_purged old instPath modPaths typeIds : forall t,
  (forall typeId, typeId ∈ typeIds ->
     purge old instPath (modPaths !! typeId) = Resolved tt) ->
  mapSeries typeIds (fun typeId =>
    external (Purge (dm_id old) instPath (modPaths !! typeId))
             (purge old instPath (modPaths !! typeId))) t
  = (Resolved tt, t ++ purging old instPath modPaths typeIds).
Proof.
  induction typeIds as [|k ks IH]; intros t Hok; simpl.
  - unfold resolve, purging. by rewrite app_nil_r.
  - unfold then_ at 1, external at 1. rewrite Hok by (by left).
    rewrite IH by (intros k' Hk'; apply Hok; by right).
    unfold purging. simpl. by rewrite <- app_assoc.
Qed.

Lemma mapSeries_purge_fails old instPath modPaths pre k post e t :
  (forall typeId, typeId ∈ pre ->
     purge old instPath (modPaths !! typeId) = Resolved tt) ->
  purge old instPath (modPaths !! k) = Rejected e ->
  mapSeries (pre ++ k :: post) (fun typeId =>
    external (Purge (dm_id old) instPath (modPaths !! typeId))
             (purge old instPath (modPaths !! typeId))) t
  = (Rejected e, t ++ purging old instPath modPaths (pre ++ [k])).
Proof.
  revert t. induction pre as [|k' pre IH]; intros t Hok Hfail; simpl.
  - unfold then_, external. by rewrite Hfail.
  - unfold then_ at 1, external at 1. rewrite Hok by (by left).
    rewrite IH; [|intros k'' Hk''; apply Hok; by right|done].
    unfold purging. simpl. by rewrite <- app_assoc.
Qed.

Lemma activatorProm_migration discoveryPath game aid old :
  statAsync env (installPath env st) = Resolved tt ->
  currentActivator env st = Some aid ->
  List.find (fun act => bool_decide (dm_id act = aid))
            (getSupportedActivators env st) = None ->
  List.find (fun act => bool_decide (dm_id act = aid)) activators = Some old ->
  let instPath := installPath env st in
  let modPaths := getModPaths game discoveryPath in
  let out :=
    let '(started, prom) :=
      activatorProm env st activators newGame game discoveryPath in
    prom started in
  ((forall typeId, typeId ∈ keys modPaths ->
      purge old instPath (modPaths !! typeId) = Resolved tt) ->
   out = (Resolved tt,
          [StatAsync instPath] ++ purging old instPath modPaths (keys modPaths)
          ++ selecting newGame (getSupportedActivators env st)))
  /\ (forall pre k post e,
        keys modPaths = pre ++ k :: post ->
        (forall typeId, typeId ∈ pre ->
           purge old instPath (modPaths !! typeId) = Resolved tt) ->
        purge old instPath (modPaths !! k) = Rejected e ->
        out = (Resolved tt,
               [StatAsync instPath] ++ purging old instPath modPaths (pre ++ [k])
               ++ [purgeFailure e]
               ++ selecting newGame (getSupportedActivators env st))).
Proof.
  intros Hstat Hcur Hsup Hold instPath modPaths out.
  subst out instPath modPaths. unfold activatorProm.
  rewrite Hcur, Hsup, Hold. split.
  - intros Hok. unfold then_, catch_, catchClass. rewrite Hstat.
    rewrite mapSeries_purged by done.
    unfold selecting. destruct (getSupportedActivators env st); unfold_m;
      by rewrite ?app_nil_r, <- ?app_assoc.
  - intros pre k post e Hkeys Hok Hfail.
    unfold then_, catch_, catchClass. rewrite Hstat, Hkeys.
    rewrite (mapSeries_purge_fails old _ _ pre k post e) by done.
    unfold purgeFailure, selecting. case_bool_decide;
      destruct (getSupportedActivators env st); unfold_m;
      by rewrite ?app_nil_r, <- ?app_assoc.
Qed.

Lemma activatorProm_kept discoveryPath game aid :
  statAsync env (installPath env st) = Resolved tt ->
  currentActivator env st = Some aid ->
  let byId := List.find (fun act => bool_decide (dm_id act = aid)) in
  let out :=
    let '(started, prom) :=
      activatorProm env st activators newGame game discoveryPath in
    prom started in
  (is_Some (byId (getSupportedActivators env st)) ->
   out = (Resolved tt, [StatAsync (installPath env st)]))
  /\ (byId (getSupportedActivators env st) = None -> byId activators = None ->
      out = (Resolved tt,
             [StatAsync (installPath env st);
              ShowErrorNotification "Deployment method no longer available"
                                    (methodGone aid) (Some false)])).
Proof.
  intros Hstat Hcur byId out. subst out byId. unfold activatorProm.
  rewrite Hcur. split.
  - intros [a ->]. unfold catch_. by rewrite Hstat.
  - intros -> ->. unfold catch_. by rewrite Hstat.
Qed.

Lemma activatorProm_unconfigured discoveryPath game :
  statAsync env (installPath env st) = Resolved tt ->
  currentActivator env st = None ->
  (let '(started, prom) :=
     activatorProm env st activators newGame game discoveryPath in
   prom started)
  = (Resolved tt,
     [StatAsync (installPath env st)]
     ++ selecting newGame (getSupportedActivators env st)).
Proof.
  intros Hstat Hcur. unfold activatorProm. rewrite Hcur.
  unfold then_, catch_. rewrite Hstat. unfold selecting.
  destruct (getSupportedActivators env st); unfold_m; by rewrite ?app_nil_r.
Qed.

Lemma onGameModeActivated_quit discoveryPath game e :
  (discovered st !! activeGameId env st) ≫= disc_path = Some discoveryPath ->
  getGame env (activeGameId env st) = Some game ->
  statAsync env (installPath env st) = Rejected e ->
  showDialog env (installPath env st) = Resolved "Quit Vortex" ->
  exists started,
    onGameModeActivated env st activators newGame
    = started ++ [ShowDialog "Mod Staging Folder missing!"; AppExit 0]
    /\ (started = [StatAsync (installPath env st)]
        \/ exists aid,
             currentActivator env st = Some aid
             /\ started = [StatAsync (installPath env st);
                           ShowErrorNotification
                             "Deployment method no longer available"
                             (methodGone aid) (Some false)]).
Proof.
  intros Hdisc Hgame Hstat Hdialog. unfold onGameModeActivated.
  rewrite Hdisc, Hgame. unfold activatorProm.
  repeat case_match; simplify_eq.
  all: unfold_m; rewrite ?Hstat, ?Hdialog; simpl.
  all: rewrite ?Hstat, ?Hdialog; simpl.
  all: first
         [ by exists [StatAsync (installPath env st)]; split; [|left]
         | eexists [_; _]; split; [reflexivity|right; eauto] ].
Qed.

Lemma onGameModeActivated_reinit_failed discoveryPath game e0 action e :
  (discovered st !! activeGameId env st) ≫= disc_path = Some discoveryPath ->
  getGame env (activeGameId env st) = Some game ->
  statAsync env (installPath env st) = Rejected e0 ->
  showDialog env (installPath env st) = Resolved action ->
  action <> "Quit Vortex" ->
  fallbackPurge env = Rejected e
  \/ (fallbackPurge env = Resolved tt
      /\ ensureDirWritableAsync env (installPath env st) = Rejected e) ->
  exists started,
    onGameModeActivated env st activators newGame
    = started
      ++ [ShowDialog "Mod Staging Folder missing!";
          SendNotification (shortid env); FallbackPurge]
      ++ match fallbackPurge env with
         | Resolved _ => [EnsureDirWritableAsync (installPath env st)]
         | _ => []
         end
      ++ [DismissNotification (shortid env)]
      ++ refreshFailure e
    /\ (started = [StatAsync (installPath env st)]
        \/ exists aid,
             currentActivator env st = Some aid
             /\ started = [StatAsync (installPath env st);
                           ShowErrorNotification
                             "Deployment method no longer available"
                             (methodGone aid) (Some false)]).
Proof.
  intros Hdisc Hgame Hstat Hdialog Hreinit Hfail. unfold onGameModeActivated.
  rewrite Hdisc, Hgame. unfold activatorProm, refreshFailure.
  assert (bool_decide (action = "Quit Vortex") = false) as Hquit
      by by apply bool_decide_eq_false.
  destruct Hfail as [Hpurge|[Hpurge Hdir]].
  - repeat case_match; simplify_eq.
    all: unfold finally_; unfold_m; rewrite ?Hstat, ?Hdialog; simpl.
    all: rewrite ?Hquit, ?Hpurge; simpl.
    all: rewrite ?Hstat, ?Hdialog; simpl.
    all: rewrite ?Hquit, ?Hpurge; simpl.
    all: case_bool_decide; simpl.
    all: first
           [ by exists [StatAsync (installPath env st)]; split; [|left]
           | eexists [_; _]; split; [reflexivity|right; eauto] ].
  - repeat case_match; simplify_eq.
    all: unfold finally_; unfold_m; rewrite ?Hstat, ?Hdialog; simpl.
    all: rewrite ?Hquit, ?Hpurge; simpl; rewrite ?Hdir; simpl.
    all: rewrite ?Hstat, ?Hdialog; simpl.
    all: rewrite ?Hquit, ?Hpurge; simpl; rewrite ?Hdir; simpl.
    all: case_bool_decide; simpl.
    all: first
           [ by exists [StatAsync (installPath env st)]; split; [|left]
           | eexists [_; _]; split; [reflexivity|right; eauto] ].
Qed.

End Activation.

(** X23: when the staging folder cannot be inspected and the user answers
    'Quit Vortex', the application is told to exit and the activation stops
    there: after the dialog and the exit nothing happens - no purge, no
    change of the deployment method, no refresh - and no error is shown for
    the [UserCanceled] that ends the chain. *)
Theorem quitting_stops_the_activation :
  forall (env : Env) (st : IState) (activators : list IDeploymentMethod)
         (newGame discoveryPath : string) (game : IGame) (e : JsError),
    (discovered st !! activeGameId env st) ≫= disc_path = Some discoveryPath ->
    getGame env (activeGameId env st) = Some game ->
    statAsync env (installPath env st) = Rejected e ->
    showDialog env (installPath env st) = Resolved "Quit Vortex" ->
    exists started,
      onGameModeActivated env st activators newGame
      = started ++ [ShowDialog "Mod Staging Folder missing!"; AppExit 0]
      /\ (started = [StatAsync (installPath env st)]
          \/ exists aid,
               currentActivator env st = Some aid
               /\ started = [StatAsync (installPath env st);
                             ShowErrorNotification
                               "Deployment method no longer available"
                               (methodGone aid) (Some false)]).
Proof.
  intros env st activators newGame discoveryPath game e Hdisc Hgame Hstat Hquit.
  by eapply onGameModeActivated_quit.
Qed.

Lemma quitting_stops_the_activation_witness :
  exists started,
    onGameModeActivated
      (activationWorld (Rejected stagingGone) "Quit Vortex" (Some "hardlink")
                       (Resolved tt))
      sampleStore [hardlink (Resolved tt)] "skyrim"
    = started ++ [ShowDialog "Mod Staging Folder missing!"; AppExit 0]
    /\ (started = [StatAsync "/staging"]
        \/ exists aid,
             Some "hardlink" = Some aid
             /\ started = [StatAsync "/staging";
                           ShowErrorNotification
                             "Deployment method no longer available"
                             (methodGone aid) (Some false)]).
Proof.
  exact (quitting_stops_the_activation
           (activationWorld (Rejected stagingGone) "Quit Vortex" (Some "hardlink")
                            (Resolved tt))
           sampleStore [hardlink (Resolved tt)] "skyrim" "/games/skyrim"
           (mkGame (fun discoveryPath => {[ "" := discoveryPath ]}))
           stagingGone eq_refl eq_refl eq_refl eq_refl).
Defined.

(** X24: when the staging folder cannot be inspected, the user chooses to
    reinitialise it, and the fallback purge or the writability check that
    follows is rejected, the 'Purging mods' notification is dismissed all the
    same, and the activation ends there: the error is shown as 'Failed to
    refresh mods' (reportable unless its code is ENOENT), or dropped if it is
    a [UserCanceled]; nothing is refreshed. *)
Theorem failed_reinitialisation_dismisses_the_notification :
  forall (env : Env) (st : IState) (activators : list IDeploymentMethod)
         (newGame discoveryPath : string) (game : IGame) (e0 e : JsError)
         (action : string),
    (discovered st !! activeGameId env st) ≫= disc_path = Some discoveryPath ->
    getGame env (activeGameId env st) = Some game ->
    statAsync env (installPath env st) = Rejected e0 ->
    showDialog env (installPath env st) = Resolved action ->
    action <> "Quit Vortex" ->
    fallbackPurge env = Rejected e
    \/ (fallbackPurge env = Resolved tt
        /\ ensureDirWritableAsync env (installPath env st) = Rejected e) ->
    exists started,
      onGameModeActivated env st activators newGame
      = started
        ++ [ShowDialog "Mod Staging Folder missing!";
            SendNotification (shortid env); FallbackPurge]
        ++ match fallbackPurge env with
           | Resolved _ => [EnsureDirWritableAsync (installPath env st)]
           | _ => []
           end
        ++ [DismissNotification (shortid env)]
        ++ refreshFailure e
      /\ (started = [StatAsync (installPath env st)]
          \/ exists aid,
               currentActivator env st = Some aid
               /\ started = [StatAsync (installPath env st);
                             ShowErrorNotification
                               "Deployment method no longer available"
                               (methodGone aid) (Some false)]).
Proof.
  intros env st activators newGame discoveryPath game e0 e action
         Hdisc Hgame Hstat Hdialog Hreinit Hfail.
  by eapply onGameModeActivated_reinit_failed.
Qed.

Lemma failed_reinitialisation_witness :
  exists started,
    onGameModeActivated
      (activationWorld (Rejected stagingGone) "Reinitialize staging folder"
                       (Some "hardlink") (Rejected linksInUse))
      sampleStore [hardlink (Resolved tt)] "skyrim"
    = started
      ++ [ShowDialog "Mod Staging Folder missing!";
          SendNotification "notification-1"; FallbackPurge]
      ++ []
      ++ [DismissNotification "notification-1"]
      ++ [ShowError "Failed to refresh mods" linksInUse (Some true)]
    /\ (started = [StatAsync "/staging"]
        \/ exists aid,
             Some "hardlink" = Some aid
             /\ started = [StatAsync "/staging";
                           ShowErrorNotification
                             "Deployment method no longer available"
                             (methodGone aid) (Some false)]).
Proof.
  refine (failed_reinitialisation_dismisses_the_notification
            (activationWorld (Rejected stagingGone) "Reinitialize staging folder"
                             (Some "hardlink") (Rejected linksInUse))
            sampleStore [hardlink (Resolved tt)] "skyrim" "/games/skyrim"
            (mkGame (fun discoveryPath => {[ "" := discoveryPath ]}))
            stagingGone linksInUse "Reinitialize staging folder"
            eq_refl eq_refl eq_refl eq_refl _ (or_introl eq_refl)).
  discriminate.
Defined.

Lemma first_rejected_purge old instPath (modPaths : gmap string string) typeIds :
  (forall typeId, typeId ∈ typeIds ->
     purge old instPath (modPaths !! typeId) <> Pending) ->
  (exists typeId e, typeId ∈ typeIds
                    /\ purge old instPath (modPaths !! typeId) = Rejected e) ->
  exists pre k post e,
    typeIds = pre ++ k :: post
    /\ (forall typeId, typeId ∈ pre ->
          purge old instPath (modPaths !! typeId) = Resolved tt)
    /\ purge old instPath (modPaths !! k) = Rejected e.
Proof.
  induction typeIds as [|k ks IH]; intros Hsettled (bad & e & Hin & Hbad).
  { by apply elem_of_nil in Hin. }
  destruct (purge old instPath (modPaths !! k)) as [[]|e'|] eqn:Hk.
  - destruct IH as (pre & k' & post & e' & -> & Hpre & Hk').
    { intros typeId Hid. apply Hsettled. by right. }
    { apply elem_of_cons in Hin as [->|Hin]; [congruence|]. eauto. }
    exists (k :: pre), k', post, e'. split; [done|]. split; [|done].
    intros typeId [->|Hid]%elem_of_cons; [done|by apply Hpre].
  - exists [], k, ks, e'. split; [done|]. split; [|done].
    intros typeId Hid. by apply elem_of_nil in Hid.
  - destruct (Hsettled k); [by left|done].
Qed.

Lemma keys_NoDup {A} (m : gmap string A) : NoDup (keys m).
Proof. apply NoDup_fst_map_to_list. Qed.

(** X25: a game configured for a method that is loaded but not supported
    any more is migrated.  With the staging folder in place, the mod types
    of the game are purged with the old method, one after the other and each
    once, and the game is then switched to the first supported method before
    the refresh.  If every purge settles and one is rejected, the types not
    yet purged are skipped and the failure is shown - 'Purge failed, please
    try again' for a [TemporaryError], 'Purge failed' otherwise - but the
    switch and the refresh happen all the same.  The order in which the
    types are taken is left open. *)
Theorem unsupported_method_is_purged_and_replaced :
  forall (env : Env) (st : IState) (activators : list IDeploymentMethod)
         (newGame discoveryPath : string) (game : IGame) (aid : string)
         (old : IDeploymentMethod),
    (discovered st !! activeGameId env st) ≫= disc_path = Some discoveryPath ->
    getGame env (activeGameId env st) = Some game ->
    statAsync env (installPath env st) = Resolved tt ->
    currentActivator env st = Some aid ->
    List.find (fun act => bool_decide (dm_id act = aid))
              (getSupportedActivators env st) = None ->
    List.find (fun act => bool_decide (dm_id act = aid)) activators = Some old ->
    let instPath := installPath env st in
    let modPaths := getModPaths game discoveryPath in
    ((forall typeId, is_Some (modPaths !! typeId) ->
        purge old instPath (modPaths !! typeId) = Resolved tt) ->
     exists purged suffix,
       NoDup purged
       /\ (forall typeId, typeId ∈ purged <-> is_Some (modPaths !! typeId))
       /\ onGameModeActivated env st activators newGame
          = ([StatAsync instPath] ++ purging old instPath modPaths purged
             ++ selecting newGame (getSupportedActivators env st)) ++ suffix
       /\ Forall (fun ev => isRefresh ev = true) suffix)
    /\ ((forall typeId, is_Some (modPaths !! typeId) ->
           purge old instPath (modPaths !! typeId) <> Pending) ->
        (exists typeId e,
            is_Some (modPaths !! typeId)
            /\ purge old instPath (modPaths !! typeId) = Rejected e) ->
        exists made k e suffix,
          NoDup (made ++ [k])
          /\ (forall typeId, typeId ∈ made ++ [k] ->
                is_Some (modPaths !! typeId))
          /\ (forall typeId, typeId ∈ made ->
                purge old instPath (modPaths !! typeId) = Resolved tt)
          /\ purge old instPath (modPaths !! k) = Rejected e
          /\ onGameModeActivated env st activators newGame
             = ([StatAsync instPath]
                ++ purging old instPath modPaths (made ++ [k])
                ++ [purgeFailure e]
                ++ selecting newGame (getSupportedActivators env st)) ++ suffix
          /\ Forall (fun ev => isRefresh ev = true) suffix).
Proof.
  intros env st activators newGame discoveryPath game aid old
         Hdisc Hgame Hstat Hcur Hsup Hold instPath modPaths.
  destruct (activatorProm_migration env st activators newGame discoveryPath
                                    game aid old Hstat Hcur Hsup Hold)
    as [Hall Hone].
  split.
  - intros Hok.
    destruct (onGameModeActivated_after env st activators newGame discoveryPath
                game (Resolved tt) _ Hdisc Hgame
                (Hall (fun typeId Hin => Hok typeId (proj1 (elem_of_keys _ _) Hin))))
      as (suffix & Hrun & Hsuffix).
    exists (keys modPaths), suffix. split; [apply keys_NoDup|].
    split; [intros typeId; apply elem_of_keys|]. by split.
  - intros Hsettled (bad & e0 & Hbad & Hrej).
    destruct (first_rejected_purge old instPath modPaths (keys modPaths))
      as (pre & k & post & e & Hkeys & Hpre & Hk).
    { intros typeId Hin. apply Hsettled. by apply elem_of_keys. }
    { exists bad, e0. split; [by apply elem_of_keys|done]. }
    destruct (onGameModeActivated_after env st activators newGame discoveryPath
                game (Resolved tt) _ Hdisc Hgame
                (Hone pre k post e Hkeys Hpre Hk))
      as (suffix & Hrun & Hsuffix).
    exists pre, k, e, suffix.
    pose proof (keys_NoDup modPaths) as Hnd. rewrite Hkeys in Hnd.
    split.
    { rewrite cons_middle, app_assoc in Hnd. by apply NoDup_app in Hnd as [? _]. }
    split.
    { intros typeId Hin. apply elem_of_keys. rewrite Hkeys.
      rewrite cons_middle, app_assoc. apply elem_of_app. by left. }
    by repeat split.
Qed.

Lemma unsupported_method_witness :
  exists made k e suffix,
    NoDup (made ++ [k])
    /\ (forall typeId, typeId ∈ made ++ [k] ->
          is_Some (({[ "" := "/games/skyrim" ]} : gmap string string) !! typeId))
    /\ (forall typeId, typeId ∈ made ->
          purge (symlink (Rejected linksInUse)) "/staging"
                (({[ "" := "/games/skyrim" ]} : gmap string string) !! typeId)
          = Resolved tt)
    /\ purge (symlink (Rejected linksInUse)) "/staging"
             (({[ "" := "/games/skyrim" ]} : gmap string string) !! k)
       = Rejected e
    /\ onGameModeActivated
         (activationWorld (Resolved tt) "Quit Vortex" (Some "symlink")
                          (Resolved tt))
         sampleStore [symlink (Rejected linksInUse)] "skyrim"
       = ([StatAsync "/staging"]
          ++ purging (symlink (Rejected linksInUse)) "/staging"
                     {[ "" := "/games/skyrim" ]} (made ++ [k])
          ++ [purgeFailure e]
          ++ [Dispatch (SetActivator "skyrim" "hardlink")]) ++ suffix
    /\ Forall (fun ev => isRefresh ev = true) suffix.
Proof.
  refine (proj2 (unsupported_method_is_purged_and_replaced
                   (activationWorld (Resolved tt) "Quit Vortex" (Some "symlink")
                                    (Resolved tt))
                   sampleStore [symlink (Rejected linksInUse)] "skyrim"
                   "/games/skyrim"
                   (mkGame (fun discoveryPath => {[ "" := discoveryPath ]}))
                   "symlink" (symlink (Rejected linksInUse))
                   eq_refl eq_refl eq_refl eq_refl eq_refl eq_refl) _ _).
  - intros typeId _. discriminate.
  - exists "", linksInUse. split; [by eexists|reflexivity].
Defined.

(** X26: the configured method is left alone when it is supported, and
    also when it is not loaded any more.  With the staging folder in place
    nothing is purged and no other method is selected; in the second case
    the notification 'Deployment method no longer available' (reporting off)
    is shown before anything else.  The refresh follows in both cases. *)
Theorem configured_method_is_kept :
  forall (env : Env) (st : IState) (activators : list IDeploymentMethod)
         (newGame discoveryPath : string) (game : IGame) (aid : string),
    (discovered st !! activeGameId env st) ≫= disc_path = Some discoveryPath ->
    getGame env (activeGameId env st) = Some game ->
    statAsync env (installPath env st) = Resolved tt ->
    currentActivator env st = Some aid ->
    let byId := List.find (fun act => bool_decide (dm_id act = aid)) in
    (is_Some (byId (getSupportedActivators env st)) ->
     exists suffix,
       onGameModeActivated env st activators newGame
       = [StatAsync (installPath env st)] ++ suffix
       /\ Forall (fun ev => isRefresh ev = true) suffix)
    /\ (byId (getSupportedActivators env st) = None ->
        byId activators = None ->
        exists suffix,
          onGameModeActivated env st activators newGame
          = [StatAsync (installPath env st);
             ShowErrorNotification "Deployment method no longer available"
                                   (methodGone aid) (Some false)] ++ suffix
          /\ Forall (fun ev => isRefresh ev = true) suffix).
Proof.
  intros env st activators newGame discoveryPath game aid
         Hdisc Hgame Hstat Hcur byId.
  destruct (activatorProm_kept env st activators newGame discoveryPath
                               game aid Hstat Hcur)
    as [Hsup Hgone].
  split.
  - intros Hfound.
    exact (onGameModeActivated_after env st activators newGame discoveryPath
             game (Resolved tt) _ Hdisc Hgame (Hsup Hfound)).
  - intros Hnone Hnone'.
    exact (onGameModeActivated_after env st activators newGame discoveryPath
             game (Resolved tt) _ Hdisc Hgame (Hgone Hnone Hnone')).
Qed.

Lemma configured_method_is_kept_witness :
  exists suffix,
    onGameModeActivated
      (activationWorld (Resolved tt) "Quit Vortex" (Some "symlink") (Resolved tt))
      sampleStore [hardlink (Resolved tt)] "skyrim"
    = [StatAsync "/staging";
       ShowErrorNotification "Deployment method no longer available"
                             (methodGone "symlink") (Some false)] ++ suffix
    /\ Forall (fun ev => isRefresh ev = true) suffix.
Proof.
  exact (proj2 (configured_method_is_kept
                  (activationWorld (Resolved tt) "Quit Vortex" (Some "symlink")
                                   (Resolved tt))
                  sampleStore [hardlink (Resolved tt)] "skyrim" "/games/skyrim"
                  (mkGame (fun discoveryPath => {[ "" := discoveryPath ]}))
                  "symlink" eq_refl eq_refl eq_refl eq_refl)
               eq_refl eq_refl).
Defined.

(** X27: when no method is configured for the game and the staging folder
    is in place, nothing is purged: the first supported method, if there is
    one, is selected for the new game, and the refresh follows. *)
Theorem first_supported_method_is_selected :
  forall (env : Env) (st : IState) (activators : list IDeploymentMethod)
         (newGame discoveryPath : string) (game : IGame),
    (discovered st !! activeGameId env st) ≫= disc_path = Some discoveryPath ->
    getGame env (activeGameId env st) = Some game ->
    statAsync env (installPath env st) = Resolved tt ->
    currentActivator env st = None ->
    exists suffix,
      onGameModeActivated env st activators newGame
      = ([StatAsync (installPath env st)]
         ++ selecting newGame (getSupportedActivators env st)) ++ suffix
      /\ Forall (fun ev => isRefresh ev = true) suffix.
Proof.
  intros env st activators newGame discoveryPath game Hdisc Hgame Hstat Hcur.
  exact (onGameModeActivated_after env st activators newGame discoveryPath
           game (Resolved tt) _ Hdisc Hgame
           (activatorProm_unconfigured env st activators newGame discoveryPath
                                       game Hstat Hcur)).
Qed.

Lemma first_supported_method_witness :
  exists suffix,
    onGameModeActivated
      (activationWorld (Resolved tt) "Quit Vortex" None (Resolved tt))
      sampleStore [hardlink (Resolved tt)] "skyrim"
    = ([StatAsync "/staging"] ++ [Dispatch (SetActivator "skyrim" "hardlink")])
      ++ suffix
    /\ Forall (fun ev => isRefresh ev = true) suffix.
Proof.
  exact (first_supported_method_is_selected
           (activationWorld (Resolved tt) "Quit Vortex" None (Resolved tt))
           sampleStore [hardlink (Resolved tt)] "skyrim" "/games/skyrim"
           (mkGame (fun discoveryPath => {[ "" := discoveryPath ]}))
           eq_refl eq_refl eq_refl eq_refl).
Defined.

(** ** A deletion the user cancels *)

(** X28: the handlers and the filesystem layer together.  When the
    deletion of the mod's directory fails with EBUSY, ENOSPC or EPERM and the
    user answers the dialog of the filesystem layer with "Cancel", the
    removal does not end silently: the [UserCanceled] error reaches
    [onRemoveMod], which hands it to the callback or shows it as 'Failed to
    remove mod', with the error attached and reporting left on.  The mod is
    not dropped from the store. *)
Theorem cancelled_deletion_is_reported_as_a_failure :
  forall (fsenv : Fs.Env unit) (fuel : nat) (stackErr : string) (env : Env)
         (st : IState) (activators : list IDeploymentMethod)
         (gameMode modId : string) (callback : bool)
         (known : gmap string IMod) (mod_ : IMod) (u : M unit) (err : JsError),
    let world := overFs fsenv (S fuel) stackErr env in
    mods st !! gameMode = Some known ->
    known !! modId = Some mod_ ->
    isRemovableState (Some (mod_state mod_)) = true ->
    firstStep world st activators gameMode modId mod_ = inr u ->
    (u [disabling st gameMode modId]).1 = Resolved tt ->
    Fs.dialogDefined fsenv = true ->
    Fs.underlying fsenv 0 = Rejected err ->
    Fs.recoverable err = true ->
    (forall o, Fs.showMessageBox fsenv 0 o = 0) ->
    let canceled := Fs.restackErr (Fs.newUserCanceled fsenv) stackErr in
    exists steps,
      onRemoveMod world st activators gameMode modId callback
      = (Returned,
         disabling st gameMode modId :: steps
         ++ [RemoveAsync (modDir world st gameMode mod_);
             if callback then Callback (Some canceled)
             else ShowErrorNotification "Failed to remove mod"
                                        (DetailError canceled) None])
      /\ Forall (fun ev => isUndeployStep ev = true) steps.
Proof.
  intros fsenv fuel stackErr env st activators gameMode modId callback
         known mod_ u err world Hknown Hmod Hstate Hfirst Hu Hd Hcall Hr Hans
         canceled.
  destruct (FsMore.removeAsync_cancelled
              fsenv stackErr (modDir world st gameMode mod_) fuel err
              Hd Hcall Hr Hans)
    as (o & Hrun).
  assert (removeAsync world (modDir world st gameMode mod_) = Rejected canceled)
    as Hrm.
  { change (removeAsync world (modDir world st gameMode mod_))
      with (outcome (Fs.removeAsync fsenv (S fuel) stackErr
                                    (modDir world st gameMode mod_) [])).
    by rewrite Hrun. }
  destruct (firstStep_steps world st activators gameMode modId mod_ u
                            [disabling st gameMode modId] Hfirst)
    as (steps & Hsteps & Hall).
  exists steps. split; [|done].
  rewrite (onRemoveMod_run world st activators gameMode modId callback
                           known mod_ Hknown Hmod Hstate).
  rewrite Hfirst, Hsteps, Hu. unfold afterFirstStep. rewrite Hrm.
  simpl. unfold reportEvent. by destruct callback.
Qed.

Lemma cancelled_deletion_witness :
  exists steps,
    onRemoveMod (overFs (@Fs.busyThenCancel unit) 1 "site" stagingAD) sampleStore
                [hardlink (Resolved tt)] "skyrim" "C" false
    = (Returned,
       Dispatch (SetModEnabled (Some "profile-1") "C" false) :: steps
       ++ [RemoveAsync "/staging/C";
           ShowErrorNotification "Failed to remove mod"
             (DetailError (Fs.restackErr (Fs.newUserCanceled (@Fs.busyThenCancel unit))
                                         "site")) None])
    /\ Forall (fun ev => isUndeployStep ev = true) steps.
Proof.
  exact (cancelled_deletion_is_reported_as_a_failure
           (@Fs.busyThenCancel unit) 0 "site" stagingAD sampleStore
           [hardlink (Resolved tt)] "skyrim" "C" false
           {[ "A" := modA; "B" := modB; "C" := modC ]} modC (resolve tt)
           (Fs.errno "EBUSY" "/mods/a.esp")
           eq_refl eq_refl eq_refl eq_refl eq_refl eq_refl eq_refl eq_refl
           (fun _ => eq_refl)).
Defined.
End ModsMore.
